(** * The skills marketplace server (gemini-extension/mcp-server/index.js)

    A shallow embedding of the catalog builder ([findSkills]), the
    description extraction it performs on every [SKILL.md], and the
    installer ([handleInstallSkill]) together with the request dispatch
    that guards it.

    JavaScript strings are modelled as lists of code units, restricted to
    the code units below 256 ([ascii]); exceptions are modelled by the
    [result] type; the file system is a tree of directory listings. *)

From Stdlib Require Import String Ascii List Bool Arith ZArith Lia.
From Stdlib Require Import Sorting.Sorted Sorting.Permutation.
Import ListNotations.
Open Scope list_scope.

(** ** Strings *)

Definition str := list ascii.

(** A string literal of the source. *)
Definition lit (s : string) : str := list_ascii_of_string s.

Definition LF : ascii := "010"%char.
Definition CR : ascii := "013"%char.
Definition SP : ascii := " "%char.

Fixpoint str_eqb (a b : str) : bool :=
  match a, b with
  | [], [] => true
  | x :: a', y :: b' => Ascii.eqb x y && str_eqb a' b'
  | _, _ => false
  end.

(** [\s] of a JavaScript regular expression and the characters removed by
    [String.prototype.trim], among the code units below 256: TAB, LF, VT,
    FF, CR, space and the no-break space. *)
Definition is_space (c : ascii) : bool :=
  match nat_of_ascii c with
  | 9 | 10 | 11 | 12 | 13 | 32 | 160 => true
  | _ => false
  end.

(** The line terminators of a regular expression, among the code units
    below 256: LF and CR. *)
Definition is_line_terminator (c : ascii) : bool :=
  Ascii.eqb c LF || Ascii.eqb c CR.

(** [.] of a regular expression without the [s] flag. *)
Definition is_dot (c : ascii) : bool := negb (is_line_terminator c).

(** [[\s\S]]. *)
Definition is_any (c : ascii) : bool := is_space c || negb (is_space c).

Fixpoint dropWhile (p : ascii -> bool) (s : str) : str :=
  match s with
  | [] => []
  | c :: s' => if p c then dropWhile p s' else s
  end.

(** [String.prototype.trim]. *)
Definition trim (s : str) : str :=
  rev (dropWhile is_space (rev (dropWhile is_space s))).

(** [String.prototype.startsWith]. *)
Fixpoint startsWith (p s : str) : bool :=
  match p, s with
  | [], _ => true
  | x :: p', y :: s' => Ascii.eqb x y && startsWith p' s'
  | _ :: _, [] => false
  end.

(** [String.prototype.split] with a separator of one character. *)
Fixpoint split_on (sep : ascii) (s : str) : list str :=
  match s with
  | [] => [[]]
  | c :: s' =>
      if Ascii.eqb c sep then [] :: split_on sep s'
      else match split_on sep s' with
           | [] => [[c]]
           | w :: ws => (c :: w) :: ws
           end
  end.

(** [Array.prototype.join]. *)
Fixpoint join (sep : str) (l : list str) : str :=
  match l with
  | [] => []
  | [w] => w
  | w :: l' => w ++ sep ++ join sep l'
  end.

(** ** Regular expressions

    A backtracking matcher for the fragment of JavaScript regular
    expressions the server uses: literals, the assertions [^] and [$]
    (with or without the [m] flag), greedy and lazy quantifiers over one
    character class, the greedy optional group and capture groups.
    Alternatives are tried in the order of the ECMAScript semantics: a
    greedy quantifier tries the longest repetition first, a lazy one the
    shortest. *)

Inductive regex : Type :=
| Bol (multiline : bool)
| Eol (multiline : bool)
| Lit (w : str)
| Star (cls : ascii -> bool)
| StarLazy (cls : ascii -> bool)
| Plus (cls : ascii -> bool)
| Opt (r : regex)
| Grp (i : nat) (r : regex)
| Seq (r1 r2 : regex).

Definition caps := list (option str).

Fixpoint set_cap (i : nat) (v : str) (c : caps) : caps :=
  match i, c with
  | O, [] => [Some v]
  | O, _ :: c' => Some v :: c'
  | S i', [] => None :: set_cap i' v []
  | S i', x :: c' => x :: set_cap i' v c'
  end.

(** [m[i]] of a match result: [None] is [undefined]. *)
Definition get_cap (i : nat) (c : caps) : option str := nth i c None.

Definition at_bol (multiline : bool) (prev : option ascii) : bool :=
  match prev with
  | None => true
  | Some c => multiline && is_line_terminator c
  end.

Definition at_eol (multiline : bool) (s : str) : bool :=
  match s with
  | [] => true
  | c :: _ => multiline && is_line_terminator c
  end.

(** [strip_prefix w prev s]: the input after the literal [w], with the
    character before the new position. *)
Fixpoint strip_prefix (w : str) (prev : option ascii) (s : str)
  : option (option ascii * str) :=
  match w, s with
  | [], _ => Some (prev, s)
  | x :: w', y :: s' =>
      if Ascii.eqb x y then strip_prefix w' (Some y) s' else None
  | _ :: _, [] => None
  end.

Section Matcher.

(** A continuation receives the character before the current position,
    the rest of the input and the captures so far. *)
Definition kont := option ascii -> str -> caps -> option caps.

Fixpoint star_greedy (cls : ascii -> bool) (prev : option ascii) (s : str)
         (k : option ascii -> str -> option caps) : option caps :=
  match s with
  | x :: s' =>
      if cls x then
        match star_greedy cls (Some x) s' k with
        | Some r => Some r
        | None => k prev s
        end
      else k prev s
  | [] => k prev s
  end.

Fixpoint star_lazy (cls : ascii -> bool) (prev : option ascii) (s : str)
         (k : option ascii -> str -> option caps) : option caps :=
  match k prev s with
  | Some r => Some r
  | None =>
      match s with
      | x :: s' => if cls x then star_lazy cls (Some x) s' k else None
      | [] => None
      end
  end.

Fixpoint rmatch (r : regex) (prev : option ascii) (s : str) (c : caps)
         (k : kont) : option caps :=
  match r with
  | Bol ml => if at_bol ml prev then k prev s c else None
  | Eol ml => if at_eol ml s then k prev s c else None
  | Lit w =>
      match strip_prefix w prev s with
      | Some (p, s') => k p s' c
      | None => None
      end
  | Star cls => star_greedy cls prev s (fun p s' => k p s' c)
  | StarLazy cls => star_lazy cls prev s (fun p s' => k p s' c)
  | Plus cls =>
      match s with
      | x :: s' =>
          if cls x then star_greedy cls (Some x) s' (fun p s'' => k p s'' c)
          else None
      | [] => None
      end
  | Opt r' =>
      match rmatch r' prev s c k with
      | Some res => Some res
      | None => k prev s c
      end
  | Grp i r' =>
      rmatch r' prev s c
        (fun p s' c' =>
           k p s' (set_cap i (firstn (length s - length s') s) c'))
  | Seq r1 r2 => rmatch r1 prev s c (fun p s' c' => rmatch r2 p s' c' k)
  end.

(** The search of [RegExp.prototype.exec] without the [g] flag: the
    first start position, from the left, at which the pattern matches. *)
Fixpoint search (r : regex) (prev : option ascii) (s : str) : option caps :=
  match rmatch r prev s [] (fun _ _ c => Some c) with
  | Some c => Some c
  | None =>
      match s with
      | [] => None
      | x :: s' => search r (Some x) s'
      end
  end.

(** [s.match(r)]: the captures of the first match, [None] for [null]. *)
Definition exec (r : regex) (s : str) : option caps := search r None s.

End Matcher.

Declare Scope regex_scope.
Delimit Scope regex_scope with re.
Infix ";;" := Seq (at level 41, right associativity) : regex_scope.

(** [/^---\s*\n([\s\S]*?)\n---\s*\n/] *)
Definition re_frontmatter : regex :=
  (Bol false ;; Lit (lit "---") ;; Star is_space ;; Lit [LF] ;;
   Grp 1 (StarLazy is_any) ;;
   Lit (LF :: lit "---") ;; Star is_space ;; Lit [LF])%re.

(** [/^description:\s*(>)?\s*(.+)$/m] *)
Definition re_description : regex :=
  (Bol true ;; Lit (lit "description:") ;; Star is_space ;;
   Opt (Grp 1 (Lit (lit ">"))) ;; Star is_space ;;
   Grp 2 (Plus is_dot) ;; Eol true)%re.

(** [/^description:\s*>/] *)
Definition re_folded : regex :=
  (Bol false ;; Lit (lit "description:") ;; Star is_space ;; Lit (lit ">"))%re.

(** ** Description extraction (index.js, lines 75-111) *)

Definition NO_DESCRIPTION : str := lit "No description available.".

Definition is_some {A} (o : option A) : bool :=
  match o with Some _ => true | None => false end.

(** The loop of lines 89-102 over the lines of the header, with its two
    variables [capturing] and [descLines]. *)
Fixpoint foldedLoop (lines : list str) (capturing : bool) (descLines : list str)
  : list str :=
  match lines with
  | [] => descLines
  | line :: rest =>
      if is_some (exec re_folded line) then foldedLoop rest true descLines
      else if capturing then
        if length (trim line) =? 0 then foldedLoop rest capturing descLines
        else if startsWith (lit "  ") line
             then foldedLoop rest capturing (descLines ++ [trim line])
             else descLines
      else foldedLoop rest capturing descLines
  end.

(** Lines 79-108: the description found in the content of a marker file,
    [None] when the variable [description] keeps its initial value. *)
Definition parseDescription (content : str) : option str :=
  match exec re_frontmatter content with
  | None => None
  | Some m =>
      match get_cap 1 m with
      | None => None
      | Some yamlText =>
          match exec re_description yamlText with
          | None => None
          | Some descMatch =>
              if match get_cap 1 descMatch with
                 | Some g => str_eqb g (lit ">")
                 | None => false
                 end
              then Some (join (lit " ")
                           (foldedLoop (split_on LF yamlText) false []))
              else match get_cap 2 descMatch with
                   | Some v => Some (trim v)
                   | None => None
                   end
          end
      end
  end.

(** ** Exceptions

    The errors of the system calls by their code ([SystemError] for a
    code that has no constructor of its own), the TypeError of a failed
    destructuring, and the errors the server makes with [new Error]. *)

Inductive exn : Type :=
| ENOENT
| ENOTDIR
| EACCES
| ELOOP
| SystemError (code : str)
| TypeError
| Error (message : str).

Inductive result (A : Type) : Type :=
| Ok (a : A)
| Throw (e : exn).

Arguments Ok {A} a.
Arguments Throw {A} e.

(** Lines 75-111: [description] starts as the placeholder; a failing
    [readFileSync] is caught and leaves it unchanged. *)
Definition readDescription (file : result str) : str :=
  match file with
  | Throw _ => NO_DESCRIPTION
  | Ok content =>
      match parseDescription content with
      | Some d => d
      | None => NO_DESCRIPTION
      end
  end.

(** ** Paths

    The functions of the [path] module (POSIX flavour) on the paths the
    server builds: absolute, normalized paths without [.] and [..]
    segments, extended by names read from directories. *)

Definition SEP : ascii := "/"%char.

Definition is_empty (s : str) : bool :=
  match s with [] => true | _ :: _ => false end.

(** [path.join(a, b)] for a normalized [a] that does not end with the
    separator and a name [b]: an empty segment is ignored. (For the root
    directory as [a] the text differs from [path.join] by a doubled
    separator; the place it names is the same.) *)
Definition path_join (a b : str) : str :=
  if is_empty b then a else a ++ SEP :: b.

(** [path.basename]. *)
Definition basename (p : str) : str := last (split_on SEP p) [].

(** [path.dirname]. *)
Definition dirname (p : str) : str :=
  match removelast (split_on SEP p) with
  | [] => lit "."
  | segs => let d := join [SEP] segs in if is_empty d then [SEP] else d
  end.

(** The non-empty segments of a path. *)
Definition segments (p : str) : list str :=
  filter (fun w => negb (is_empty w)) (split_on SEP p).

Fixpoint drop_common (a b : list str) : list str * list str :=
  match a, b with
  | x :: a', y :: b' => if str_eqb x y then drop_common a' b' else (a, b)
  | _, _ => (a, b)
  end.

(** [path.relative(from, to)]: one [..] for each segment of [from] below
    the common prefix, then what is left of [to]. *)
Definition path_relative (from to : str) : str :=
  let (up, down) := drop_common (segments from) (segments to) in
  join [SEP] (map (fun _ => lit "..") up ++ down).

(** ** The file system *)

Local Unset Elimination Schemes.

Inductive node : Type :=
| File (readable : bool) (content : str)
| Dir (readable : bool) (entries : list (str * node)).

Local Set Elimination Schemes.

Fixpoint find_entry (name : str) (es : list (str * node)) : option node :=
  match es with
  | [] => None
  | (n, c) :: es' => if str_eqb n name then Some c else find_entry name es'
  end.

Fixpoint set_entry (name : str) (c : node) (es : list (str * node))
  : list (str * node) :=
  match es with
  | [] => [(name, c)]
  | (n, c0) :: es' =>
      if str_eqb n name then (n, c) :: es' else (n, c0) :: set_entry name c es'
  end.

Fixpoint lookup_path (n : node) (segs : list str) : option node :=
  match segs with
  | [] => Some n
  | s :: rest =>
      match n with
      | File _ _ => None
      | Dir _ es =>
          match find_entry s es with
          | Some c => lookup_path c rest
          | None => None
          end
      end
  end.

(** What the absolute path [p] names in the tree standing at [root]. *)
Definition resolve (root : str) (tree : option node) (p : str) : option node :=
  match tree, drop_common (segments root) (segments p) with
  | Some n, ([], down) => lookup_path n down
  | _, _ => None
  end.

(** [fs.mkdirSync(p, { recursive: true })], along the segments of [p]
    below the tree [n]: the tree afterwards when the directories can be
    made; a file on the way is an error. The refusals of the file system
    itself (a directory that cannot be written, a device that is full or
    read-only) are not part of the model: what is stated below of an
    installation is stated of a call by the outcome it reports, never as
    a condition under which a write succeeds. *)
Fixpoint mkdirp (segs : list str) (n : option node) : result node :=
  match n with
  | Some (File _ _) => Throw ENOTDIR
  | Some (Dir r es) =>
      match segs with
      | [] => Ok (Dir r es)
      | s :: rest =>
          match mkdirp rest (find_entry s es) with
          | Ok c => Ok (Dir r (set_entry s c es))
          | Throw e => Throw e
          end
      end
  | None =>
      match segs with
      | [] => Ok (Dir true [])
      | s :: rest =>
          match mkdirp rest None with
          | Ok c => Ok (Dir true [(s, c)])
          | Throw e => Throw e
          end
      end
  end.

(** [put_at segs new n]: the tree [n] with [new] standing at [segs];
    missing directories on the way are created, a file on the way is an
    error. As for [mkdirp], the refusal of a write by the file system is
    not part of the model. *)
Fixpoint put_at (segs : list str) (new : node) (n : option node) : result node :=
  match segs with
  | [] => Ok new
  | s :: rest =>
      match n with
      | Some (File _ _) => Throw ENOTDIR
      | Some (Dir r es) =>
          match put_at rest new (find_entry s es) with
          | Ok c => Ok (Dir r (set_entry s c es))
          | Throw e => Throw e
          end
      | None =>
          match put_at rest new None with
          | Ok c => Ok (Dir true [(s, c)])
          | Throw e => Throw e
          end
      end
  end.

(** The ways [fs.statSync] fails at an entry a directory lists: a
    symbolic link whose target is missing, an entry of a directory that
    may be listed but not searched, a symbolic link that leads back to
    itself, or any other error of the system call by its code; and the
    exception it throws. *)
Inductive stat_failure : Type :=
| Dangling
| Unsearchable
| Loop
| OtherFailure (code : str).

Definition stat_exn (f : stat_failure) : exn :=
  match f with
  | Dangling => ENOENT
  | Unsearchable => EACCES
  | Loop => ELOOP
  | OtherFailure code => SystemError code
  end.

(** The recursive copy of [src] to a destination that holds nothing:
    whether the copy completed, and what stands at the destination
    afterwards. An unreadable file or directory stops the copy, leaving
    what was copied before it; the entries are taken in the order of the
    listing, which for a copy that stops need not be the order in which
    [cpSync] meets them. A completed copy is the source tree, in any
    order. *)
Fixpoint cp_tree (src : node) : bool * option node :=
  match src with
  | File true c => (true, Some (File true c))
  | File false _ => (false, None)
  | Dir false _ => (false, Some (Dir true []))
  | Dir true es =>
      let fix each (es : list (str * node)) : bool * list (str * node) :=
        match es with
        | [] => (true, [])
        | (name, child) :: rest =>
            match cp_tree child with
            | (true, Some c') =>
                let (ok, out) := each rest in (ok, (name, c') :: out)
            | (_, Some c') => (false, [(name, c')])
            | (_, None) => (false, [])
            end
        end in
      let (ok, out) := each es in (ok, Some (Dir true out))
  end.

(** The state of the file system: what stands at [PLUGINS_DIR], if
    anything, and the tree standing at the home directory. The scan root
    and the install root are taken to be different places, neither inside
    the other: paths below [PLUGINS_DIR] are resolved in [plugins], paths
    below the home directory in [home].

    A directory lists its entries whether or not they can be reached:
    [stat_error] tells the paths below [PLUGINS_DIR] at which
    [fs.statSync] throws, and why. [plugins] is [None] when
    [fs.existsSync(PLUGINS_DIR)] is false. *)
Record fs : Type :=
  { plugins : option node;
    stat_error : str -> option stat_failure;
    home : node }.

Record skill : Type := { name : str; path : str; description : str }.

(** The four ways [handleInstallSkill] returns, and the failure of
    [mkdirSync]; [message] gives the text returned. *)
Inductive outcome : Type :=
| NotFound (skillName : str)
| AlreadyInstalled (skillName destDir : str)
| Installed (skillName destDir : str)
| MkdirError (e : exn)
| InstallError (e : exn).

(** The request of a tool call: [params.name] and [params.arguments];
    [skill_name] is [None] when the property is absent, or holds one of
    the other values line 225 takes for false ([null], [false], [0]).
    A value that passes line 225 is a string, as the input schema
    declares it. *)
Record request : Type :=
  { tool : str; arguments : option (option str) }.

Section Server.

(** [PLUGINS_DIR] (line 17), [os.homedir()], [String.prototype.localeCompare]
    and the text of an exception in a template literal. *)
Variable PLUGINS_DIR : str.
Variable HOME : str.
Variable localeCompare : str -> str -> Z.
Variable describe : exn -> str.

Definition getGeminiSkillsDir : str :=
  path_join (path_join HOME (lit ".gemini")) (lit "skills").

(** [walkSync] (lines 26-39) on a directory that exists: [n] is what
    stands at [dir]. [readdirSync] (line 29) fails on a file and on an
    unreadable directory. [statSync] (line 32) fails at the paths [stat]
    gives a failure for; where it returns, what it finds at [filepath]
    is the entry [child] itself ([walk_listed] below relates the paths to
    the tree). Nothing catches either exception. *)
Fixpoint walkSync (stat : str -> option stat_failure) (dir : str) (n : node)
         (filelist : list str) : result (list str) :=
  match n with
  | File _ _ => Throw ENOTDIR
  | Dir false _ => Throw EACCES
  | Dir true files =>
      let fix forEach (files : list (str * node)) (filelist : list str)
        : result (list str) :=
        match files with
        | [] => Ok filelist
        | (file, child) :: files' =>
            let filepath := path_join dir file in
            match stat filepath with
            | Some f => Throw (stat_exn f)
            | None =>
                match child with
                | Dir _ _ =>
                    match walkSync stat filepath child filelist with
                    | Ok filelist' => forEach files' filelist'
                    | Throw e => Throw e
                    end
                | File _ _ => forEach files' (filelist ++ [filepath])
                end
            end
        end in
      forEach files filelist
  end.

(** [fs.readFileSync(p, "utf-8")] below [PLUGINS_DIR]. *)
Definition readFileSync (st : fs) (p : str) : result str :=
  match resolve PLUGINS_DIR (plugins st) p with
  | None => Throw ENOENT
  | Some (Dir _ _) => Throw EACCES
  | Some (File false _) => Throw EACCES
  | Some (File true content) => Ok content
  end.

(** Lines 61-70: [finalParts] starts with the first part; every later
    part is pushed unless it equals the last element of [finalParts]. *)
Definition dedupe (filteredParts : list str) : list str :=
  match filteredParts with
  | [] => []
  | p0 :: rest =>
      fold_left
        (fun finalParts p =>
           if negb (str_eqb p (last finalParts [])) then finalParts ++ [p]
           else finalParts)
        rest [p0]
  end.

(** Lines 52-72. *)
Definition finalPartsOf (skillFile : str) : list str :=
  let root := dirname skillFile in
  let relPath := path_relative PLUGINS_DIR root in
  let parts := split_on SEP relPath in
  let filteredParts :=
    filter (fun p => negb (str_eqb p (lit "skills"))) parts in
  dedupe filteredParts.

(** The body of the loop of lines 51-118. *)
Definition skillOf (st : fs) (skillFile : str) : skill :=
  {| name := join (lit "-") (finalPartsOf skillFile);
     path := dirname skillFile;
     description := readDescription (readFileSync st skillFile) |}.

(** [Array.prototype.sort] with the comparator of line 121. The sort is
    stable (ECMAScript 2019); for a comparator that is a total preorder
    every stable sort gives the same array ([stable_sort_unique] below),
    here the one built by insertion. *)
Fixpoint insert (a : skill) (l : list skill) : list skill :=
  match l with
  | [] => [a]
  | b :: l' =>
      if (localeCompare (name a) (name b) <=? 0)%Z then a :: l
      else b :: insert a l'
  end.

Fixpoint sort (l : list skill) : list skill :=
  match l with
  | [] => []
  | a :: l' => insert a (sort l')
  end.

(** The skills in the order of discovery (lines 47-118). *)
Definition discover (st : fs) : result (list skill) :=
  match plugins st with
  | None => Ok []
  | Some n =>
      match walkSync (stat_error st) PLUGINS_DIR n [] with
      | Throw e => Throw e
      | Ok allFiles =>
          let skillFiles :=
            filter (fun f => str_eqb (basename f) (lit "SKILL.md")) allFiles in
          Ok (map (skillOf st) skillFiles)
      end
  end.

(** [findSkills] (lines 41-123). *)
Definition findSkills (st : fs) : result (list skill) :=
  match discover st with
  | Throw e => Throw e
  | Ok skills => Ok (sort skills)
  end.

(** [handleListSkills] (lines 125-138). *)
Definition handleListSkills (st : fs) : result str :=
  match findSkills st with
  | Throw e => Throw e
  | Ok skills =>
      if length skills =? 0
      then Ok (lit "No skills found in the plugins directory.")
      else
        Ok (join [LF]
              ((lit "# Available Skills" ++ [LF])
                 :: flat_map
                      (fun s => [lit "- **" ++ name s ++ lit "**:";
                                 lit "  " ++ description s])
                      skills))
  end.

(** The segments of a path below the home directory. *)
Definition home_path (p : str) : option (list str) :=
  match drop_common (segments HOME) (segments p) with
  | ([], down) => Some down
  | _ => None
  end.

(** [fs.existsSync(p)] below the home directory. *)
Definition existsSync (st : fs) (p : str) : bool :=
  is_some (resolve HOME (Some (home st)) p).

(** [fs.mkdirSync(p, { recursive: true })] below the home directory. *)
Definition mkdirSync (st : fs) (p : str) : result fs :=
  match home_path p with
  | None => Throw ENOENT
  | Some segs =>
      match mkdirp segs (Some (home st)) with
      | Ok h =>
          Ok {| plugins := plugins st; stat_error := stat_error st;
                home := h |}
      | Throw e => Throw e
      end
  end.

(** [fs.cpSync(src, dest, { recursive: true })] from below [PLUGINS_DIR]
    to a place below the home directory that does not exist yet or is
    an empty directory: the state afterwards and the exception, if any.
    The source and the way to the destination are checked before
    anything is written. *)
Definition cpSync (st : fs) (src dest : str) : fs * option exn :=
  match resolve PLUGINS_DIR (plugins st) src, home_path dest with
  | None, _ => (st, Some ENOENT)
  | _, None => (st, Some ENOENT)
  | Some n, Some segs =>
      match mkdirp (removelast segs) (Some (home st)) with
      | Throw e => (st, Some e)
      | Ok h =>
          match cp_tree n with
          | (ok, None) =>
              ({| plugins := plugins st; stat_error := stat_error st;
                  home := h |}, Some EACCES)
          | (ok, Some made) =>
              match put_at segs made (Some h) with
              | Throw e =>
                  ({| plugins := plugins st; stat_error := stat_error st;
                      home := h |}, Some e)
              | Ok h' =>
                  ({| plugins := plugins st; stat_error := stat_error st;
                     home := h' |},
                   if ok then None else Some EACCES)
              end
          end
      end
  end.

(** [handleInstallSkill] (lines 140-170): the outcome and the state of
    the file system afterwards. An exception of [findSkills] is not
    caught. *)
Definition handleInstallSkill (skillName : str) (st : fs)
  : result (outcome * fs) :=
  match findSkills st with
  | Throw e => Throw e
  | Ok skills =>
      match find (fun s => str_eqb (name s) skillName) skills with
      | None => Ok (NotFound skillName, st)
      | Some targetSkill =>
          let destBase := getGeminiSkillsDir in
          let destDir := path_join destBase skillName in
          if existsSync st destDir
          then Ok (AlreadyInstalled skillName destDir, st)
          else
            match (if negb (existsSync st destBase)
                   then mkdirSync st destBase else Ok st) with
            | Throw e => Ok (MkdirError e, st)
            | Ok st1 =>
                match cpSync st1 (path targetSkill) destDir with
                | (st2, None) => Ok (Installed skillName destDir, st2)
                | (st2, Some e) => Ok (InstallError e, st2)
                end
            end
      end
  end.

(** The text [handleInstallSkill] returns. *)
Definition message (o : outcome) : str :=
  match o with
  | NotFound skillName =>
      lit "Error: Skill '" ++ skillName ++ lit "' not found."
  | AlreadyInstalled skillName destDir =>
      lit "Skill '" ++ skillName ++ lit "' is already installed at "
        ++ destDir ++ lit "."
  | Installed skillName destDir =>
      lit "Successfully installed '" ++ skillName ++ lit "' to "
        ++ destDir ++ lit "."
  | MkdirError e => lit "Error creating skills directory: " ++ describe e
  | InstallError e => lit "Error installing skill: " ++ describe e
  end.

(** The handler of [CallToolRequestSchema] (lines 214-234): the text of
    the response and the state afterwards. *)
Definition callTool (req : request) (st : fs) : result (str * fs) :=
  if str_eqb (tool req) (lit "list_marketplace_skills") then
    match handleListSkills st with
    | Ok text => Ok (text, st)
    | Throw e => Throw e
    end
  else if str_eqb (tool req) (lit "install_marketplace_skill") then
    match arguments req with
    | None => Throw TypeError
    | Some skill_name =>
        match skill_name with
        | None => Throw (Error (lit "Missing required argument: skill_name"))
        | Some s =>
            if is_empty s
            then Throw (Error (lit "Missing required argument: skill_name"))
            else
              match handleInstallSkill s st with
              | Ok (o, st') => Ok (message o, st')
              | Throw e => Throw e
              end
        end
    end
  else Throw (Error (lit "Unknown tool: " ++ tool req)).

End Server.

(** ** Specification-side definitions *)

(** The collapse of adjacent duplicates in the words of the
    specification: walking the list from left to right, a segment is
    dropped when it is identical to the immediately preceding kept
    segment ([kept]). *)
Fixpoint collapse_from (kept : option str) (l : list str) : list str :=
  match l with
  | [] => []
  | s :: l' =>
      match kept with
      | Some k =>
          if str_eqb s k then collapse_from kept l'
          else s :: collapse_from (Some s) l'
      | None => s :: collapse_from (Some s) l'
      end
  end.

(** The segments of a derived name in the words of the specification:
    the relative path from the root to the directory of the marker, split
    on the separator, without the segments equal to ["skills"], adjacent
    duplicates collapsed. *)
Definition name_segments (root dir : str) : list str :=
  collapse_from None
    (filter (fun p => negb (str_eqb p (lit "skills")))
       (split_on SEP (path_relative root dir))).

(** No two neighbours of the list are identical. *)
Fixpoint no_adjacent_dup (l : list str) : Prop :=
  match l with
  | a :: l' =>
      match l' with
      | b :: _ => a <> b
      | [] => True
      end /\ no_adjacent_dup l'
  | [] => True
  end.

(** Induction on a tree together with the entries of its directories. *)
Fixpoint node_ind (P : node -> Prop)
    (HF : forall r c, P (File r c))
    (HD : forall r es, Forall (fun e => P (snd e)) es -> P (Dir r es))
    (n : node) {struct n} : P n :=
  match n with
  | File r c => HF r c
  | Dir r es =>
      HD r es
        ((fix all (es : list (str * node)) : Forall (fun e => P (snd e)) es :=
            match es with
            | [] => Forall_nil _
            | e :: es' => Forall_cons e (node_ind P HF HD (snd e)) (all es')
            end) es)
  end.

(** Every file and every directory of the tree can be read. *)
Fixpoint all_readable (n : node) : bool :=
  match n with
  | File r _ => r
  | Dir r es => r && forallb (fun e => all_readable (snd e)) es
  end.

(** Every directory of the tree can be read. *)
Fixpoint dirs_readable (n : node) : bool :=
  match n with
  | File _ _ => true
  | Dir r es => r && forallb (fun e => dirs_readable (snd e)) es
  end.

(** The paths of the entries of the tree, files and directories, as the
    walk forms them (line 31). *)
Fixpoint tree_paths (dir : str) (n : node) : list str :=
  match n with
  | File _ _ => []
  | Dir _ es =>
      flat_map
        (fun e =>
           path_join dir (fst e) :: tree_paths (path_join dir (fst e)) (snd e))
        es
  end.

(** [statSync] reaches every entry of the tree. *)
Definition reachable (stat : str -> option stat_failure) (dir : str)
           (n : node) : bool :=
  forallb (fun p => negb (is_some (stat p))) (tree_paths dir n).

(** A name of a directory entry: not empty, without the separator. *)
Definition valid_name (f : str) : bool :=
  negb (is_empty f) && negb (existsb (Ascii.eqb SEP) f).

Fixpoint valid_names (n : node) : bool :=
  match n with
  | File _ _ => true
  | Dir _ es =>
      forallb (fun e => valid_name (fst e) && valid_names (snd e)) es
  end.

(** The tree holds no marker file: no file named [SKILL.md]. *)
Fixpoint marker_free (n : node) : bool :=
  match n with
  | File _ _ => true
  | Dir _ es =>
      forallb
        (fun e =>
           match snd e with
           | File _ _ => negb (str_eqb (fst e) (lit "SKILL.md"))
           | Dir _ _ => marker_free (snd e)
           end) es
  end.

(** The segments of the installed-skills root below the home directory. *)
Definition BASE : list str := [lit ".gemini"; lit "skills"].

(** ** A small installation, used in the examples *)

(** A text of several lines, each but the last ended by a line feed. *)
Definition text (lines : list string) : str := join [LF] (map lit lines).

(** The comparison of two strings by their code units. *)
Fixpoint code_unit_compare (a b : str) : Z :=
  match a, b with
  | [], [] => 0
  | [], _ :: _ => -1
  | _ :: _, [] => 1
  | x :: a', y :: b' =>
      match Nat.compare (nat_of_ascii x) (nat_of_ascii y) with
      | Lt => -1
      | Gt => 1
      | Eq => code_unit_compare a' b'
      end
  end.

Definition ex_PLUGINS_DIR : str := lit "/ext/plugins".
Definition ex_HOME : str := lit "/home/user".

(** [statSync] reaches every path. *)
Definition no_stat_error (p : str) : option stat_failure := None.

Definition ex_marker : str :=
  text ["---"; "name: foo"; "description: Hello world"; "---"; "# Foo"]%string.

(** A skill directory with its marker file and one resource. *)
Definition ex_skill_dir : node :=
  Dir true [(lit "SKILL.md", File true ex_marker);
            (lit "resource.txt", File true (lit "some data"))].

(** [plugins/foo/skills/foo] holds the skill named [foo]. *)
Definition ex_plugins : node :=
  Dir true
    [(lit "foo", Dir true [(lit "skills", Dir true [(lit "foo", ex_skill_dir)])])].

Definition ex_state : fs :=
  {| plugins := Some ex_plugins; stat_error := no_stat_error;
     home := Dir true [] |}.


(** A scan root without marker file whose entry [link] is a symbolic link
    to a place that does not exist: the directory lists the entry, and
    [statSync] throws ENOENT at it. *)
Definition ex_state_dangling : fs :=
  {| plugins :=
       Some (Dir true [(lit "README.md", File true (lit "read me"));
                       (lit "link", File true [])]);
     stat_error :=
       fun p => if str_eqb p (lit "/ext/plugins/link") then Some Dangling
                else None;
     home := Dir true [] |}.

(** The scan root cannot be read. *)
Definition ex_state_unreadable : fs :=
  {| plugins := Some (Dir false []); stat_error := no_stat_error;
     home := Dir true [] |}.

(** A scan root with files and directories, none of them a marker. *)
Definition ex_state_no_marker : fs :=
  {| plugins :=
       Some (Dir true [(lit "README.md", File true (lit "read me"));
                       (lit "foo", Dir true [(lit "notes.txt", File false [])])]);
     stat_error := no_stat_error;
     home := Dir true [] |}.

(** [ex_state] after the skill [foo] has been installed. *)
Definition ex_state_installed : fs :=
  {| plugins := Some ex_plugins;
     stat_error := no_stat_error;
     home :=
       Dir true
         [(lit ".gemini",
           Dir true [(lit "skills", Dir true [(lit "foo", ex_skill_dir)])])] |}.

(** A marker file whose header holds the description [d]. *)
Definition marker_with (d : string) : str :=
  text ["---"; ("description: " ++ d); "---"; EmptyString]%string.

(** A scan root with three markers; two of them derive the name [alpha]. *)
Definition ex_state_many : fs :=
  {| plugins :=
       Some
         (Dir true
            [(lit "zeta",
              Dir true [(lit "SKILL.md", File true (marker_with "last"))]);
             (lit "alpha",
              Dir true
                [(lit "skills",
                  Dir true
                    [(lit "alpha",
                      Dir true
                        [(lit "SKILL.md", File true (marker_with "first"))])]);
                 (lit "alpha",
                  Dir true
                    [(lit "SKILL.md", File true (marker_with "second"))])])]);
     stat_error := no_stat_error;
     home := Dir true [] |}.

Definition ex_catalog_many : list skill :=
  match findSkills ex_PLUGINS_DIR code_unit_compare ex_state_many with
  | Ok catalog => catalog
  | Throw _ => []
  end.

(** The marker files the scan discovers (lines 48-49): the paths listed by
    the walk whose base name is [SKILL.md]. *)
Definition discovered (PLUGINS_DIR : str) (st : fs) (skillFile : str) : Prop :=
  exists n allFiles,
    plugins st = Some n /\
    walkSync (stat_error st) PLUGINS_DIR n [] = Ok allFiles /\
    In skillFile allFiles /\
    str_eqb (basename skillFile) (lit "SKILL.md") = true.

Definition INSTALL_TOOL : str := lit "install_marketplace_skill".
Definition MISSING_ARGUMENT : exn :=
  Error (lit "Missing required argument: skill_name").

(** An install request whose [skill_name] is the empty string. *)
Definition ex_request_empty : request :=
  {| tool := INSTALL_TOOL; arguments := Some (Some []) |}.

Definition ex_describe (e : exn) : str := lit "error".

(** ** The header of a marker file, in the words of the specification *)

Definition DELIM : str := lit "---".
Definition KEY : str := lit "description:".

(** [match[1]] of line 79: the header block the code recognizes. *)
Definition header_of (content : str) : option str :=
  match exec re_frontmatter content with
  | Some m => get_cap 1 m
  | None => None
  end.

(** The content has a closing delimiter: after the opening [---], a line
    that consists of [---] and white space and is ended by a line feed. *)
Definition has_closing (content : str) : Prop :=
  exists a w b,
    content = DELIM ++ a ++ LF :: DELIM ++ w ++ LF :: b /\
    Forall (fun c => is_space c = true) w.

(** No line of the text begins with [description:]; a line begins at the
    start of the text and after every line terminator. [bol] tells whether
    the text itself starts at the beginning of a line. *)
Fixpoint key_free_from (bol : bool) (s : str) : bool :=
  match s with
  | [] => true
  | c :: s' =>
      negb (bol && startsWith KEY s)
      && key_free_from (is_line_terminator c) s'
  end.

Definition key_free (s : str) : bool := key_free_from true s.

(** Marker files with a defective header. *)
Definition ex_marker_leading : str :=
  text [EmptyString; "---"; "description: Hello world"; "---"; EmptyString]%string.

Definition ex_marker_unclosed : str :=
  text ["---"; "description: Hello world"; "---"]%string.

Definition ex_marker_no_key : str :=
  text ["---"; "name: foo"; "summary: Hello world"; "---"; "description: body"]%string.

(** A scan root whose only marker file cannot be read. *)
Definition ex_state_secret : fs :=
  {| plugins :=
       Some (Dir true [(lit "foo", Dir true [(lit "SKILL.md", File false ex_marker)])]);
     stat_error := no_stat_error;
     home := Dir true [] |}.

(** A line of white space only. *)
Definition is_blank (l : str) : bool := forallb is_space l.

(** The continuation lines of a folded value as C4 states them: the lines
    indented by two spaces, up to the first line that is blank or not
    indented, each trimmed. *)
Fixpoint claimed_continuation (after : list str) : list str :=
  match after with
  | [] => []
  | l :: rest =>
      if is_blank l || negb (startsWith (lit "  ") l) then []
      else trim l :: claimed_continuation rest
  end.

(** The continuation lines as the loop of lines 89-102 takes them: blank
    lines are passed over, lines indented by two spaces are taken, each
    trimmed, up to the first line that is neither. *)
Fixpoint continuation (after : list str) : list str :=
  match after with
  | [] => []
  | l :: rest =>
      if is_blank l then continuation rest
      else if startsWith (lit "  ") l then trim l :: continuation rest
      else []
  end.

(** The text starts with a character that is not white space. *)
Definition starts_with_text (s : str) : bool :=
  match s with
  | c :: _ => negb (is_space c)
  | [] => false
  end.

(** The content of a marker file with the header lines [lines] and the
    body [body]. *)
Definition marker_of (lines : list str) (body : str) : str :=
  DELIM ++ LF :: join [LF] lines ++ LF :: DELIM ++ LF :: body.

(** The character before the position after the literal [w]. *)
Fixpoint last_prev (w : str) (prev : option ascii) : option ascii :=
  match w with
  | [] => prev
  | x :: w' => last_prev w' (Some x)
  end.

(** The input stops the repetition of [cls]: it is empty or starts with a
    character outside [cls]. *)
Definition stops (cls : ascii -> bool) (s : str) : Prop :=
  match s with
  | [] => True
  | c :: _ => cls c = false
  end.

(** The lines [ls] as a text, each ended by a line feed. *)
Definition flat_lines (ls : list str) : str :=
  concat (map (fun l => l ++ [LF]) ls).

(** What follows a line in a text when the lines [after] come after it. *)
Definition rest_text (after : list str) : str :=
  match after with
  | [] => []
  | _ :: _ => LF :: join [LF] after
  end.

(** A marker file with a folded description that holds a blank line. *)
Definition ex_folded_before : list str := [lit "name: foo"].
Definition ex_folded_after : list str :=
  [lit "  line one"; []; lit "  line two"; lit "license: MIT"].
Definition ex_marker_folded : str :=
  marker_of (ex_folded_before ++ (KEY ++ lit " >") :: ex_folded_after)
    (lit "# Foo").

(** ** The invariants of a file system tree and of a sorted array *)

(** The names of a directory listing are pairwise different. *)
Fixpoint distinct (l : list str) : bool :=
  match l with
  | [] => true
  | x :: l' => negb (existsb (str_eqb x) l') && distinct l'
  end.

(** A tree as a file system holds it: in every directory the names are
    names of directory entries and pairwise different. *)
Fixpoint well_formed (n : node) : bool :=
  match n with
  | File _ _ => true
  | Dir _ es =>
      distinct (map fst es)
      && forallb (fun e => valid_name (fst e) && well_formed (snd e)) es
  end.

(** A path the walk lists: [dir], then names of the tree that lead to a
    file. *)
Definition listed (dir : str) (n : node) (f : str) : Prop :=
  exists names r c,
    f = dir ++ SEP :: join [SEP] names /\
    names <> [] /\
    Forall (fun x => x <> [] /\ ~ In SEP x) names /\
    lookup_path n names = Some (File r c).

(** The entries whose name the comparator takes for equal to [n]. *)
Definition same_rank (localeCompare : str -> str -> Z) (n : str) (s : skill)
  : bool :=
  ((localeCompare (name s) n <=? 0) && (localeCompare n (name s) <=? 0))%Z.

(** ** The walk, the listing and the tools, for the further properties *)

(** The paths of the files below [n], directory by directory in the order
    of the listings, the content of each directory where its entry
    stands. *)
Fixpoint tree_files (dir : str) (n : node) : list str :=
  match n with
  | File _ _ => []
  | Dir _ es =>
      flat_map
        (fun e =>
           match snd e with
           | File _ _ => [path_join dir (fst e)]
           | Dir _ _ => tree_files (path_join dir (fst e)) (snd e)
           end) es
  end.

(** The loop [files.forEach] of [walkSync] (lines 30-37) as a function of
    its own. *)
Fixpoint walkEntries (stat : str -> option stat_failure) (dir : str)
         (files : list (str * node)) (filelist : list str)
  : result (list str) :=
  match files with
  | [] => Ok filelist
  | (file, child) :: files' =>
      match stat (path_join dir file) with
      | Some f => Throw (stat_exn f)
      | None =>
          match child with
          | Dir _ _ =>
              match walkSync stat (path_join dir file) child filelist with
              | Ok filelist' => walkEntries stat dir files' filelist'
              | Throw e => Throw e
              end
          | File _ _ =>
              walkEntries stat dir files' (filelist ++ [path_join dir file])
          end
      end
  end.

(** The marker files below the scan root, in the order of the walk
    (line 49 on the files of the tree). *)
Definition marker_files (PLUGINS_DIR : str) (n : node) : list str :=
  filter (fun f => str_eqb (basename f) (lit "SKILL.md"))
    (tree_files PLUGINS_DIR n).

(** The two lines [handleListSkills] pushes for a skill (lines 134-135). *)
Definition listing_lines (s : skill) : list str :=
  [lit "- **" ++ name s ++ lit "**:"; lit "  " ++ description s].

(** What stands at [p] in a tree that may be absent. *)
Definition lookup_opt (t : option node) (p : list str) : option node :=
  match t with
  | Some n => lookup_path n p
  | None => None
  end.

(** The string does not begin with white space. *)
Definition no_lead (s : str) : Prop :=
  match s with
  | [] => True
  | c :: _ => is_space c = false
  end.

(** The string neither begins nor ends with white space. *)
Definition tight (s : str) : Prop := no_lead s /\ no_lead (rev s).

(** The [return] statement of [handleInstallSkill] that produces an
    outcome. *)
Definition outcome_line (o : outcome) : nat :=
  match o with
  | NotFound _ => 145
  | AlreadyInstalled _ _ => 152
  | MkdirError _ => 160
  | Installed _ _ => 166
  | InstallError _ => 168
  end.

(** A tool as the handler of [ListToolsRequestSchema] describes it
    (lines 185-212): its name, its description, the properties of its
    input, each with type and description, and the required ones. *)
Record tool_info : Type :=
  { tool_name : str;
    tool_description : str;
    tool_properties : list (str * (str * str));
    tool_required : list str }.

Definition listTools : list tool_info :=
  [ {| tool_name := lit "list_marketplace_skills";
       tool_description := lit "List all available skills in the marketplace.";
       tool_properties := [];
       tool_required := [] |};
    {| tool_name := lit "install_marketplace_skill";
       tool_description := lit "Install a skill from the marketplace.";
       tool_properties :=
         [(lit "skill_name", (lit "string", lit "Name of the skill to install"))];
       tool_required := [lit "skill_name"] |} ].

(** A request for the listing. *)
Definition ex_request_list : request :=
  {| tool := lit "list_marketplace_skills"; arguments := None |}.

(** A request to install the skill [foo], and the names that lead from the
    scan root of [ex_state] to its directory. *)
Definition ex_request_foo : request :=
  {| tool := INSTALL_TOOL; arguments := Some (Some (lit "foo")) |}.

Definition ex_names_foo : list str := [lit "foo"; lit "skills"; lit "foo"].

(** * Facts *)

(** ** Strings *)

Lemma str_eqb_eq (a b : str) : str_eqb a b = true <-> a = b.
Proof.
  revert b; induction a as [|x a IH]; intros [|y b]; simpl; split;
    try congruence; try reflexivity.
  - intros H. apply andb_true_iff in H as [H1 H2].
    apply Ascii.eqb_eq in H1. apply IH in H2. congruence.
  - intros H. injection H as -> ->. apply andb_true_iff. split.
    + apply Ascii.eqb_refl.
    + now apply IH.
Qed.

Lemma str_eqb_refl (a : str) : str_eqb a a = true.
Proof. now apply str_eqb_eq. Qed.

Lemma str_eqb_neq (a b : str) : str_eqb a b = false <-> a <> b.
Proof.
  split.
  - intros H E. apply str_eqb_eq in E. congruence.
  - intros H. destruct (str_eqb a b) eqn:E; [|reflexivity].
    apply str_eqb_eq in E. contradiction.
Qed.

(** ** The derived name *)

Lemma dedupe_loop (rest acc : list str) (x : str) :
  fold_left
    (fun finalParts p =>
       if negb (str_eqb p (last finalParts [])) then finalParts ++ [p]
       else finalParts)
    rest (acc ++ [x])
  = acc ++ x :: collapse_from (Some x) rest.
Proof.
  revert acc x. induction rest as [|p rest IH]; intros acc x; simpl.
  - reflexivity.
  - rewrite last_last. destruct (str_eqb p x) eqn:E; simpl.
    + apply IH.
    + rewrite IH. now rewrite <- app_assoc.
Qed.

Lemma dedupe_collapse (l : list str) : dedupe l = collapse_from None l.
Proof.
  destruct l as [|p0 rest]; [reflexivity|].
  unfold dedupe. exact (dedupe_loop rest [] p0).
Qed.

Lemma collapse_from_In (kept : option str) (l : list str) (s : str) :
  In s (collapse_from kept l) -> In s l.
Proof.
  revert kept. induction l as [|a l IH]; intros kept; simpl; [tauto|].
  destruct kept as [k|].
  - destruct (str_eqb a k).
    + intros H. right. eapply IH, H.
    + intros [H|H]; [now left|]. right. eapply IH, H.
  - intros [H|H]; [now left|]. right. eapply IH, H.
Qed.

Lemma collapse_from_head (k : str) (l : list str) :
  match collapse_from (Some k) l with
  | b :: _ => k <> b
  | [] => True
  end.
Proof.
  induction l as [|a l IH]; simpl; [exact I|].
  destruct (str_eqb a k) eqn:E; [exact IH|].
  apply str_eqb_neq in E. congruence.
Qed.

Lemma collapse_from_no_adjacent_dup (kept : option str) (l : list str) :
  no_adjacent_dup (collapse_from kept l).
Proof.
  revert kept. induction l as [|a l IH]; intros kept; simpl; [exact I|].
  assert (H : no_adjacent_dup (a :: collapse_from (Some a) l)).
  { simpl. split; [apply collapse_from_head | apply IH]. }
  destruct kept as [k|]; [|exact H].
  destruct (str_eqb a k); [apply IH | exact H].
Qed.

Lemma name_segments_no_skills (root dir : str) :
  ~ In (lit "skills") (name_segments root dir).
Proof.
  unfold name_segments. intros H. apply collapse_from_In in H.
  apply filter_In in H as [_ H]. now rewrite str_eqb_refl in H.
Qed.

Lemma finalPartsOf_spec (root skillFile : str) :
  finalPartsOf root skillFile = name_segments root (dirname skillFile).
Proof. unfold finalPartsOf. apply dedupe_collapse. Qed.

(** ** The sort of the catalog *)

Section SortFacts.

Variable localeCompare : str -> str -> Z.

Let le (a b : skill) : Prop := (localeCompare (name a) (name b) <= 0)%Z.

Lemma insert_perm (a : skill) (l : list skill) :
  Permutation (a :: l) (insert localeCompare a l).
Proof.
  induction l as [|b l IH]; simpl; [apply Permutation_refl|].
  destruct (localeCompare (name a) (name b) <=? 0)%Z.
  - apply Permutation_refl.
  - eapply perm_trans; [apply perm_swap|]. now apply perm_skip.
Qed.

Lemma sort_perm (l : list skill) : Permutation l (sort localeCompare l).
Proof.
  induction l as [|a l IH]; simpl; [apply perm_nil|].
  eapply perm_trans; [apply perm_skip, IH | apply insert_perm].
Qed.

Lemma sort_In (l : list skill) (s : skill) :
  In s (sort localeCompare l) <-> In s l.
Proof.
  split; apply Permutation_in;
    [apply Permutation_sym|]; apply sort_perm.
Qed.

Lemma sort_length (l : list skill) :
  length (sort localeCompare l) = length l.
Proof. symmetry. apply Permutation_length, sort_perm. Qed.

Hypothesis cmp_total :
  forall a b, (0 < localeCompare a b)%Z -> (localeCompare b a <= 0)%Z.
Hypothesis cmp_refl : forall a, localeCompare a a = 0%Z.
Hypothesis cmp_trans :
  forall a b c, (localeCompare a b <= 0)%Z -> (localeCompare b c <= 0)%Z ->
                (localeCompare a c <= 0)%Z.

Lemma insert_sorted (a : skill) (l : list skill) :
  StronglySorted le l -> StronglySorted le (insert localeCompare a l).
Proof.
  induction 1 as [|b l Hl IH Hb]; simpl.
  - constructor; constructor.
  - destruct (localeCompare (name a) (name b) <=? 0)%Z eqn:E.
    + apply Z.leb_le in E. constructor.
      * now constructor.
      * constructor; [exact E|].
        rewrite Forall_forall in *. intros c Hc.
        eapply cmp_trans; [exact E | now apply Hb].
    + apply Z.leb_gt in E. constructor; [exact IH|].
      rewrite Forall_forall in *. intros c Hc.
      apply (Permutation_in _ (Permutation_sym (insert_perm a l))) in Hc.
      destruct Hc as [<-|Hc]; [now apply cmp_total | now apply Hb].
Qed.

Lemma sort_sorted (l : list skill) :
  StronglySorted le (sort localeCompare l).
Proof.
  induction l as [|a l IH]; simpl; [constructor | now apply insert_sorted].
Qed.

Lemma insert_stable (n : str) (a : skill) (l : list skill) :
  filter (fun s => str_eqb (name s) n) (insert localeCompare a l)
  = filter (fun s => str_eqb (name s) n) (a :: l).
Proof.
  induction l as [|b l IH]; [reflexivity|].
  cbn [insert].
  destruct (localeCompare (name a) (name b) <=? 0)%Z eqn:E; [reflexivity|].
  apply Z.leb_gt in E.
  cbn [filter] in *. rewrite IH.
  destruct (str_eqb (name a) n) eqn:Ea, (str_eqb (name b) n) eqn:Eb;
    try reflexivity.
  apply str_eqb_eq in Ea, Eb. rewrite Ea, Eb, cmp_refl in E. lia.
Qed.

Lemma sort_stable (n : str) (l : list skill) :
  filter (fun s => str_eqb (name s) n) (sort localeCompare l)
  = filter (fun s => str_eqb (name s) n) l.
Proof.
  induction l as [|a l IH]; [reflexivity|].
  cbn [sort]. rewrite insert_stable. cbn [filter]. now rewrite IH.
Qed.

Local Abbreviation rank := (same_rank localeCompare).

Lemma cmp_le_refl (a : str) : (localeCompare a a <= 0)%Z.
Proof.
  destruct (Z.leb_spec (localeCompare a a) 0) as [H|H]; [exact H|].
  now apply cmp_total.
Qed.

Lemma rank_self (s : skill) : rank (name s) s = true.
Proof.
  unfold same_rank. apply andb_true_iff.
  split; apply Z.leb_le, cmp_le_refl.
Qed.

Lemma insert_rank (n : str) (a : skill) (l : list skill) :
  filter (rank n) (insert localeCompare a l) = filter (rank n) (a :: l).
Proof.
  induction l as [|b l IH]; [reflexivity|]. cbn [insert].
  destruct (localeCompare (name a) (name b) <=? 0)%Z eqn:E; [reflexivity|].
  apply Z.leb_gt in E. cbn [filter] in *. rewrite IH.
  destruct (rank n a) eqn:Ea, (rank n b) eqn:Eb; try reflexivity.
  unfold same_rank in Ea, Eb.
  apply andb_true_iff in Ea as [Ea _]. apply andb_true_iff in Eb as [_ Eb].
  apply Z.leb_le in Ea, Eb. pose proof (cmp_trans _ _ _ Ea Eb). lia.
Qed.

(** The sort keeps the entries of one rank in their order. *)
Lemma sort_rank (n : str) (l : list skill) :
  filter (rank n) (sort localeCompare l) = filter (rank n) l.
Proof.
  induction l as [|a l IH]; [reflexivity|].
  cbn [sort]. rewrite insert_rank. cbn [filter]. now rewrite IH.
Qed.

(** Two sorted arrays with the same entries of every rank, in the same
    order, are the same array. *)
Lemma sorted_ranks_unique (A : list skill) :
  forall B,
    StronglySorted le A -> StronglySorted le B ->
    (forall n, filter (rank n) A = filter (rank n) B) ->
    A = B.
Proof.
  induction A as [|a A IH]; intros B HA HB Hf.
  - destruct B as [|b B]; [reflexivity|].
    specialize (Hf (name b)). cbn [filter] in Hf.
    rewrite rank_self in Hf. discriminate.
  - destruct B as [|b B].
    + specialize (Hf (name a)). cbn [filter] in Hf.
      rewrite rank_self in Hf. discriminate.
    + inversion HA as [|? ? HA' HaA]; subst.
      inversion HB as [|? ? HB' HbB]; subst.
      assert (Eab : b = a).
      { assert (HaB : In a (b :: B)).
        { apply (proj1 (filter_In (rank (name a)) a (b :: B))).
          rewrite <- (Hf (name a)). cbn [filter]. rewrite rank_self. now left. }
        assert (HbA : In b (a :: A)).
        { apply (proj1 (filter_In (rank (name b)) b (a :: A))).
          rewrite (Hf (name b)). cbn [filter]. rewrite rank_self. now left. }
        destruct HaB as [E|HaB]; [exact E|].
        destruct HbA as [E|HbA]; [now symmetry|].
        rewrite Forall_forall in HaA, HbB.
        pose proof (HaA b HbA) as Hab. pose proof (HbB a HaB) as Hba.
        pose proof (Hf (name a)) as Ha. cbn [filter] in Ha.
        rewrite rank_self in Ha.
        assert (Eb : rank (name a) b = true).
        { unfold same_rank. apply andb_true_iff.
          split; now apply Z.leb_le. }
        rewrite Eb in Ha. now injection Ha. }
      subst b. f_equal. apply IH; try assumption.
      intros n. specialize (Hf n). cbn [filter] in Hf.
      destruct (rank n a); [now injection Hf | exact Hf].
Qed.

(** Every sorted array that keeps the entries of each rank in the order of
    [l] is the array [sort] returns: a stable sort has one result. *)
Lemma stable_sort_unique (l B : list skill) :
  StronglySorted le B ->
  (forall n, filter (rank n) B = filter (rank n) l) ->
  B = sort localeCompare l.
Proof.
  intros HB Hf. apply sorted_ranks_unique; [exact HB | apply sort_sorted |].
  intros n. now rewrite sort_rank.
Qed.

End SortFacts.

(** ** Splitting and joining *)

Lemma split_on_not_nil (sep : ascii) (s : str) : split_on sep s <> [].
Proof.
  destruct s as [|c s]; simpl; [discriminate|].
  destruct (Ascii.eqb c sep); [discriminate|].
  destruct (split_on sep s); discriminate.
Qed.

Lemma split_on_no_sep (sep : ascii) (w : str) :
  ~ In sep w -> split_on sep w = [w].
Proof.
  induction w as [|c w IH]; simpl; intros H; [reflexivity|].
  destruct (Ascii.eqb c sep) eqn:E.
  - apply Ascii.eqb_eq in E. exfalso. apply H. left. congruence.
  - rewrite IH; [reflexivity|]. intros Hin. apply H. now right.
Qed.

Lemma split_on_app (sep : ascii) (a b : str) :
  split_on sep (a ++ sep :: b) = split_on sep a ++ split_on sep b.
Proof.
  induction a as [|c a IH]; simpl.
  - now rewrite Ascii.eqb_refl.
  - destruct (Ascii.eqb c sep); [now rewrite IH|].
    rewrite IH. destruct (split_on sep a) eqn:E; [|reflexivity].
    now apply split_on_not_nil in E.
Qed.

Lemma split_on_parts_no_sep (sep : ascii) (s w : str) :
  In w (split_on sep s) -> ~ In sep w.
Proof.
  revert w. induction s as [|c s IH]; simpl; intros w H.
  - destruct H as [<-|[]]. intros [].
  - destruct (Ascii.eqb c sep) eqn:E.
    + destruct H as [<-|H]; [intros [] | now apply IH].
    + destruct (split_on sep s) as [|v vs] eqn:Es.
      * now apply split_on_not_nil in Es.
      * destruct H as [<-|H].
        -- intros [->|Hin]; [now rewrite Ascii.eqb_refl in E|].
           revert Hin. apply IH. now left.
        -- apply IH. now right.
Qed.

Lemma split_on_join (sep : ascii) (l : list str) :
  l <> [] -> Forall (fun w => ~ In sep w) l ->
  split_on sep (join [sep] l) = l.
Proof.
  induction l as [|w l IH]; intros Hne Hall; [contradiction|].
  inversion Hall as [|? ? Hw Hl]; subst.
  destruct l as [|v l].
  - simpl. now apply split_on_no_sep.
  - change (join [sep] (w :: v :: l)) with (w ++ sep :: join [sep] (v :: l)).
    rewrite split_on_app, split_on_no_sep by assumption.
    simpl. f_equal. apply IH; [discriminate | assumption].
Qed.

Lemma join_In (sep : str) (l : list str) (c : ascii) :
  In c (join sep l) -> In c sep \/ exists w, In w l /\ In c w.
Proof.
  induction l as [|w l IH]; simpl; [tauto|].
  destruct l as [|v l].
  - intros H. right. exists w. auto.
  - intros H. apply in_app_or in H as [H|H].
    + right. exists w. auto.
    + apply in_app_or in H as [H|H]; [now left|].
      destruct (IH H) as [H'|[u [Hu Hc]]]; [now left|].
      right. exists u. split; [now right | assumption].
Qed.

Lemma segments_app (a b : str) :
  segments (a ++ SEP :: b) = segments a ++ segments b.
Proof. unfold segments. now rewrite split_on_app, filter_app. Qed.

Lemma segments_no_sep (w : str) :
  w <> [] -> ~ In SEP w -> segments w = [w].
Proof.
  intros Hne Hw. unfold segments. rewrite split_on_no_sep by assumption.
  destruct w; [contradiction | reflexivity].
Qed.

Lemma drop_common_app (l r : list str) : drop_common l (l ++ r) = ([], r).
Proof.
  induction l as [|x l IH]; simpl.
  - now destruct r.
  - now rewrite str_eqb_refl.
Qed.

Lemma drop_common_refl (l : list str) : drop_common l l = ([], []).
Proof. rewrite <- (app_nil_r l) at 2. apply drop_common_app. Qed.

(** The parts of a relative path never hold the separator. *)
Lemma relative_parts_no_sep (from to w : str) :
  In w (split_on SEP (path_relative from to)) -> ~ In SEP w.
Proof. apply split_on_parts_no_sep. Qed.

Lemma basename_join (dir file : str) :
  file <> [] -> ~ In SEP file -> basename (path_join dir file) = file.
Proof.
  intros Hne Hf. unfold basename, path_join.
  destruct file as [|c f]; [contradiction|]. cbn [is_empty].
  rewrite split_on_app, (split_on_no_sep _ _ Hf). apply last_last.
Qed.

(** Below the root, the relative path is what was appended to the root:
    the parts are the names of the directories on the way. *)
Lemma relative_below (root : str) (names : list str) :
  names <> [] ->
  Forall (fun f => f <> [] /\ ~ In SEP f) names ->
  split_on SEP (path_relative root (root ++ SEP :: join [SEP] names)) = names.
Proof.
  intros Hne Hnames.
  assert (Hsep : Forall (fun w => ~ In SEP w) names).
  { eapply Forall_impl; [|exact Hnames]. now intros f [_ H]. }
  unfold path_relative. rewrite segments_app.
  assert (E : segments (join [SEP] names) = names).
  { unfold segments. rewrite split_on_join by assumption.
    apply forallb_filter_id. apply forallb_forall. intros f Hf.
    rewrite Forall_forall in Hnames. destruct (Hnames f Hf) as [Hf' _].
    now destruct f. }
  rewrite E, drop_common_app. cbn [map app].
  now apply split_on_join.
Qed.

(** ** The names of the catalog *)

Lemma finalPartsOf_no_sep (root skillFile w : str) :
  In w (finalPartsOf root skillFile) -> ~ In SEP w.
Proof.
  rewrite finalPartsOf_spec. unfold name_segments. intros H.
  apply collapse_from_In in H. apply filter_In in H as [H _].
  now apply relative_parts_no_sep in H.
Qed.

Lemma skill_name_no_sep (root : str) (st : fs) (skillFile : str) :
  ~ In SEP (name (skillOf root st skillFile)).
Proof.
  cbn [name skillOf]. intros H. apply join_In in H as [H|[w [Hw Hc]]].
  - cbv in H. intuition discriminate.
  - now apply finalPartsOf_no_sep in Hw.
Qed.

(** ** The walk *)

Lemma valid_name_spec (f : str) :
  valid_name f = true -> f <> [] /\ ~ In SEP f.
Proof.
  unfold valid_name. intros H. apply andb_true_iff in H as [H1 H2]. split.
  - intros ->. discriminate.
  - intros Hin. apply negb_true_iff in H2.
    assert (E : existsb (Ascii.eqb SEP) f = true).
    { apply existsb_exists. exists SEP. split; [assumption|].
      apply Ascii.eqb_refl. }
    congruence.
Qed.

(** [statSync] reaches the entries of a directory when it reaches the
    first, what stands below it, and the others. *)
Lemma reachable_cons (stat : str -> option stat_failure) (dir : str) (r : bool)
      (file : str) (child : node) (es : list (str * node)) :
  reachable stat dir (Dir r ((file, child) :: es)) =
  negb (is_some (stat (path_join dir file)))
  && reachable stat (path_join dir file) child
  && reachable stat dir (Dir r es).
Proof.
  unfold reachable. cbn [tree_paths flat_map fst snd].
  cbn [app forallb]. now rewrite forallb_app, andb_assoc.
Qed.

Lemma reachable_step (stat : str -> option stat_failure) (dir : str) (r : bool)
      (file : str) (child : node) (es : list (str * node)) :
  reachable stat dir (Dir r ((file, child) :: es)) = true ->
  stat (path_join dir file) = None /\
  reachable stat (path_join dir file) child = true /\
  reachable stat dir (Dir r es) = true.
Proof.
  rewrite reachable_cons. intros H.
  apply andb_true_iff in H as [H H3]. apply andb_true_iff in H as [H1 H2].
  repeat split; try assumption.
  now destruct (stat (path_join dir file)).
Qed.

(** On a tree whose directories can all be read and whose entries can all
    be reached the walk returns, and on a tree without marker files it
    lists no path named [SKILL.md]. *)
Lemma walk_marker_free (stat : str -> option stat_failure) (n : node) :
  forall dir filelist r es,
    n = Dir r es ->
    dirs_readable n = true -> reachable stat dir n = true ->
    valid_names n = true -> marker_free n = true ->
    exists out,
      walkSync stat dir n filelist = Ok (filelist ++ out) /\
      Forall (fun f => str_eqb (basename f) (lit "SKILL.md") = false) out.
Proof.
  induction n as [r0 c0 | r0 es0 IH] using node_ind;
    intros dir filelist r es Hn Hr Hs Hv Hm; [discriminate|].
  clear Hn r es. cbn [dirs_readable] in Hr.
  apply andb_true_iff in Hr as [-> Hr].
  cbn [valid_names marker_free] in Hv, Hm. cbn [walkSync].
  revert filelist.
  induction es0 as [|[file child] es IHes]; intros filelist.
  - exists []. split; [now rewrite app_nil_r | constructor].
  - inversion IH as [|? ? IHc IHrest]; subst. cbn [snd] in IHc.
    cbn [forallb fst snd] in Hr, Hv, Hm.
    apply andb_true_iff in Hr as [Hrc Hr].
    apply andb_true_iff in Hv as [Hvc Hv].
    apply andb_true_iff in Hvc as [Hvn Hvc].
    apply andb_true_iff in Hm as [Hmc Hm].
    apply reachable_step in Hs as [Hs1 [Hsc Hs]].
    specialize (IHes IHrest).
    repeat match type of IHes with
           | (_ = true) -> _ => specialize (IHes ltac:(assumption))
           end.
    rewrite Hs1.
    destruct child as [rc cc | rc ces].
    + destruct (IHes (filelist ++ [path_join dir file])) as [out [E Hout]].
      exists (path_join dir file :: out). split.
      * rewrite E. now rewrite <- app_assoc.
      * constructor; [|exact Hout].
        apply valid_name_spec in Hvn as [Hne Hsep].
        rewrite basename_join by assumption.
        now apply negb_true_iff in Hmc.
    + destruct (IHc (path_join dir file) filelist rc ces eq_refl Hrc Hsc Hvc Hmc)
        as [out1 [E1 Hout1]].
      rewrite E1.
      destruct (IHes (filelist ++ out1)) as [out2 [E2 Hout2]].
      exists (out1 ++ out2). split.
      * rewrite E2. now rewrite <- app_assoc.
      * apply Forall_app. now split.
Qed.

Lemma walkSync_dir (stat : str -> option stat_failure) (dir : str)
      (es : list (str * node)) :
  forall filelist,
    walkSync stat dir (Dir true es) filelist
    = walkEntries stat dir es filelist.
Proof.
  cbn [walkSync]. induction es as [|[file child] es IH]; intros filelist;
    [reflexivity|].
  cbn [walkEntries]. destruct (stat (path_join dir file)); [reflexivity|].
  destruct child as [rc cc | rc ces]; [apply IH|].
  destruct (walkSync stat (path_join dir file) (Dir rc ces) filelist);
    [apply IH | reflexivity].
Qed.

(** The walk of a directory whose directories can be read and whose
    entries can be reached appends the files of the tree. *)
Lemma walk_tree_files (stat : str -> option stat_failure) (n : node) :
  forall dir filelist r es,
    n = Dir r es ->
    dirs_readable n = true -> reachable stat dir n = true ->
    walkSync stat dir n filelist = Ok (filelist ++ tree_files dir n).
Proof.
  induction n as [r0 c0 | r0 es0 IH] using node_ind;
    intros dir filelist r es Hn Hr Hs; [discriminate|]. clear Hn r es.
  cbn [dirs_readable] in Hr. apply andb_true_iff in Hr as [-> Hr].
  rewrite walkSync_dir. cbn [tree_files].
  revert filelist. induction es0 as [|[file child] es IHes]; intros filelist.
  - cbn. now rewrite app_nil_r.
  - inversion IH as [|? ? IHc IHrest]; subst. cbn [snd] in IHc.
    cbn [forallb snd] in Hr. apply andb_true_iff in Hr as [Hrc Hr].
    apply reachable_step in Hs as [Hs1 [Hsc Hs]].
    specialize (IHes IHrest Hr Hs).
    cbn [walkEntries flat_map fst snd]. rewrite Hs1.
    destruct child as [rc cc | rc ces].
    + rewrite IHes. now rewrite <- app_assoc.
    + rewrite (IHc (path_join dir file) filelist rc ces eq_refl Hrc Hsc).
      rewrite IHes. now rewrite <- app_assoc.
Qed.

(** A walk that returns has read every directory and reached every
    entry. *)
Lemma walk_ok_inv (stat : str -> option stat_failure) (n : node) :
  forall dir filelist out r es,
    n = Dir r es ->
    walkSync stat dir n filelist = Ok out ->
    dirs_readable n = true /\ reachable stat dir n = true.
Proof.
  induction n as [r0 c0 | r0 es0 IH] using node_ind;
    intros dir filelist out r es Hn; [discriminate|]. clear Hn r es.
  destruct r0; [|discriminate]. rewrite walkSync_dir.
  cbn [dirs_readable andb].
  revert filelist. induction es0 as [|[file child] es IHes]; intros filelist.
  - intros _. now split.
  - inversion IH as [|? ? IHc IHrest]; subst. cbn [snd] in IHc.
    specialize (IHes IHrest).
    cbn [walkEntries forallb snd]. rewrite reachable_cons.
    destruct (stat (path_join dir file)); [discriminate|].
    destruct child as [rc cc | rc ces].
    + intros H. destruct (IHes _ H) as [H1 H2].
      cbn [dirs_readable is_some negb andb]. rewrite H2. now split.
    + destruct (walkSync stat (path_join dir file) (Dir rc ces) filelist)
        as [fl'|e] eqn:Ew; [|discriminate].
      destruct (IHc _ _ _ rc ces eq_refl Ew) as [Hc1 Hc2].
      intros H. destruct (IHes _ H) as [H1 H2].
      rewrite Hc1, Hc2, H1, H2. now split.
Qed.

(** A walk that throws has met a directory that cannot be read or an
    entry that cannot be reached. *)
Lemma walk_throw (stat : str -> option stat_failure) (n : node) :
  forall dir filelist e r es,
    n = Dir r es ->
    walkSync stat dir n filelist = Throw e ->
    (e = EACCES /\ dirs_readable n = false) \/
    (exists p f, In p (tree_paths dir n) /\ stat p = Some f /\ e = stat_exn f).
Proof.
  induction n as [r0 c0 | r0 es0 IH] using node_ind;
    intros dir filelist e r es Hn; [discriminate|]. clear Hn r es.
  destruct r0;
    [|intros H; injection H as <-; left; now split].
  rewrite walkSync_dir. cbn [dirs_readable andb tree_paths].
  revert filelist. induction es0 as [|[file child] es IHes]; intros filelist.
  - discriminate.
  - inversion IH as [|? ? IHc IHrest]; subst. cbn [snd] in IHc.
    specialize (IHes IHrest).
    cbn [walkEntries forallb flat_map fst snd].
    destruct (stat (path_join dir file)) as [x|] eqn:Es.
    { intros H. injection H as <-. right. exists (path_join dir file), x.
      split; [now left | now split]. }
    assert (K : forall fl,
               walkEntries stat dir es fl = Throw e ->
               (e = EACCES /\
                dirs_readable child
                && forallb (fun e0 => dirs_readable (snd e0)) es = false) \/
               (exists p f,
                   In p ((path_join dir file
                            :: tree_paths (path_join dir file) child)
                           ++ flat_map
                                (fun e0 =>
                                   path_join dir (fst e0)
                                     :: tree_paths (path_join dir (fst e0))
                                          (snd e0)) es) /\
                   stat p = Some f /\ e = stat_exn f)).
    { intros fl H. destruct (IHes _ H) as [[-> Hf]|[p [f [Hp Hsp]]]].
      - left. split; [reflexivity|]. rewrite Hf. apply andb_false_r.
      - right. exists p, f. split; [|exact Hsp]. apply in_or_app. now right. }
    destruct child as [rc cc | rc ces]; [apply K|].
    destruct (walkSync stat (path_join dir file) (Dir rc ces) filelist)
      as [fl'|x] eqn:Ew; [apply K|].
    intros H. injection H as <-.
    destruct (IHc _ _ _ rc ces eq_refl Ew) as [[-> Hf]|[p [f [Hp Hsp]]]].
    + left. split; [reflexivity|]. now rewrite Hf.
    + right. exists p, f. split; [|exact Hsp]. apply in_or_app. left.
      now right.
Qed.

(** The walk follows the tree: in a well-formed tree every path it lists
    leads, name by name, to the file it stands for. *)
Lemma find_entry_in (es : list (str * node)) (f : str) (c : node) :
  distinct (map fst es) = true -> In (f, c) es -> find_entry f es = Some c.
Proof.
  induction es as [|[g d] es IH]; simpl; [intros _ []|].
  intros H. apply andb_true_iff in H as [Hg Hd].
  intros [E|Hin].
  - injection E as -> ->. now rewrite str_eqb_refl.
  - destruct (str_eqb g f) eqn:Eg; [|now apply IH].
    apply str_eqb_eq in Eg. subst g. apply negb_true_iff in Hg.
    assert (X : existsb (str_eqb f) (map fst es) = true).
    { apply existsb_exists. exists f. split; [|apply str_eqb_refl].
      apply in_map_iff. now exists (f, c). }
    congruence.
Qed.

Lemma walk_listed (stat : str -> option stat_failure) (n : node) :
  forall dir filelist out,
    well_formed n = true ->
    walkSync stat dir n filelist = Ok out ->
    exists new, out = filelist ++ new /\ Forall (listed dir n) new.
Proof.
  induction n as [r0 c0 | r0 es0 IH] using node_ind;
    intros dir filelist out Hwf; [discriminate|].
  destruct r0; [|discriminate]. cbn [walkSync].
  cbn [well_formed] in Hwf. apply andb_true_iff in Hwf as [Hd Hv].
  assert (G : forall es, incl es es0 ->
              forall filelist out,
                (fix forEach (files : list (str * node)) (filelist : list str)
                   {struct files} : result (list str) :=
                   match files with
                   | [] => Ok filelist
                   | (file, child) :: files' =>
                       match stat (path_join dir file) with
                       | Some f => Throw (stat_exn f)
                       | None =>
                           match child with
                           | File _ _ =>
                               forEach files' (filelist ++ [path_join dir file])
                           | Dir _ _ =>
                               match
                                 walkSync stat (path_join dir file) child filelist
                               with
                               | Ok filelist' => forEach files' filelist'
                               | Throw e => Throw e
                               end
                           end
                       end
                   end) es filelist = Ok out ->
                exists new, out = filelist ++ new /\
                            Forall (listed dir (Dir true es0)) new).
  { induction es as [|[file child] es IHes]; intros Hincl fl o.
    - intros H. injection H as <-. exists []. split; [now rewrite app_nil_r|constructor].
    - assert (Hin : In (file, child) es0) by (apply Hincl; now left).
      assert (Hincl' : incl es es0) by (intros e He; apply Hincl; now right).
      pose proof (find_entry_in es0 file child Hd Hin) as Hfind.
      rewrite forallb_forall in Hv. pose proof (Hv _ Hin) as Hvc.
      cbn [fst snd] in Hvc. apply andb_true_iff in Hvc as [Hname Hwfc].
      apply valid_name_spec in Hname as [Hne Hsep].
      assert (Hjoin : path_join dir file = dir ++ SEP :: file).
      { unfold path_join. now destruct file. }
      destruct (stat (path_join dir file)); [discriminate|].
      destruct child as [rc cc | rc ces].
      + intros H. destruct (IHes Hincl' _ _ H) as [new [-> Hnew]].
        exists (path_join dir file :: new). split; [now rewrite <- app_assoc|].
        constructor; [|exact Hnew].
        exists [file], rc, cc. rewrite Hjoin. cbn [join lookup_path].
        rewrite Hfind. repeat split; try assumption; try discriminate.
        repeat constructor; assumption.
      + destruct (walkSync stat (path_join dir file) (Dir rc ces) fl)
          as [fl'|e] eqn:Ew;
          [|discriminate].
        rewrite Forall_forall in IH. pose proof (IH _ Hin) as IHc.
        cbn [snd] in IHc.
        destruct (IHc _ _ _ Hwfc Ew) as [new1 [-> Hnew1]].
        intros H. destruct (IHes Hincl' _ _ H) as [new2 [-> Hnew2]].
        exists (new1 ++ new2). split; [now rewrite <- app_assoc|].
        apply Forall_app. split; [|exact Hnew2].
        eapply Forall_impl; [|exact Hnew1].
        intros f [names [r [c [-> [Hn [Hnames Hl]]]]]].
        exists (file :: names), r, c. rewrite Hjoin.
        split; [|split; [discriminate|split]].
        * rewrite <- app_assoc. cbn [app].
          destruct names; [contradiction | reflexivity].
        * constructor; [split|]; assumption.
        * cbn [lookup_path]. now rewrite Hfind. }
  apply G. apply incl_refl.
Qed.

(** A listed path names, by its segments below the root, the file the
    walk saw. *)
Lemma listed_resolve (root : str) (n : node) (f : str) :
  listed root n f ->
  exists r c, resolve root (Some n) f = Some (File r c).
Proof.
  intros [names [r [c [-> [Hne [Hnames Hl]]]]]]. exists r, c.
  unfold resolve. rewrite segments_app.
  assert (E : segments (join [SEP] names) = names).
  { unfold segments. rewrite split_on_join.
    - apply forallb_filter_id. apply forallb_forall. intros x Hx.
      rewrite Forall_forall in Hnames. destruct (Hnames x Hx) as [Hx' _].
      now destruct x.
    - exact Hne.
    - eapply Forall_impl; [|exact Hnames]. now intros x [_ H]. }
  now rewrite E, drop_common_app.
Qed.

(** [readFileSync] on a discovered marker file of a well-formed tree reads
    the file the walk listed. *)
Lemma discovered_file (PLUGINS_DIR : str) (st : fs) (n : node) (skillFile : str) :
  plugins st = Some n -> well_formed n = true ->
  discovered PLUGINS_DIR st skillFile ->
  exists r c,
    resolve PLUGINS_DIR (plugins st) skillFile = Some (File r c) /\
    readFileSync PLUGINS_DIR st skillFile = if r then Ok c else Throw EACCES.
Proof.
  intros Hp Hwf [n' [allFiles [Hp' [Hw [Hin _]]]]].
  rewrite Hp in Hp'. injection Hp' as <-.
  destruct (walk_listed _ n PLUGINS_DIR [] allFiles Hwf Hw) as [new [-> Hnew]].
  rewrite Forall_forall in Hnew. cbn [app] in Hin.
  destruct (listed_resolve PLUGINS_DIR n skillFile (Hnew _ Hin)) as [r [c E]].
  exists r, c. unfold readFileSync. rewrite Hp, E. split; [reflexivity|].
  now destruct r.
Qed.

(** ** Trees *)

Lemma find_entry_set_entry (s : str) (c : node) (es : list (str * node)) :
  find_entry s (set_entry s c es) = Some c.
Proof.
  induction es as [|[n c0] es IH]; simpl.
  - now rewrite str_eqb_refl.
  - destruct (str_eqb n s) eqn:E; simpl; now rewrite E.
Qed.

Lemma lookup_path_app (n : node) (p q : list str) :
  lookup_path n (p ++ q) =
  match lookup_path n p with
  | Some d => lookup_path d q
  | None => None
  end.
Proof.
  revert n. induction p as [|s p IH]; intros n; simpl; [reflexivity|].
  destruct n as [r c | r es]; [reflexivity|].
  destruct (find_entry s es); [apply IH | reflexivity].
Qed.

Lemma lookup_put_at (segs : list str) (new : node) :
  forall t h, put_at segs new t = Ok h -> lookup_path h segs = Some new.
Proof.
  induction segs as [|s rest IH]; intros t h; simpl.
  - intros H. now injection H as ->.
  - destruct t as [[r c | r es]|]; [discriminate | |].
    + destruct (put_at rest new (find_entry s es)) as [c|e] eqn:E;
        [|discriminate].
      intros H. injection H as <-. simpl.
      rewrite find_entry_set_entry. eapply IH, E.
    + destruct (put_at rest new None) as [c|e] eqn:E; [|discriminate].
      intros H. injection H as <-. simpl.
      rewrite str_eqb_refl. eapply IH, E.
Qed.

(** ** The recursive copy *)

Lemma cp_tree_complete (n : node) :
  forall o, cp_tree n = (true, o) -> o = Some n.
Proof.
  induction n as [r c | r es IH] using node_ind; intros o.
  - destruct r; simpl; intros H; now inversion H.
  - destruct r; simpl; [|intros H; now inversion H].
    match goal with
    | |- context [?f es] =>
        match f with (fix each (l : list (str * node)) {struct l} := _) =>
          set (each := f)
        end
    end.
    assert (Hes : forall out, each es = (true, out) -> out = es).
    { clear o. induction es as [|[f child] es IHes]; intros out.
      - simpl. intros H. now inversion H.
      - inversion IH as [|? ? IHc IHrest]; subst. cbn [snd] in IHc.
        simpl. destruct (cp_tree child) as [[|] [c'|]] eqn:Ec;
          try (intros H; now inversion H).
        destruct (each es) as [ok out'] eqn:Ee.
        intros H. inversion H; subst.
        rewrite (IHes IHrest out' eq_refl).
        specialize (IHc _ eq_refl). now inversion IHc. }
    destruct (each es) as [ok out] eqn:Ee.
    intros H. inversion H; subst. now rewrite (Hes out eq_refl).
Qed.


Lemma find_none_iff {A} (f : A -> bool) (l : list A) :
  find f l = None <-> forall x, In x l -> f x = false.
Proof.
  split; [apply find_none|].
  induction l as [|a l IH]; simpl; intros H; [reflexivity|].
  rewrite (H a) by (left; reflexivity). apply IH. intros x Hx. apply H. now right.
Qed.

Lemma filter_none {A} (p : A -> bool) (l : list A) :
  Forall (fun x => p x = false) l -> filter p l = [].
Proof.
  induction 1 as [|x l Hx _ IH]; simpl; [reflexivity|]. now rewrite Hx.
Qed.

(** ** The server *)

Section ServerFacts.

Variable PLUGINS_DIR : str.
Variable HOME : str.
Variable localeCompare : str -> str -> Z.

Local Abbreviation destBase := (getGeminiSkillsDir HOME).

(** The catalog depends on the state only through what stands at
    [PLUGINS_DIR] and what can be reached there. *)
Lemma findSkills_plugins (st st' : fs) :
  plugins st' = plugins st ->
  stat_error st' = stat_error st ->
  findSkills PLUGINS_DIR localeCompare st'
  = findSkills PLUGINS_DIR localeCompare st.
Proof.
  intros H Hs. unfold findSkills, discover. rewrite H, Hs.
  destruct (plugins st) as [n|] eqn:E; [|reflexivity].
  destruct (walkSync (stat_error st) PLUGINS_DIR n []) as [allFiles|e];
    [|reflexivity].
  rewrite (map_ext (skillOf PLUGINS_DIR st') (skillOf PLUGINS_DIR st));
    [reflexivity|].
  intros f. unfold skillOf, readFileSync. now rewrite H, E.
Qed.

Lemma discover_names (st : fs) (found : list skill) (e : skill) :
  discover PLUGINS_DIR st = Ok found -> In e found -> ~ In SEP (name e).
Proof.
  unfold discover. destruct (plugins st) as [n|].
  - destruct (walkSync (stat_error st) PLUGINS_DIR n []) as [allFiles|x];
      [|discriminate].
    intros H. injection H as <-. intros He.
    apply in_map_iff in He as [f [<- _]]. apply skill_name_no_sep.
  - intros H. injection H as <-. intros [].
Qed.

(** No name of the catalog holds the path separator. *)
Lemma catalog_names (st : fs) (catalog : list skill) (e : skill) :
  findSkills PLUGINS_DIR localeCompare st = Ok catalog ->
  In e catalog -> ~ In SEP (name e).
Proof.
  unfold findSkills.
  destruct (discover PLUGINS_DIR st) as [found|x] eqn:E; [|discriminate].
  intros H. injection H as <-. intros He. apply sort_In in He.
  eapply discover_names; eassumption.
Qed.

Lemma home_path_base : home_path HOME destBase = Some BASE.
Proof.
  unfold home_path, getGeminiSkillsDir, path_join.
  change (is_empty (lit "skills")) with false.
  change (is_empty (lit ".gemini")) with false. cbv iota.
  rewrite !segments_app, <- app_assoc, drop_common_app. reflexivity.
Qed.

Lemma home_path_dest (skillName : str) :
  ~ In SEP skillName ->
  home_path HOME (path_join destBase skillName)
  = Some (BASE ++ if is_empty skillName then [] else [skillName]).
Proof.
  intros Hs. destruct skillName as [|c s].
  - cbn [path_join is_empty]. rewrite app_nil_r. apply home_path_base.
  - unfold home_path, getGeminiSkillsDir, path_join.
    change (is_empty (lit "skills")) with false.
    change (is_empty (lit ".gemini")) with false. cbn [is_empty].
    rewrite !segments_app, <- !app_assoc, drop_common_app.
    rewrite (segments_no_sep (c :: s)); [reflexivity | discriminate | exact Hs].
Qed.

Lemma resolve_home (t : node) (p : str) :
  resolve HOME (Some t) p =
  match home_path HOME p with
  | Some down => lookup_path t down
  | None => None
  end.
Proof.
  unfold resolve, home_path.
  destruct (drop_common (segments HOME) (segments p)) as [[|u up] down];
    reflexivity.
Qed.

End ServerFacts.

(** ** The installer *)

Section InstallFacts.

Variable PLUGINS_DIR : str.
Variable HOME : str.
Variable localeCompare : str -> str -> Z.

Local Abbreviation destBase := (getGeminiSkillsDir HOME).
Local Abbreviation install := (handleInstallSkill PLUGINS_DIR HOME localeCompare).
Local Abbreviation catalogOf := (findSkills PLUGINS_DIR localeCompare).

Lemma mkdirSync_plugins (st st1 : fs) (p : str) :
  mkdirSync HOME st p = Ok st1 -> plugins st1 = plugins st.
Proof.
  unfold mkdirSync. destruct (home_path HOME p) as [segs|]; [|discriminate].
  destruct (mkdirp segs (Some (home st))) as [h|e]; [|discriminate].
  intros H. now injection H as <-.
Qed.

Lemma cpSync_plugins (st st2 : fs) (src dest : str) (e : option exn) :
  cpSync PLUGINS_DIR HOME st src dest = (st2, e) -> plugins st2 = plugins st.
Proof.
  unfold cpSync.
  destruct (resolve PLUGINS_DIR (plugins st) src) as [n|];
    [|intros H; now inversion H].
  destruct (home_path HOME dest) as [segs|]; [|intros H; now inversion H].
  destruct (mkdirp (removelast segs) (Some (home st))) as [h|x];
    [|intros H; now inversion H].
  destruct (cp_tree n) as [ok [made|]]; [|intros H; now inversion H].
  destruct (put_at segs made (Some h)) as [h'|x]; intros H; now inversion H.
Qed.

Lemma mkdirSync_stat (st st1 : fs) (p : str) :
  mkdirSync HOME st p = Ok st1 -> stat_error st1 = stat_error st.
Proof.
  unfold mkdirSync. destruct (home_path HOME p) as [segs|]; [|discriminate].
  destruct (mkdirp segs (Some (home st))) as [h|e]; [|discriminate].
  intros H. now injection H as <-.
Qed.

Lemma cpSync_stat (st st2 : fs) (src dest : str) (e : option exn) :
  cpSync PLUGINS_DIR HOME st src dest = (st2, e) ->
  stat_error st2 = stat_error st.
Proof.
  unfold cpSync.
  destruct (resolve PLUGINS_DIR (plugins st) src) as [n|];
    [|intros H; now inversion H].
  destruct (home_path HOME dest) as [segs|]; [|intros H; now inversion H].
  destruct (mkdirp (removelast segs) (Some (home st))) as [h|x];
    [|intros H; now inversion H].
  destruct (cp_tree n) as [ok [made|]]; [|intros H; now inversion H].
  destruct (put_at segs made (Some h)) as [h'|x]; intros H; now inversion H.
Qed.




End InstallFacts.

(** ** The matcher *)

Lemma strip_prefix_sound (w : str) :
  forall prev s p s', strip_prefix w prev s = Some (p, s') -> s = w ++ s'.
Proof.
  induction w as [|x w IH]; intros prev s p s'; simpl.
  - intros H. now injection H as _ ->.
  - destruct s as [|y s]; [discriminate|].
    destruct (Ascii.eqb x y) eqn:E; [|discriminate].
    apply Ascii.eqb_eq in E. subst y. intros H. f_equal. eapply IH, H.
Qed.

Lemma strip_prefix_startsWith (w : str) :
  forall prev s, startsWith w s = false -> strip_prefix w prev s = None.
Proof.
  induction w as [|x w IH]; intros prev s; simpl; [discriminate|].
  destruct s as [|y s]; [reflexivity|].
  destruct (Ascii.eqb x y); simpl; [apply IH | reflexivity].
Qed.

Lemma startsWith_app (w s : str) : startsWith w (w ++ s) = true.
Proof.
  induction w as [|x w IH]; simpl; [reflexivity|].
  now rewrite Ascii.eqb_refl.
Qed.

Lemma startsWith_prefix (w s : str) :
  startsWith w s = true -> exists s', s = w ++ s'.
Proof.
  revert s. induction w as [|x w IH]; intros s; simpl.
  - intros _. now exists s.
  - destruct s as [|y s]; [discriminate|].
    intros H. apply andb_true_iff in H as [E H].
    apply Ascii.eqb_eq in E. subst y.
    destruct (IH _ H) as [s' ->]. now exists s'.
Qed.

Lemma star_greedy_sound (cls : ascii -> bool) (k : option ascii -> str -> option caps) :
  forall s prev r,
    star_greedy cls prev s k = Some r ->
    exists w s' p,
      s = w ++ s' /\ Forall (fun c => cls c = true) w /\ k p s' = Some r.
Proof.
  induction s as [|x s IH]; intros prev r; simpl.
  - intros H. exists [], [], prev. auto.
  - destruct (cls x) eqn:Ex.
    + destruct (star_greedy cls (Some x) s k) as [r'|] eqn:E.
      * intros H. injection H as ->.
        destruct (IH _ _ E) as [w [s' [p [-> [Hw Hk]]]]].
        exists (x :: w), s', p. auto.
      * intros H. exists [], (x :: s), prev. auto.
    + intros H. exists [], (x :: s), prev. auto.
Qed.

Lemma star_lazy_sound (cls : ascii -> bool) (k : option ascii -> str -> option caps) :
  forall s prev r,
    star_lazy cls prev s k = Some r ->
    exists w s' p,
      s = w ++ s' /\ Forall (fun c => cls c = true) w /\ k p s' = Some r.
Proof.
  induction s as [|x s IH]; intros prev r; simpl.
  - destruct (k prev []) as [r'|] eqn:E; [|discriminate].
    intros H. injection H as ->. exists [], [], prev. auto.
  - destruct (k prev (x :: s)) as [r'|] eqn:E.
    + intros H. injection H as ->. exists [], (x :: s), prev. auto.
    + destruct (cls x) eqn:Ex; [|discriminate].
      intros H. destruct (IH _ _ H) as [w [s' [p [-> [Hw Hk]]]]].
      exists (x :: w), s', p. auto.
Qed.

(** A pattern that starts with [^] (without the [m] flag) matches at the
    start of the input or nowhere. *)
Lemma search_anchored (r : regex) (s : str) (c : ascii) :
  search (Seq (Bol false) r) (Some c) s = None.
Proof.
  revert c. induction s as [|x s IH]; intros c; simpl; [reflexivity|].
  apply IH.
Qed.

Lemma exec_anchored (r : regex) (s : str) :
  exec (Seq (Bol false) r) s = rmatch r None s [] (fun _ _ c => Some c).
Proof.
  unfold exec. destruct s as [|x s]; simpl.
  - now destruct (rmatch r None [] [] _).
  - destruct (rmatch r None (x :: s) [] _); [reflexivity|].
    apply search_anchored.
Qed.

Lemma firstn_app_length (g s : str) :
  firstn (length (g ++ s) - length s) (g ++ s) = g.
Proof.
  rewrite length_app, Nat.add_sub.
  rewrite firstn_app, Nat.sub_diag, firstn_all. simpl. apply app_nil_r.
Qed.

(** What a match of the pattern of line 79 says about the content. *)
Lemma frontmatter_sound (content : str) (m : caps) :
  exec re_frontmatter content = Some m ->
  exists w1 g w2 rest,
    content = DELIM ++ w1 ++ LF :: g ++ LF :: DELIM ++ w2 ++ LF :: rest /\
    Forall (fun c => is_space c = true) w1 /\
    Forall (fun c => is_space c = true) w2 /\
    get_cap 1 m = Some g.
Proof.
  unfold re_frontmatter. rewrite exec_anchored. cbn [rmatch].
  destruct (strip_prefix (lit "---") None content) as [[p0 s0]|] eqn:E0;
    [|discriminate].
  apply strip_prefix_sound in E0. intros H.
  apply star_greedy_sound in H as [w1 [s1 [p1 [-> [Hw1 H]]]]].
  destruct (strip_prefix [LF] p1 s1) as [[p2 s2]|] eqn:E2; [|discriminate].
  apply strip_prefix_sound in E2.
  apply star_lazy_sound in H as [g [s3 [p3 [-> [_ H]]]]].
  destruct (strip_prefix (LF :: lit "---") p3 s3) as [[p4 s4]|] eqn:E4;
    [|discriminate].
  apply strip_prefix_sound in E4.
  apply star_greedy_sound in H as [w2 [s5 [p5 [-> [Hw2 H]]]]].
  destruct (strip_prefix [LF] p5 s5) as [[p6 s6]|] eqn:E6; [|discriminate].
  apply strip_prefix_sound in E6. injection H as <-.
  exists w1, g, w2, s6. subst. split; [|split; [assumption|split; [assumption|]]].
  - reflexivity.
  - rewrite firstn_app_length. reflexivity.
Qed.

(** A text without a line that begins with [description:] has no match of
    the pattern of line 82. *)
Lemma search_key_free (s : str) :
  forall prev,
    key_free_from (at_bol true prev) s = true ->
    search re_description prev s = None.
Proof.
  induction s as [|c s IH]; intros prev H.
  - cbn [search]. unfold re_description. cbn [rmatch].
    destruct (at_bol true prev); reflexivity.
  - cbn [key_free_from] in H. apply andb_true_iff in H as [H1 H2].
    cbn [search].
    assert (E : rmatch re_description prev (c :: s) []
                  (fun _ _ c0 => Some c0) = None).
    { unfold re_description. cbn [rmatch].
      destruct (at_bol true prev); [|reflexivity].
      cbn [andb] in H1. apply negb_true_iff in H1.
      fold KEY. now rewrite (strip_prefix_startsWith KEY prev _ H1). }
    rewrite E. apply IH. exact H2.
Qed.

(** Exact results of the matcher. *)

Lemma strip_prefix_app (w : str) :
  forall prev s, strip_prefix w prev (w ++ s) = Some (last_prev w prev, s).
Proof.
  induction w as [|x w IH]; intros prev s; simpl; [reflexivity|].
  rewrite Ascii.eqb_refl. apply IH.
Qed.

Lemma startsWith_app_false (p l z : str) (c : ascii) :
  ~ In c p -> startsWith p l = false -> startsWith p (l ++ c :: z) = false.
Proof.
  revert l. induction p as [|x p IH]; intros l Hc; simpl; [discriminate|].
  destruct l as [|y l]; simpl.
  - intros _. destruct (Ascii.eqb x c) eqn:E; [|reflexivity].
    apply Ascii.eqb_eq in E. exfalso. apply Hc. now left.
  - destruct (Ascii.eqb x y); simpl; [|reflexivity].
    apply IH. intros H. apply Hc. now right.
Qed.

Lemma star_greedy_stop (cls : ascii -> bool) (k : option ascii -> str -> option caps)
      (prev : option ascii) (s : str) :
  stops cls s -> star_greedy cls prev s k = k prev s.
Proof. destruct s as [|c s]; simpl; [reflexivity|]. now intros ->. Qed.

Lemma star_greedy_longest (cls : ascii -> bool) (k : option ascii -> str -> option caps)
      (s : str) (r : caps) :
  stops cls s ->
  forall w prev,
    Forall (fun c => cls c = true) w ->
    k (last_prev w prev) s = Some r ->
    star_greedy cls prev (w ++ s) k = Some r.
Proof.
  intros Hs. induction w as [|x w IH]; intros prev Hw Hk.
  - simpl in *. now rewrite star_greedy_stop.
  - inversion Hw as [|? ? Hx Hw']; subst. simpl. rewrite Hx.
    now rewrite (IH (Some x) Hw' Hk).
Qed.

Lemma star_greedy_progress (cls : ascii -> bool) (k : option ascii -> str -> option caps)
      (prev : option ascii) (s : str) :
  k prev s <> None -> star_greedy cls prev s k <> None.
Proof.
  destruct s as [|x s]; simpl; [auto|]. intros H.
  destruct (cls x); [|exact H].
  destruct (star_greedy cls (Some x) s k); [discriminate | exact H].
Qed.

Lemma star_greedy_complete (cls : ascii -> bool) (k : option ascii -> str -> option caps)
      (s : str) :
  (forall p, k p s <> None) ->
  forall w prev,
    Forall (fun c => cls c = true) w ->
    star_greedy cls prev (w ++ s) k <> None.
Proof.
  intros Hk. induction w as [|x w IH]; intros prev Hw.
  - apply star_greedy_progress, Hk.
  - inversion Hw as [|? ? Hx Hw']; subst. simpl. rewrite Hx.
    specialize (IH (Some x) Hw').
    destruct (star_greedy cls (Some x) (w ++ s) k); [discriminate|].
    contradiction.
Qed.

(** A continuation with one possible result: any successful repetition
    gives it. *)
Lemma star_greedy_constant (cls : ascii -> bool) (k : option ascii -> str -> option caps)
      (prev : option ascii) (s : str) (r : caps) :
  (forall p s' r', k p s' = Some r' -> r' = r) ->
  k prev s = Some r ->
  star_greedy cls prev s k = Some r.
Proof.
  intros Hconst Hk.
  destruct (star_greedy cls prev s k) as [r'|] eqn:E.
  - apply star_greedy_sound in E as [w [s' [p [_ [_ E]]]]].
    now rewrite (Hconst _ _ _ E).
  - exfalso. eapply star_greedy_progress; [|exact E]. now rewrite Hk.
Qed.

Lemma span (cls : ascii -> bool) (s : str) :
  exists w s', s = w ++ s' /\ Forall (fun c => cls c = true) w /\ stops cls s'.
Proof.
  induction s as [|c s IH].
  - exists [], []. simpl. auto.
  - destruct (cls c) eqn:E.
    + destruct IH as [w [s' [-> [Hw Hs]]]]. exists (c :: w), s'. auto.
    + exists [], (c :: s). simpl. auto.
Qed.

Lemma is_any_true (c : ascii) : is_any c = true.
Proof. unfold is_any. now destruct (is_space c). Qed.

Lemma head_line (sep : ascii) (s z : str) :
  exists z', s ++ sep :: z = hd [] (split_on sep s) ++ sep :: z'.
Proof.
  induction s as [|x s IH]; simpl.
  - now exists z.
  - destruct (Ascii.eqb x sep) eqn:E.
    + apply Ascii.eqb_eq in E. subst x. simpl. now exists (s ++ sep :: z).
    + destruct IH as [z' IH].
      destruct (split_on sep s) as [|w ws] eqn:Es;
        [now apply split_on_not_nil in Es|].
      simpl in *. exists z'. now rewrite IH.
Qed.

(** The lazy repetition of line 79 passes over a header none of whose
    lines after the first starts with [---]. *)
Lemma star_lazy_header (k : option ascii -> str -> option caps) (t : str) :
  (forall p s, startsWith (LF :: DELIM) s = false -> k p s = None) ->
  forall y prev,
    (forall l, In l (tl (split_on LF y)) -> startsWith DELIM l = false) ->
    star_lazy is_any prev (y ++ LF :: t) k
    = star_lazy is_any (last_prev y prev) (LF :: t) k.
Proof.
  intros Hk. induction y as [|c y IH]; intros prev Hl; [reflexivity|].
  cbn [app star_lazy last_prev]. rewrite is_any_true.
  assert (E : k prev (c :: y ++ LF :: t) = None).
  { apply Hk. cbn [startsWith].
    destruct (Ascii.eqb LF c) eqn:Ec; [|reflexivity]. cbn [andb].
    apply Ascii.eqb_eq in Ec. subst c.
    destruct (head_line LF y t) as [z' ->].
    apply startsWith_app_false; [cbv; intuition discriminate|].
    apply Hl. cbn [split_on]. rewrite Ascii.eqb_refl. cbn [tl].
    destruct (split_on LF y) as [|w ws] eqn:Es;
      [now apply split_on_not_nil in Es|]. now left. }
  rewrite E. apply IH. intros l Hin. apply Hl.
  cbn [split_on]. destruct (Ascii.eqb c LF).
  - cbn [tl]. destruct (split_on LF y); [destruct Hin | now right].
  - destruct (split_on LF y); [destruct Hin | exact Hin].
Qed.

(** ** The header and the description in it *)

Lemma opening_step (k : option ascii -> str -> option caps)
      (prev : option ascii) (c0 : ascii) (s : str) :
  is_space c0 = false ->
  star_greedy is_space prev (LF :: c0 :: s)
    (fun p s' =>
       match strip_prefix [LF] p s' with
       | Some (p1, s1) => k p1 s1
       | None => None
       end)
  = k (Some LF) (c0 :: s).
Proof.
  intros H. cbn [star_greedy]. change (is_space LF) with true. cbv iota.
  rewrite H. cbn [strip_prefix].
  destruct (Ascii.eqb LF c0) eqn:E.
  - apply Ascii.eqb_eq in E. subst c0. discriminate.
  - now rewrite Ascii.eqb_refl.
Qed.

Lemma frontmatter_exact (yaml body : str) :
  starts_with_text yaml = true ->
  (forall l, In l (tl (split_on LF yaml)) -> startsWith DELIM l = false) ->
  header_of (DELIM ++ LF :: yaml ++ LF :: DELIM ++ LF :: body) = Some yaml.
Proof.
  intros Ht Hl. unfold header_of, re_frontmatter. rewrite exec_anchored.
  cbn [rmatch]. fold DELIM. rewrite strip_prefix_app.
  destruct yaml as [|c0 y]; [discriminate|].
  cbn [starts_with_text] in Ht. apply negb_true_iff in Ht.
  cbn [app].
  rewrite (opening_step
             (fun p1 s'0 =>
                star_lazy is_any p1 s'0
                  (fun p2 s'1 =>
                     match strip_prefix (LF :: DELIM) p2 s'1 with
                     | Some (p4, s'2) =>
                         star_greedy is_space p4 s'2
                           (fun p5 s'3 =>
                              match strip_prefix [LF] p5 s'3 with
                              | Some (_, _) =>
                                  Some (set_cap 1
                                          (firstn (length s'0 - length s'1) s'0) [])
                              | None => None
                              end)
                     | None => None
                     end)) _ c0 _ Ht).
  change (c0 :: y ++ LF :: DELIM ++ LF :: body)
    with ((c0 :: y) ++ LF :: DELIM ++ LF :: body).
  rewrite star_lazy_header; [| |exact Hl].
  - cbn [star_lazy].
    change (LF :: DELIM ++ LF :: body) with ((LF :: DELIM) ++ LF :: body).
    rewrite strip_prefix_app.
    rewrite star_greedy_constant
      with (r := set_cap 1 (c0 :: y) []).
    + reflexivity.
    + intros p s' r'. destruct (strip_prefix [LF] p s') as [[p' s'']|];
        [|discriminate].
      intros H. injection H as <-.
      exact (f_equal (fun g => set_cap 1 g [])
               (firstn_app_length (c0 :: y) (LF :: DELIM ++ LF :: body))).
    + cbn [strip_prefix]. rewrite Ascii.eqb_refl.
      exact (f_equal (fun g => Some (set_cap 1 g []))
               (firstn_app_length (c0 :: y) (LF :: DELIM ++ LF :: body))).
  - intros p s H. now rewrite (strip_prefix_startsWith _ p s H).
Qed.

Lemma join_cons (sep : str) (l : str) (ls : list str) :
  ls <> [] -> join sep (l :: ls) = l ++ sep ++ join sep ls.
Proof. destruct ls; [contradiction | reflexivity]. Qed.

Lemma join_lines (before after : list str) (d : str) :
  join [LF] (before ++ d :: after) = flat_lines before ++ d ++ rest_text after.
Proof.
  induction before as [|l before IH].
  - destruct after; simpl; [now rewrite app_nil_r | reflexivity].
  - cbn [app]. rewrite join_cons by (now destruct before).
    rewrite IH. unfold flat_lines. cbn [map concat].
    now rewrite <- !app_assoc.
Qed.

Lemma key_not_at_LF (prev : option ascii) (s : str) :
  rmatch re_description prev (LF :: s) [] (fun _ _ c => Some c) = None.
Proof.
  unfold re_description. cbn [rmatch]. now destruct (at_bol true prev).
Qed.

Lemma search_skip_line (l s : str) :
  forall prev,
    key_free_from (at_bol true prev) l = true ->
    search re_description prev (l ++ LF :: s)
    = search re_description (Some LF) s.
Proof.
  induction l as [|c l IH]; intros prev H.
  - cbn [app search]. now rewrite key_not_at_LF.
  - cbn [key_free_from] in H. apply andb_true_iff in H as [H1 H2].
    cbn [app search].
    assert (E : rmatch re_description prev (c :: l ++ LF :: s) []
                  (fun _ _ c0 => Some c0) = None).
    { unfold re_description. cbn [rmatch].
      destruct (at_bol true prev); [|reflexivity].
      cbn [andb] in H1. apply negb_true_iff in H1. fold KEY.
      rewrite (strip_prefix_startsWith KEY prev); [reflexivity|].
      apply (startsWith_app_false KEY (c :: l) s LF);
        [cbv; intuition discriminate | exact H1]. }
    rewrite E. apply IH. exact H2.
Qed.

Lemma search_skip_lines (before : list str) (s : str) :
  Forall (fun l => key_free l = true) before ->
  search re_description None (flat_lines before ++ s)
  = search re_description (match before with [] => None | _ => Some LF end) s.
Proof.
  assert (G : forall prev, at_bol true prev = true ->
              Forall (fun l => key_free l = true) before ->
              search re_description prev (flat_lines before ++ s)
              = search re_description
                  (match before with [] => prev | _ => Some LF end) s).
  { induction before as [|l before IH]; intros prev Hp H; [reflexivity|].
    inversion H as [|? ? Hl Hb]; subst.
    unfold flat_lines. cbn [map concat]. rewrite <- !app_assoc. cbn [app].
    rewrite search_skip_line by (rewrite Hp; exact Hl).
    fold (flat_lines before). rewrite (IH (Some LF) eq_refl Hb).
    now destruct before. }
  apply G. reflexivity.
Qed.

Lemma first_dot (s : str) :
  existsb is_dot s = true ->
  exists w c s', s = w ++ c :: s' /\
                 Forall (fun x => is_space x = true) w /\ is_dot c = true.
Proof.
  induction s as [|x s IH]; [discriminate|]. cbn [existsb].
  destruct (is_dot x) eqn:E.
  - intros _. exists [], x, s. auto.
  - cbn [orb]. intros H. destruct (IH H) as [w [c [s' [-> [Hw Hc]]]]].
    exists (x :: w), c, s'. split; [reflexivity|]. split; [|exact Hc].
    constructor; [|exact Hw].
    unfold is_dot, is_line_terminator in E. apply negb_false_iff in E.
    apply orb_true_iff in E as [E|E]; apply Ascii.eqb_eq in E; subst x;
      reflexivity.
Qed.

Lemma stops_dot_eol (s : str) : stops is_dot s -> at_eol true s = true.
Proof.
  destruct s as [|c s]; [reflexivity|]. cbn. unfold is_dot.
  intros H. now apply negb_false_iff in H.
Qed.

(** The value on the line of the key: a character that is neither white
    space nor [>] starts it. *)
Lemma description_inline (prev : option ascii) (ws v rest : str) (c : ascii) :
  at_bol true prev = true ->
  Forall (fun x => is_space x = true) ws ->
  is_space c = false -> c <> ">"%char ->
  Forall (fun x => is_dot x = true) (c :: v) ->
  stops is_dot rest ->
  rmatch re_description prev (KEY ++ (ws ++ c :: v) ++ rest) []
    (fun _ _ m => Some m)
  = Some (set_cap 2 (c :: v) []).
Proof.
  intros Hp Hws Hc Hgt Hv Hrest. unfold re_description. cbn [rmatch].
  rewrite Hp. fold KEY. rewrite strip_prefix_app, <- app_assoc.
  apply star_greedy_longest; [exact Hc | exact Hws |].
  change (lit ">") with [">"%char]. cbn [app strip_prefix].
  destruct (Ascii.eqb ">" c) eqn:E;
    [apply Ascii.eqb_eq in E; now subst c|].
  rewrite star_greedy_stop by exact Hc.
  inversion Hv as [|? ? Hdc Hdv]; subst. rewrite Hdc.
  apply star_greedy_longest; [exact Hrest | exact Hdv |].
  rewrite (stops_dot_eol _ Hrest). do 2 f_equal.
  exact (firstn_app_length (c :: v) rest).
Qed.

(** The value on the line of the key starts with [>], and a character
    that is not a line terminator comes after it. *)
Lemma description_folded (prev : option ascii) (ws1 tail rest : str) :
  at_bol true prev = true ->
  Forall (fun x => is_space x = true) ws1 ->
  existsb is_dot (tail ++ rest) = true ->
  exists m,
    rmatch re_description prev (KEY ++ (ws1 ++ lit ">" ++ tail) ++ rest) []
      (fun _ _ m => Some m) = Some m /\
    get_cap 1 m = Some (lit ">").
Proof.
  intros Hp Hws Hdot. unfold re_description. cbn [rmatch].
  rewrite Hp. fold KEY. rewrite strip_prefix_app, <- !app_assoc.
  set (kopt := fun (p : option ascii) (s' : str) => _).
  assert (Hk : exists m, kopt (last_prev ws1 (last_prev KEY prev))
                           (lit ">" ++ tail ++ rest) = Some m /\
                         get_cap 1 m = Some (lit ">")).
  { subst kopt. cbn [lit list_ascii_of_string app strip_prefix].
    rewrite Ascii.eqb_refl.
    match goal with
    | |- context [star_greedy is_space ?p ?s ?k] =>
        set (kk := k); set (pp := p)
    end.
    destruct (first_dot _ Hdot) as [w [c [s' [E [Hw Hc]]]]].
    assert (Hsome : star_greedy is_space pp (tail ++ rest) kk <> None).
    { rewrite E. apply star_greedy_complete; [|exact Hw].
      intros p. subst kk. cbv beta iota. rewrite Hc.
      destruct (span is_dot s') as [d [s'' [-> [Hd Hs]]]].
      apply star_greedy_complete; [|exact Hd].
      intros p'. now rewrite (stops_dot_eol _ Hs). }
    destruct (star_greedy is_space pp (tail ++ rest) kk) as [m|] eqn:Em;
      [|contradiction].
    exists m. split; [reflexivity|].
    apply star_greedy_sound in Em as [w0 [s0 [p0 [_ [_ Em]]]]].
    subst kk. cbv beta in Em.
    destruct s0 as [|x s0]; [discriminate|].
    destruct (is_dot x); [|discriminate].
    apply star_greedy_sound in Em as [w1 [s1 [p1 [_ [_ Em]]]]].
    destruct (at_eol true s1); [|discriminate].
    injection Em as <-.
    exact (f_equal Some (firstn_app_length [">"%char] (tail ++ rest))). }
  destruct Hk as [m [Hm Hcap]]. exists m. split; [|exact Hcap].
  apply star_greedy_longest; [reflexivity | exact Hws | exact Hm].
Qed.

Lemma search_here (r : regex) (prev : option ascii) (s : str) (m : caps) :
  rmatch r prev s [] (fun _ _ c => Some c) = Some m ->
  search r prev s = Some m.
Proof. intros H. destruct s; simpl; now rewrite H. Qed.

Lemma dropWhile_nil (p : ascii -> bool) (l : str) :
  dropWhile p l = [] <-> forallb p l = true.
Proof.
  induction l as [|c l IH]; simpl; [tauto|].
  destruct (p c); simpl; [exact IH|]. split; discriminate.
Qed.

Lemma dropWhile_app_keeps (p : ascii -> bool) (l : str) (c : ascii) :
  p c = false -> dropWhile p (l ++ [c]) <> [].
Proof.
  intros Hc. induction l as [|x l IH]; simpl.
  - rewrite Hc. discriminate.
  - destruct (p x); [exact IH | discriminate].
Qed.

Lemma trim_blank (l : str) : (length (trim l) =? 0) = is_blank l.
Proof.
  unfold trim, is_blank. destruct (forallb is_space l) eqn:E.
  - apply dropWhile_nil in E. now rewrite E.
  - destruct (dropWhile is_space l) as [|c l'] eqn:Ed.
    + apply dropWhile_nil in Ed. congruence.
    + assert (Hc : is_space c = false).
      { clear E. induction l as [|x l IH]; [discriminate|]. simpl in Ed.
        destruct (is_space x) eqn:Ex; [now apply IH|].
        now injection Ed as <- _. }
      cbn [rev]. pose proof (dropWhile_app_keeps is_space (rev l') c Hc) as H.
      destruct (dropWhile is_space (rev l' ++ [c])) as [|y ys] eqn:Ey;
        [contradiction|].
      rewrite length_rev. reflexivity.
Qed.

Lemma trim_leading (ws s : str) :
  Forall (fun x => is_space x = true) ws -> trim (ws ++ s) = trim s.
Proof.
  intros H. unfold trim. f_equal. f_equal. f_equal.
  induction H as [|x ws Hx _ IH]; [reflexivity|]. simpl. now rewrite Hx.
Qed.

Lemma exec_folded_none (l : str) :
  startsWith KEY l = false -> exec re_folded l = None.
Proof.
  intros H. unfold re_folded. rewrite exec_anchored. cbn [rmatch]. fold KEY.
  now rewrite (strip_prefix_startsWith KEY None l H).
Qed.

Lemma exec_folded_some (ws1 tail : str) :
  Forall (fun x => is_space x = true) ws1 ->
  is_some (exec re_folded (KEY ++ ws1 ++ lit ">" ++ tail)) = true.
Proof.
  intros H. unfold re_folded. rewrite exec_anchored. cbn [rmatch]. fold KEY.
  rewrite strip_prefix_app.
  rewrite star_greedy_longest with (r := []); [reflexivity | reflexivity | exact H |].
  now rewrite strip_prefix_app.
Qed.

Lemma key_free_start (l : str) : key_free l = true -> startsWith KEY l = false.
Proof.
  destruct l as [|c l]; [reflexivity|]. unfold key_free. cbn [key_free_from].
  intros H. apply andb_true_iff in H as [H _]. now apply negb_true_iff in H.
Qed.

Lemma foldedLoop_before (before rest : list str) (acc : list str) :
  Forall (fun l => startsWith KEY l = false) before ->
  foldedLoop (before ++ rest) false acc = foldedLoop rest false acc.
Proof.
  induction 1 as [|l before Hl _ IH]; [reflexivity|].
  cbn [app foldedLoop]. now rewrite (exec_folded_none l Hl).
Qed.

Lemma foldedLoop_after (after : list str) :
  Forall (fun l => startsWith KEY l = false) after ->
  forall acc, foldedLoop after true acc = acc ++ continuation after.
Proof.
  induction 1 as [|l after Hl _ IH]; intros acc.
  - simpl. now rewrite app_nil_r.
  - cbn [foldedLoop continuation]. rewrite (exec_folded_none l Hl).
    cbn [is_some]. rewrite trim_blank.
    destruct (is_blank l); [apply IH|].
    destruct (startsWith (lit "  ") l); [|now rewrite app_nil_r].
    rewrite IH. now rewrite <- app_assoc.
Qed.

Lemma existsb_join (ls : list str) :
  existsb is_dot (join [LF] ls) = existsb is_dot (concat ls).
Proof.
  induction ls as [|l ls IH]; [reflexivity|].
  destruct ls as [|l' ls].
  - cbn [join concat]. now rewrite app_nil_r.
  - change (join [LF] (l :: l' :: ls)) with (l ++ LF :: join [LF] (l' :: ls)).
    change (concat (l :: l' :: ls)) with (l ++ concat (l' :: ls)).
    rewrite !existsb_app. cbn [existsb].
    change (is_dot LF) with false. cbn [orb]. now rewrite IH.
Qed.

Lemma existsb_rest_text (tail : str) (after : list str) :
  existsb is_dot (tail ++ rest_text after) = existsb is_dot (tail ++ concat after).
Proof.
  rewrite !existsb_app. f_equal. destruct after as [|l ls]; [reflexivity|].
  unfold rest_text. cbn [existsb]. change (is_dot LF) with false.
  cbn [orb]. apply existsb_join.
Qed.

Lemma stops_rest_text (after : list str) : stops is_dot (rest_text after).
Proof. destruct after; [exact I | reflexivity]. Qed.

(** The header the code recognizes in a marker file, and the first match
    of the pattern of line 82 in it. *)
Section Extraction.

Variables (before after : list str) (value body : str).

Local Abbreviation lines := (before ++ (KEY ++ value) :: after).
Local Abbreviation yaml := (join [LF] lines).

Hypothesis lines_ok : Forall (fun l => ~ In LF l) lines.
Hypothesis text_first : starts_with_text yaml = true.
Hypothesis no_delim : Forall (fun l => startsWith DELIM l = false) lines.
Hypothesis no_key_before : Forall (fun l => key_free l = true) before.

Lemma yaml_lines : split_on LF yaml = lines.
Proof. apply split_on_join; [now destruct before | exact lines_ok]. Qed.

Lemma marker_header : header_of (marker_of lines body) = Some yaml.
Proof.
  apply frontmatter_exact; [exact text_first|].
  rewrite yaml_lines. intros l Hl. rewrite Forall_forall in no_delim.
  apply no_delim. destruct lines; [destruct Hl | now right].
Qed.

Lemma yaml_search (m : caps) :
  rmatch re_description (match before with [] => None | _ => Some LF end)
    (KEY ++ value ++ rest_text after) [] (fun _ _ c => Some c) = Some m ->
  exec re_description yaml = Some m.
Proof.
  intros H. unfold exec. rewrite join_lines, <- app_assoc.
  rewrite search_skip_lines by exact no_key_before.
  now apply search_here.
Qed.

Lemma parse_with_header :
  parseDescription (marker_of lines body) =
  match exec re_description yaml with
  | None => None
  | Some descMatch =>
      if match get_cap 1 descMatch with
         | Some g => str_eqb g (lit ">")
         | None => false
         end
      then Some (join (lit " ") (foldedLoop lines false []))
      else match get_cap 2 descMatch with
           | Some v => Some (trim v)
           | None => None
           end
  end.
Proof.
  pose proof marker_header as H. unfold header_of in H.
  unfold parseDescription.
  destruct (exec re_frontmatter (marker_of lines body)) as [m|];
    [|discriminate].
  rewrite H. now rewrite yaml_lines.
Qed.

Lemma extraction_folded (ws1 tail : str) :
  value = ws1 ++ lit ">" ++ tail ->
  Forall (fun x => is_space x = true) ws1 ->
  existsb is_dot (tail ++ concat after) = true ->
  Forall (fun l => startsWith KEY l = false) after ->
  parseDescription (marker_of lines body)
  = Some (join (lit " ") (continuation after)).
Proof.
  intros Hv Hws Hdot Hafter. rewrite parse_with_header.
  destruct (description_folded
              (match before with [] => None | _ => Some LF end)
              ws1 tail (rest_text after)) as [m [Hm Hcap]];
    [now destruct before | exact Hws | now rewrite existsb_rest_text |].
  rewrite (yaml_search m) by (now rewrite Hv, <- app_assoc in *).
  rewrite Hcap, str_eqb_refl. f_equal. f_equal.
  rewrite foldedLoop_before.
  - cbn [foldedLoop]. rewrite Hv, exec_folded_some by exact Hws.
    now rewrite foldedLoop_after.
  - eapply Forall_impl; [|exact no_key_before]. apply key_free_start.
Qed.

Lemma extraction_inline (ws v : str) (c : ascii) :
  value = ws ++ c :: v ->
  Forall (fun x => is_space x = true) ws ->
  is_space c = false -> c <> ">"%char ->
  Forall (fun x => is_dot x = true) (c :: v) ->
  parseDescription (marker_of lines body) = Some (trim value).
Proof.
  intros Hv Hws Hc Hgt Hdots. rewrite parse_with_header.
  rewrite (yaml_search (set_cap 2 (c :: v) [])).
  - cbn [get_cap nth set_cap]. now rewrite Hv, trim_leading.
  - rewrite Hv, app_assoc.
    apply description_inline; try assumption;
      [now destruct before | apply stops_rest_text].
Qed.

End Extraction.

(** * The claims *)

(** ** C1: installing twice *)




(** In [ex_state] the first call installs and the second finds the skill
    installed. *)
Example install_twice_example :
  handleInstallSkill ex_PLUGINS_DIR ex_HOME code_unit_compare (lit "foo")
    ex_state
  = Ok (Installed (lit "foo") (lit "/home/user/.gemini/skills/foo"),
        ex_state_installed) /\
  handleInstallSkill ex_PLUGINS_DIR ex_HOME code_unit_compare (lit "foo")
    ex_state_installed
  = Ok (AlreadyInstalled (lit "foo") (lit "/home/user/.gemini/skills/foo"),
        ex_state_installed).
Proof. split; vm_compute; reflexivity. Qed.

(** ** C6: a name that is not in the catalog *)

(** C6: when the requested name is the name of no entry of the freshly
    built catalog, [handleInstallSkill] returns [NotFound] and the state of
    the file system is unchanged. *)
Theorem install_not_found
    (PLUGINS_DIR HOME : str) (localeCompare : str -> str -> Z)
    (st : fs) (skillName : str) (catalog : list skill) :
  findSkills PLUGINS_DIR localeCompare st = Ok catalog ->
  (forall e, In e catalog -> name e <> skillName) ->
  handleInstallSkill PLUGINS_DIR HOME localeCompare skillName st
  = Ok (NotFound skillName, st).
Proof.
  intros Hcat Hno. unfold handleInstallSkill. rewrite Hcat.
  assert (E : find (fun s => str_eqb (name s) skillName) catalog = None).
  { apply find_none_iff. intros e He. apply str_eqb_neq. now apply Hno. }
  now rewrite E.
Qed.

Lemma install_not_found_witness :
  handleInstallSkill ex_PLUGINS_DIR ex_HOME code_unit_compare (lit "bar")
    ex_state
  = Ok (NotFound (lit "bar"), ex_state).
Proof.
  eapply (install_not_found ex_PLUGINS_DIR ex_HOME code_unit_compare ex_state).
  - vm_compute. reflexivity.
  - intros e [<-|[]]. vm_compute. discriminate.
Defined.

(** ** C7: what an installation copies *)



(** The round trip of the specification: the skill directory of [foo]
    holds [SKILL.md] and [resource.txt]; after the installation both stand
    below the destination with the content of the source. *)
Example install_roundtrip :
  handleInstallSkill ex_PLUGINS_DIR ex_HOME code_unit_compare (lit "foo")
    ex_state
  = Ok (Installed (lit "foo") (lit "/home/user/.gemini/skills/foo"),
        ex_state_installed) /\
  lookup_path (home ex_state_installed)
    [lit ".gemini"; lit "skills"; lit "foo"; lit "SKILL.md"]
  = Some (File true ex_marker) /\
  lookup_path (home ex_state_installed)
    [lit ".gemini"; lit "skills"; lit "foo"; lit "resource.txt"]
  = Some (File true (lit "some data")).
Proof. repeat split; vm_compute; reflexivity. Qed.

(** ** C3: when the catalog is empty *)

(** C3, as stated, fails: a scan root that exists but cannot be read makes
    [readdirSync] throw, and nothing in [walkSync] or [findSkills] catches
    the exception. *)
Lemma findSkills_unreadable_counterexample :
  findSkills ex_PLUGINS_DIR code_unit_compare ex_state_unreadable
  = Throw EACCES.
Proof. reflexivity. Qed.

(** C3 (amended): [findSkills] returns the empty catalog when the scan
    root is absent, and when it is a directory tree whose directories can
    all be read, whose entries [statSync] all reaches and which holds no
    marker file (the names of its entries being names of directory
    entries: not empty, without a separator). It catches no failure of
    the walk: a scan root that is a directory throws as soon as one of its
    directories cannot be read or one of its entries cannot be reached,
    with EACCES when it is the root that cannot be read. *)
Theorem findSkills_empty
    (PLUGINS_DIR : str) (localeCompare : str -> str -> Z) (st : fs) :
  (plugins st = None \/
   (exists r es,
       plugins st = Some (Dir r es) /\
       dirs_readable (Dir r es) = true /\
       reachable (stat_error st) PLUGINS_DIR (Dir r es) = true /\
       valid_names (Dir r es) = true /\
       marker_free (Dir r es) = true) ->
   findSkills PLUGINS_DIR localeCompare st = Ok []) /\
  (forall r es,
      plugins st = Some (Dir r es) ->
      dirs_readable (Dir r es)
      && reachable (stat_error st) PLUGINS_DIR (Dir r es) = false ->
      exists e,
        findSkills PLUGINS_DIR localeCompare st = Throw e /\
        (r = false -> e = EACCES)).
Proof.
  unfold findSkills, discover. split.
  - intros [-> | [r [es [-> [Hr [Hs [Hv Hm]]]]]]]; [reflexivity|].
    destruct (walk_marker_free (stat_error st) (Dir r es) PLUGINS_DIR [] r es
                eq_refl Hr Hs Hv Hm) as [out [E Hout]].
    rewrite E. cbn [app].
    assert (F : filter (fun f => str_eqb (basename f) (lit "SKILL.md")) out
                = []).
    { apply filter_none, Hout. }
    now rewrite F.
  - intros r es -> Hc.
    destruct (walkSync (stat_error st) PLUGINS_DIR (Dir r es) [])
      as [out|e] eqn:Ew.
    + destruct (walk_ok_inv _ _ _ _ _ r es eq_refl Ew) as [H1 H2].
      rewrite H1, H2 in Hc. discriminate.
    + exists e. split; [reflexivity|]. intros ->.
      cbn in Ew. now injection Ew as <-.
Qed.

Lemma findSkills_empty_witness :
  findSkills ex_PLUGINS_DIR code_unit_compare ex_state_no_marker = Ok [] /\
  exists e,
    findSkills ex_PLUGINS_DIR code_unit_compare ex_state_dangling = Throw e /\
    (true = false -> e = EACCES).
Proof.
  split.
  - apply (proj1 (findSkills_empty ex_PLUGINS_DIR code_unit_compare
                    ex_state_no_marker)).
    right. eexists. eexists.
    split; [reflexivity|]. repeat split; vm_compute; reflexivity.
  - eapply (proj2 (findSkills_empty ex_PLUGINS_DIR code_unit_compare
                     ex_state_dangling)).
    + reflexivity.
    + vm_compute. reflexivity.
Defined.

(** An absent scan root gives the empty catalog as well. *)
Example findSkills_absent (PLUGINS_DIR : str) (cmp : str -> str -> Z)
        (stat : str -> option stat_failure) (h : node) :
  findSkills PLUGINS_DIR cmp
    {| plugins := None; stat_error := stat; home := h |} = Ok [].
Proof. reflexivity. Qed.

(** A scan root without marker file that lists a symbolic link to a place
    that does not exist: [statSync] throws at the link, and so does
    [findSkills]. *)
Example findSkills_dangling :
  marker_free (Dir true [(lit "README.md", File true (lit "read me"));
                         (lit "link", File true [])]) = true /\
  findSkills ex_PLUGINS_DIR code_unit_compare ex_state_dangling
  = Throw ENOENT.
Proof. split; reflexivity. Qed.

(** ** C2: the derived name *)

(** C2: the catalog holds one entry for every discovered marker file and
    nothing else; the name of the entry is the ["-"]-join of the segments
    the specification describes, which hold no segment ["skills"] and no
    two identical neighbours. *)
Theorem derived_names
    (PLUGINS_DIR : str) (localeCompare : str -> str -> Z)
    (st : fs) (catalog : list skill) :
  findSkills PLUGINS_DIR localeCompare st = Ok catalog ->
  (forall skillFile,
      discovered PLUGINS_DIR st skillFile ->
      In (skillOf PLUGINS_DIR st skillFile) catalog) /\
  (forall e,
      In e catalog ->
      exists skillFile,
        discovered PLUGINS_DIR st skillFile /\
        e = skillOf PLUGINS_DIR st skillFile) /\
  (forall skillFile,
      let segs := name_segments PLUGINS_DIR (dirname skillFile) in
      name (skillOf PLUGINS_DIR st skillFile) = join (lit "-") segs /\
      ~ In (lit "skills") segs /\
      no_adjacent_dup segs).
Proof.
  intros Hcat. unfold findSkills, discover in Hcat. split; [|split].
  - intros skillFile [n [allFiles [Hp [Hw [Hin Hb]]]]].
    rewrite Hp, Hw in Hcat. injection Hcat as <-.
    apply sort_In, in_map, filter_In. now split.
  - intros e He. destruct (plugins st) as [n|] eqn:Hp.
    + destruct (walkSync (stat_error st) PLUGINS_DIR n [])
        as [allFiles|x] eqn:Hw; [|discriminate].
      injection Hcat as <-. apply sort_In in He.
      apply in_map_iff in He as [f [<- Hf]]. apply filter_In in Hf as [Hin Hb].
      exists f. split; [|reflexivity]. now exists n, allFiles.
    + injection Hcat as <-. destruct He.
  - intros skillFile segs. subst segs. cbn [name skillOf].
    rewrite finalPartsOf_spec. split; [reflexivity|]. split.
    + apply name_segments_no_skills.
    + apply collapse_from_no_adjacent_dup.
Qed.

Lemma derived_names_witness :
  (forall skillFile,
      discovered ex_PLUGINS_DIR ex_state skillFile ->
      In (skillOf ex_PLUGINS_DIR ex_state skillFile)
        [{| name := lit "foo"; path := lit "/ext/plugins/foo/skills/foo";
            description := lit "Hello world" |}]) /\
  (forall e,
      In e [{| name := lit "foo"; path := lit "/ext/plugins/foo/skills/foo";
               description := lit "Hello world" |}] ->
      exists skillFile,
        discovered ex_PLUGINS_DIR ex_state skillFile /\
        e = skillOf ex_PLUGINS_DIR ex_state skillFile) /\
  (forall skillFile,
      let segs := name_segments ex_PLUGINS_DIR (dirname skillFile) in
      name (skillOf ex_PLUGINS_DIR ex_state skillFile) = join (lit "-") segs /\
      ~ In (lit "skills") segs /\
      no_adjacent_dup segs).
Proof.
  apply (derived_names ex_PLUGINS_DIR code_unit_compare ex_state).
  vm_compute. reflexivity.
Defined.

(** The directory [foo/skills/foo] gives the segments [foo], and a longer
    path shows the order of the two steps: the segment ["skills"] goes
    first, then the neighbours that became identical collapse. *)
Example name_segments_examples :
  name_segments ex_PLUGINS_DIR (lit "/ext/plugins/foo/skills/foo") = [lit "foo"] /\
  name_segments ex_PLUGINS_DIR (lit "/ext/plugins/a/b/skills/b/b/c/a")
  = [lit "a"; lit "b"; lit "c"; lit "a"] /\
  name_segments ex_PLUGINS_DIR ex_PLUGINS_DIR = [[]].
Proof. repeat split; vm_compute; reflexivity. Qed.

(** ** C8: the order of the catalog *)

Lemma code_unit_compare_refl (a : str) : code_unit_compare a a = 0%Z.
Proof.
  induction a as [|x a IH]; simpl; [reflexivity|].
  now rewrite Nat.compare_refl.
Qed.

Lemma code_unit_compare_total (a b : str) :
  (0 < code_unit_compare a b)%Z -> (code_unit_compare b a <= 0)%Z.
Proof.
  revert b. induction a as [|x a IH]; intros [|y b]; simpl; try lia.
  destruct (Nat.compare_spec (nat_of_ascii x) (nat_of_ascii y)) as [E|E|E].
  - rewrite E, Nat.compare_refl. apply IH.
  - lia.
  - intros _. apply Nat.compare_lt_iff in E. rewrite E. lia.
Qed.

Lemma code_unit_compare_trans (a b c : str) :
  (code_unit_compare a b <= 0)%Z -> (code_unit_compare b c <= 0)%Z ->
  (code_unit_compare a c <= 0)%Z.
Proof.
  revert b c. induction a as [|x a IH]; intros [|y b] [|z c]; simpl; try lia.
  destruct (Nat.compare_spec (nat_of_ascii x) (nat_of_ascii y)) as [E1|E1|E1];
    destruct (Nat.compare_spec (nat_of_ascii y) (nat_of_ascii z)) as [E2|E2|E2];
    destruct (Nat.compare_spec (nat_of_ascii x) (nat_of_ascii z)) as [E3|E3|E3];
    try lia.
  apply IH.
Qed.

(** C8: for a comparator that is a total preorder on names, every catalog
    [findSkills] returns is non-decreasing by name, and it holds the
    discovered entries with the entries of one name in their order of
    discovery. *)
Theorem catalog_sorted_stable
    (PLUGINS_DIR : str) (localeCompare : str -> str -> Z)
    (st : fs) (catalog : list skill) :
  (forall a b, (0 < localeCompare a b)%Z -> (localeCompare b a <= 0)%Z) ->
  (forall a, localeCompare a a = 0%Z) ->
  (forall a b c, (localeCompare a b <= 0)%Z -> (localeCompare b c <= 0)%Z ->
                 (localeCompare a c <= 0)%Z) ->
  findSkills PLUGINS_DIR localeCompare st = Ok catalog ->
  StronglySorted
    (fun a b => (localeCompare (name a) (name b) <= 0)%Z) catalog /\
  exists found,
    discover PLUGINS_DIR st = Ok found /\
    Permutation found catalog /\
    forall n,
      filter (fun s => str_eqb (name s) n) catalog
      = filter (fun s => str_eqb (name s) n) found.
Proof.
  intros Htotal Hrefl Htrans. unfold findSkills.
  destruct (discover PLUGINS_DIR st) as [found|e]; [|discriminate].
  intros H. injection H as <-. split.
  - now apply sort_sorted.
  - exists found. split; [reflexivity|]. split.
    + apply sort_perm.
    + intros n. now apply sort_stable.
Qed.

Lemma catalog_sorted_stable_witness :
  StronglySorted
    (fun a b => (code_unit_compare (name a) (name b) <= 0)%Z) ex_catalog_many /\
  exists found,
    discover ex_PLUGINS_DIR ex_state_many = Ok found /\
    Permutation found ex_catalog_many /\
    forall n,
      filter (fun s => str_eqb (name s) n) ex_catalog_many
      = filter (fun s => str_eqb (name s) n) found.
Proof.
  apply (catalog_sorted_stable ex_PLUGINS_DIR code_unit_compare ex_state_many).
  - exact code_unit_compare_total.
  - exact code_unit_compare_refl.
  - exact code_unit_compare_trans.
  - vm_compute. reflexivity.
Defined.

(** Two markers derive the name [alpha]; the catalog lists them first, in
    the order in which the walk found them, although [zeta] was found
    before both. *)
Example catalog_order :
  map (fun s => (name s, description s)) ex_catalog_many
  = [(lit "alpha", lit "first"); (lit "alpha", lit "second");
     (lit "zeta", lit "last")].
Proof. vm_compute. reflexivity. Qed.

(** ** C9: the empty name *)

Lemma join_split_on (sep : ascii) (s : str) : join [sep] (split_on sep s) = s.
Proof.
  induction s as [|c s IH]; [reflexivity|]. simpl.
  destruct (Ascii.eqb c sep) eqn:E.
  - apply Ascii.eqb_eq in E. subst c.
    destruct (split_on sep s) as [|w ws] eqn:Es;
      [now apply split_on_not_nil in Es|].
    change (join [sep] ([] :: w :: ws)) with (sep :: join [sep] (w :: ws)).
    now rewrite IH.
  - destruct (split_on sep s) as [|w ws] eqn:Es;
      [now apply split_on_not_nil in Es|].
    rewrite <- IH. destruct ws; reflexivity.
Qed.

Lemma dirname_join (dir file : str) :
  dir <> [] -> file <> [] -> ~ In SEP file ->
  dirname (path_join dir file) = dir.
Proof.
  intros Hd Hf Hs. unfold dirname, path_join.
  destruct file as [|c f]; [contradiction|]. cbn [is_empty].
  rewrite split_on_app, (split_on_no_sep _ _ Hs), removelast_last.
  destruct (split_on SEP dir) as [|w ws] eqn:E;
    [now apply split_on_not_nil in E|].
  rewrite <- E, join_split_on.
  destruct dir; [contradiction | reflexivity].
Qed.

(** A marker right in the scan root derives the empty name. *)
Lemma root_marker_name (PLUGINS_DIR : str) (st : fs) :
  PLUGINS_DIR <> [] ->
  name (skillOf PLUGINS_DIR st (path_join PLUGINS_DIR (lit "SKILL.md"))) = [].
Proof.
  intros Hne. cbn [name skillOf]. unfold finalPartsOf.
  rewrite dirname_join; [|assumption|discriminate|].
  - unfold path_relative. rewrite drop_common_refl. reflexivity.
  - cbv. intuition discriminate.
Qed.

(** C9: the install entry point raises the same fault for an empty
    [skill_name] as for a missing one, and calls [handleInstallSkill] only
    with a name that is not empty; a skill whose marker stands right in
    the scan root has the empty name, which no request can pass on. *)
Theorem empty_name_unreachable
    (PLUGINS_DIR HOME : str) (localeCompare : str -> str -> Z)
    (describe : exn -> str) (req : request) (st : fs) :
  PLUGINS_DIR <> [] ->
  tool req = INSTALL_TOOL ->
  name (skillOf PLUGINS_DIR st (path_join PLUGINS_DIR (lit "SKILL.md"))) = [] /\
  (arguments req = Some (Some []) \/ arguments req = Some None ->
   callTool PLUGINS_DIR HOME localeCompare describe req st
   = Throw MISSING_ARGUMENT) /\
  (forall text st',
      callTool PLUGINS_DIR HOME localeCompare describe req st = Ok (text, st') ->
      exists skillName o,
        arguments req = Some (Some skillName) /\
        skillName <> [] /\
        handleInstallSkill PLUGINS_DIR HOME localeCompare skillName st
        = Ok (o, st') /\
        text = message describe o).
Proof.
  intros Hne Htool. split; [now apply root_marker_name|].
  unfold callTool. rewrite Htool.
  change (str_eqb INSTALL_TOOL (lit "list_marketplace_skills")) with false.
  change (str_eqb INSTALL_TOOL (lit "install_marketplace_skill")) with true.
  cbv iota. split.
  - now intros [-> | ->].
  - intros text st'.
    destruct (arguments req) as [[[|c s]|]|]; try discriminate.
    cbn [is_empty].
    destruct (handleInstallSkill PLUGINS_DIR HOME localeCompare (c :: s) st)
      as [[o st1]|e] eqn:E; [|discriminate].
    intros H. injection H as <- <-.
    exists (c :: s), o.
    split; [reflexivity|]. split; [discriminate|]. split; [exact E|reflexivity].
Qed.

Lemma empty_name_unreachable_witness :
  name (skillOf ex_PLUGINS_DIR ex_state
          (path_join ex_PLUGINS_DIR (lit "SKILL.md"))) = [] /\
  (arguments ex_request_empty = Some (Some []) \/
   arguments ex_request_empty = Some None ->
   callTool ex_PLUGINS_DIR ex_HOME code_unit_compare ex_describe
     ex_request_empty ex_state
   = Throw MISSING_ARGUMENT) /\
  (forall text st',
      callTool ex_PLUGINS_DIR ex_HOME code_unit_compare ex_describe
        ex_request_empty ex_state
      = Ok (text, st') ->
      exists skillName o,
        arguments ex_request_empty = Some (Some skillName) /\
        skillName <> [] /\
        handleInstallSkill ex_PLUGINS_DIR ex_HOME code_unit_compare skillName
          ex_state
        = Ok (o, st') /\
        text = message ex_describe o).
Proof.
  apply (empty_name_unreachable ex_PLUGINS_DIR ex_HOME code_unit_compare
           ex_describe ex_request_empty ex_state).
  - vm_compute. discriminate.
  - reflexivity.
Defined.

(** A request with a name that is not empty reaches the installer. *)
Example install_request :
  callTool ex_PLUGINS_DIR ex_HOME code_unit_compare ex_describe
    {| tool := INSTALL_TOOL; arguments := Some (Some (lit "foo")) |} ex_state
  = Ok (lit "Successfully installed 'foo' to /home/user/.gemini/skills/foo.",
        ex_state_installed).
Proof. vm_compute. reflexivity. Qed.

(** ** C5: the placeholder *)

Lemma parse_no_header (content : str) :
  exec re_frontmatter content = None -> parseDescription content = None.
Proof. unfold parseDescription. now intros ->. Qed.

Lemma parse_missing_header (content : str) :
  startsWith DELIM content = false -> exec re_frontmatter content = None.
Proof.
  intros H. destruct (exec re_frontmatter content) as [m|] eqn:E;
    [|reflexivity].
  apply frontmatter_sound in E as [w1 [g [w2 [rest [-> _]]]]].
  now rewrite startsWith_app in H.
Qed.

Lemma parse_no_closing (content : str) :
  ~ has_closing content -> exec re_frontmatter content = None.
Proof.
  intros H. destruct (exec re_frontmatter content) as [m|] eqn:E;
    [|reflexivity].
  apply frontmatter_sound in E as [w1 [g [w2 [rest [-> [_ [Hw2 _]]]]]]].
  exfalso. apply H. exists (w1 ++ LF :: g), w2, rest. split; [|assumption].
  now rewrite <- !app_assoc.
Qed.

Lemma parse_no_key (content : str) :
  (forall yaml, header_of content = Some yaml -> key_free yaml = true) ->
  parseDescription content = None.
Proof.
  unfold header_of, parseDescription. intros H.
  destruct (exec re_frontmatter content) as [m|]; [|reflexivity].
  destruct (get_cap 1 m) as [yaml|]; [|reflexivity].
  unfold exec. now rewrite (search_key_free yaml None (H yaml eq_refl)).
Qed.

Lemma readDescription_none (content : str) :
  parseDescription content = None ->
  readDescription (Ok content) = NO_DESCRIPTION.
Proof. unfold readDescription. now intros ->. Qed.

(** C5: a discovered marker file that cannot be read, whose content does
    not start with the opening delimiter, has no closing delimiter, or
    whose header has no line beginning with [description:], is listed in
    the catalog with the placeholder as its description; [findSkills]
    returns all the same. *)
Theorem placeholder_description
    (PLUGINS_DIR : str) (localeCompare : str -> str -> Z)
    (st : fs) (skillFile : str) :
  discovered PLUGINS_DIR st skillFile ->
  (exists e, readFileSync PLUGINS_DIR st skillFile = Throw e) \/
  (exists content,
      readFileSync PLUGINS_DIR st skillFile = Ok content /\
      (startsWith DELIM content = false \/
       ~ has_closing content \/
       (forall yaml, header_of content = Some yaml -> key_free yaml = true))) ->
  exists catalog,
    findSkills PLUGINS_DIR localeCompare st = Ok catalog /\
    In (skillOf PLUGINS_DIR st skillFile) catalog /\
    description (skillOf PLUGINS_DIR st skillFile) = NO_DESCRIPTION.
Proof.
  intros Hd Hfile.
  assert (Hdesc : description (skillOf PLUGINS_DIR st skillFile) = NO_DESCRIPTION).
  { cbn [description skillOf].
    destruct Hfile as [[e ->] | [content [-> H]]]; [reflexivity|].
    apply readDescription_none.
    destruct H as [H | [H | H]].
    - now apply parse_no_header, parse_missing_header.
    - now apply parse_no_header, parse_no_closing.
    - now apply parse_no_key. }
  destruct Hd as [n [allFiles [Hp [Hw [Hin Hb]]]]].
  unfold findSkills, discover. rewrite Hp, Hw. eexists.
  split; [reflexivity|]. split; [|exact Hdesc].
  apply sort_In, in_map, filter_In. now split.
Qed.

Lemma placeholder_description_witness :
  exists catalog,
    findSkills ex_PLUGINS_DIR code_unit_compare ex_state_secret = Ok catalog /\
    In (skillOf ex_PLUGINS_DIR ex_state_secret (lit "/ext/plugins/foo/SKILL.md"))
      catalog /\
    description
      (skillOf ex_PLUGINS_DIR ex_state_secret (lit "/ext/plugins/foo/SKILL.md"))
    = NO_DESCRIPTION.
Proof.
  apply (placeholder_description ex_PLUGINS_DIR code_unit_compare
           ex_state_secret (lit "/ext/plugins/foo/SKILL.md")).
  - eexists. eexists. split; [reflexivity|].
    split; [vm_compute; reflexivity|].
    split; [left; reflexivity | vm_compute; reflexivity].
  - left. eexists. vm_compute. reflexivity.
Defined.

(** The three defects of a readable marker file, on examples. *)
Example placeholder_examples :
  readDescription (Ok ex_marker_leading) = NO_DESCRIPTION /\
  readDescription (Ok ex_marker_unclosed) = NO_DESCRIPTION /\
  readDescription (Ok ex_marker_no_key) = NO_DESCRIPTION /\
  readDescription (Ok ex_marker) = lit "Hello world".
Proof. repeat split; vm_compute; reflexivity. Qed.

(** ** C10: where the header is recognized *)

Lemma split_on_head_prefix (sep : ascii) (p u : str) :
  ~ In sep p ->
  exists b bs, split_on sep (p ++ u) = b :: bs /\ startsWith p b = true.
Proof.
  induction p as [|x p IH]; intros Hp.
  - destruct (split_on sep u) as [|b bs] eqn:E;
      [now apply split_on_not_nil in E|].
    exists b, bs. split; [exact E | reflexivity].
  - destruct IH as [b [bs [E Hb]]]; [intros H; apply Hp; now right|].
    simpl. destruct (Ascii.eqb x sep) eqn:Ex.
    + apply Ascii.eqb_eq in Ex. exfalso. apply Hp. left. congruence.
    + rewrite E. exists (x :: b), bs. split; [reflexivity|].
      simpl. now rewrite Ascii.eqb_refl.
Qed.

Lemma inner_member {A} (xs ys middle : list A) (b first lastl : A) :
  xs ++ b :: ys = first :: middle ++ [lastl] ->
  xs <> [] -> ys <> [] -> In b middle.
Proof.
  intros E Hx Hy. destruct xs as [|x xs]; [contradiction|].
  destruct (exists_last Hy) as [ys' [y ->]].
  injection E as _ E.
  change (xs ++ b :: ys' ++ [y]) with (xs ++ (b :: ys') ++ [y]) in E.
  rewrite app_assoc in E. apply app_inj_tail in E as [<- _].
  apply in_or_app. right. now left.
Qed.

(** A closing delimiter is a line that is neither the first nor the last
    of the content. *)
Lemma closing_is_inner_line (content first lastl : str) (middle : list str) :
  split_on LF content = first :: middle ++ [lastl] ->
  has_closing content ->
  exists l, In l middle /\ startsWith DELIM l = true.
Proof.
  intros Hlines [a [w [b [-> _]]]].
  rewrite app_assoc, split_on_app in Hlines.
  replace (DELIM ++ w ++ LF :: b) with ((DELIM ++ w) ++ LF :: b) in Hlines
    by now rewrite <- app_assoc.
  rewrite split_on_app in Hlines.
  destruct (split_on_head_prefix LF DELIM w) as [l [ls [E Hl]]].
  { cbv. intuition discriminate. }
  rewrite E in Hlines. exists l. split; [|exact Hl].
  change ((l :: ls) ++ split_on LF b) with (l :: (ls ++ split_on LF b)) in Hlines.
  eapply inner_member; [exact Hlines | apply split_on_not_nil |].
  intros H. apply app_eq_nil in H as [_ H]. now apply split_on_not_nil in H.
Qed.

(** C10: when the content does not start with [---], and when its last
    line starts with [---], has no line feed after it and no line between
    the first and the last starts with [---], no header is recognized and
    the description is the placeholder. *)
Theorem header_recognition (content : str) :
  startsWith DELIM content = false \/
  (exists first middle t,
      content = join [LF] (first :: middle ++ [DELIM ++ t]) /\
      Forall (fun l => ~ In LF l) (first :: middle) /\
      ~ In LF t /\
      Forall (fun l => startsWith DELIM l = false) middle) ->
  header_of content = None /\
  readDescription (Ok content) = NO_DESCRIPTION.
Proof.
  intros H.
  assert (E : exec re_frontmatter content = None).
  { destruct H as [H | [first [middle [t [-> [Hl [Ht Hm]]]]]]].
    - now apply parse_missing_header.
    - apply parse_no_closing. intros Hc.
      destruct (closing_is_inner_line
                  (join [LF] (first :: middle ++ [DELIM ++ t]))
                  first (DELIM ++ t) middle) as [l [Hin Hs]]; [|exact Hc|].
      + apply (split_on_join LF (first :: middle ++ [DELIM ++ t]));
          [discriminate|].
        inversion Hl as [|? ? Hf Hmid]; subst. constructor; [exact Hf|].
        apply Forall_app. split; [exact Hmid|].
        constructor; [|constructor].
        intros Hin. apply in_app_or in Hin as [Hin|Hin]; [|now apply Ht].
        cbv in Hin. intuition discriminate.
      + rewrite Forall_forall in Hm. rewrite (Hm l Hin) in Hs. discriminate. }
  split.
  - unfold header_of. now rewrite E.
  - now apply readDescription_none, parse_no_header.
Qed.

Lemma header_recognition_witness :
  header_of ex_marker_unclosed = None /\
  readDescription (Ok ex_marker_unclosed) = NO_DESCRIPTION.
Proof.
  apply header_recognition. right.
  exists (lit "---"), [lit "description: Hello world"], [].
  split; [reflexivity|]. split; [|split].
  - repeat constructor; cbv; intuition discriminate.
  - intros [].
  - repeat constructor.
Defined.

(** A line feed before the opening delimiter, and the same header at the
    very start with a line feed after the closing delimiter. *)
Example header_recognition_examples :
  header_of ex_marker_leading = None /\
  header_of (marker_with "Hello world")
  = Some (lit "description: Hello world").
Proof. split; vm_compute; reflexivity. Qed.

(** ** C4: the description of a well-formed header *)

(** C4, as stated, fails: a blank line between two continuation lines
    does not end a folded value, the loop of lines 89-102 passes over it
    ([continue], line 95). *)
Lemma description_extraction_counterexample :
  parseDescription ex_marker_folded = Some (lit "line one line two") /\
  join (lit " ") (claimed_continuation ex_folded_after) = lit "line one".
Proof. split; vm_compute; reflexivity. Qed.

(** C4 (amended): in a marker file whose header starts with text, has no
    line starting with [---] and has its first line beginning with
    [description:] followed by [value]:
    - if [value] is white space, the folded indicator [>] and a rest, and
      a character that is not a line terminator follows the indicator in
      the header, the description is made of the header lines after it
      (none of which begins with [description:]): blank lines are passed
      over, lines that begin with two spaces are taken, up to the first
      line that is neither; the lines taken are trimmed and joined with
      one space;
    - if [value] is white space followed by a character that is neither
      white space nor [>], and holds no line terminator from there on,
      the description is [value], trimmed. *)
Theorem description_extraction (before after : list str) (value body : str) :
  Forall (fun l => ~ In LF l) (before ++ (KEY ++ value) :: after) ->
  starts_with_text (join [LF] (before ++ (KEY ++ value) :: after)) = true ->
  Forall (fun l => startsWith DELIM l = false)
    (before ++ (KEY ++ value) :: after) ->
  Forall (fun l => key_free l = true) before ->
  (forall ws1 tail,
      value = ws1 ++ lit ">" ++ tail ->
      Forall (fun x => is_space x = true) ws1 ->
      existsb is_dot (tail ++ concat after) = true ->
      Forall (fun l => startsWith KEY l = false) after ->
      parseDescription (marker_of (before ++ (KEY ++ value) :: after) body)
      = Some (join (lit " ") (continuation after))) /\
  (forall ws c v,
      value = ws ++ c :: v ->
      Forall (fun x => is_space x = true) ws ->
      is_space c = false -> c <> ">"%char ->
      Forall (fun x => is_dot x = true) (c :: v) ->
      parseDescription (marker_of (before ++ (KEY ++ value) :: after) body)
      = Some (trim value)).
Proof.
  intros Hlines Htext Hdelim Hkey. split.
  - intros ws1 tail. now apply extraction_folded.
  - intros ws c v. now apply extraction_inline.
Qed.

Lemma description_extraction_witness :
  parseDescription
    (marker_of (ex_folded_before ++ (KEY ++ lit " >") :: ex_folded_after)
       (lit "# Foo"))
  = Some (join (lit " ") (continuation ex_folded_after)).
Proof.
  refine (proj1 (description_extraction ex_folded_before ex_folded_after
                   (lit " >") (lit "# Foo") _ _ _ _)
            (lit " ") [] eq_refl _ _ _).
  - repeat constructor; cbv; intuition discriminate.
  - reflexivity.
  - repeat constructor.
  - repeat constructor.
  - repeat constructor.
  - reflexivity.
  - repeat constructor.
Defined.

(** The second part of the statement on the header of the specification:
    the value is the text after the key. *)
Example description_inline_example :
  parseDescription (marker_of [KEY ++ lit " Hello world"] []) =
  Some (lit "Hello world").
Proof.
  apply (extraction_inline [] [] (lit " Hello world") [])
    with (ws := lit " ") (c := "H"%char) (v := lit "ello world").
  - repeat constructor; cbv; intuition discriminate.
  - reflexivity.
  - repeat constructor.
  - constructor.
  - reflexivity.
  - repeat constructor.
  - reflexivity.
  - discriminate.
  - repeat constructor.
Qed.

(** The examples of the specification, and three headers on which the
    pattern of line 82 decides otherwise than one may expect: [>-] is
    taken for the folded indicator, a [>] that nothing follows is taken
    for the value, and a key without a value takes the next line. *)
Example description_examples :
  readDescription (Ok (marker_with "Hello world")) = lit "Hello world" /\
  readDescription
    (Ok (text ["---"; "description: >"; "  first line"; "  second line";
               "---"; EmptyString]%string))
  = lit "first line second line" /\
  readDescription (Ok ex_marker_folded) = lit "line one line two" /\
  readDescription
    (Ok (text ["---"; "description: >-"; "  first line"; "---"; EmptyString]%string))
  = lit "first line" /\
  readDescription (Ok (text ["---"; "description: >"; "---"; EmptyString]%string))
  = lit ">" /\
  readDescription
    (Ok (text ["---"; "description:"; "name: foo"; "---"; EmptyString]%string))
  = lit "name: foo".
Proof. repeat split; vm_compute; reflexivity. Qed.

(** * Further properties of the code *)

(** ** The walk (lines 26-39) *)

Lemma find_entry_some (es : list (str * node)) (x : str) (c : node) :
  find_entry x es = Some c -> In (x, c) es.
Proof.
  induction es as [|[y d] es IH]; simpl; [discriminate|].
  destruct (str_eqb y x) eqn:E.
  - apply str_eqb_eq in E. subst y. intros H. injection H as ->. now left.
  - intros H. right. now apply IH.
Qed.

Lemma listed_in_tree_files (dir : str) (n : node) (f : str) :
  listed dir n f -> In f (tree_files dir n).
Proof.
  intros [names [r [c [-> [Hne [Hnames Hl]]]]]].
  revert dir n Hne Hl. induction Hnames as [|x rest [Hx Hsep] Hrest IH];
    intros dir n Hne Hl; [contradiction|].
  destruct n as [r0 c0 | r0 es]; [discriminate|].
  cbn [lookup_path] in Hl.
  destruct (find_entry x es) as [child|] eqn:Ef; [|discriminate].
  apply find_entry_some in Ef. cbn [tree_files].
  apply in_flat_map. exists (x, child). split; [exact Ef|]. cbn [fst snd].
  assert (Hjoin : path_join dir x = dir ++ SEP :: x).
  { unfold path_join. now destruct x. }
  destruct rest as [|y rest].
  - cbn [lookup_path] in Hl. injection Hl as ->. cbn [join]. rewrite Hjoin.
    now left.
  - destruct child as [rc cc | rc ces]; [discriminate|].
    specialize (IH (path_join dir x) (Dir rc ces)).
    rewrite Hjoin, <- app_assoc in IH. rewrite Hjoin.
    change (join [SEP] (x :: y :: rest)) with (x ++ SEP :: join [SEP] (y :: rest)).
    apply IH; [discriminate | exact Hl].
Qed.

(** X1: The result of [walkSync]. On a file [readdirSync] fails with
    ENOTDIR. On a directory the walk returns exactly when every directory
    of the tree can be read and [statSync] reaches every entry; it then
    returns the list it was given, with the paths of all files of the tree
    appended in the order of the directory listings, the files of a
    subdirectory where the subdirectory stands in its parent. Otherwise
    it throws, and what it throws is EACCES for a directory of the tree
    that cannot be read or the exception of [statSync] at an entry of the
    tree: nothing is caught. *)
Theorem walkSync_result (stat : str -> option stat_failure) (dir : str)
        (n : node) (filelist : list str) :
  match n with
  | File _ _ => walkSync stat dir n filelist = Throw ENOTDIR
  | Dir _ _ =>
      if dirs_readable n && reachable stat dir n
      then walkSync stat dir n filelist = Ok (filelist ++ tree_files dir n)
      else
        exists e,
          walkSync stat dir n filelist = Throw e /\
          ((e = EACCES /\ dirs_readable n = false) \/
           (exists p f,
               In p (tree_paths dir n) /\ stat p = Some f /\ e = stat_exn f))
  end.
Proof.
  destruct n as [r c | r es]; [reflexivity|].
  destruct (dirs_readable (Dir r es) && reachable stat dir (Dir r es)) eqn:Hc.
  - apply andb_true_iff in Hc as [Hr Hs].
    now apply (walk_tree_files stat (Dir r es) dir filelist r es).
  - destruct (walkSync stat dir (Dir r es) filelist) as [out|e] eqn:Ew.
    + destruct (walk_ok_inv _ _ _ _ _ r es eq_refl Ew) as [H1 H2].
      rewrite H1, H2 in Hc. discriminate.
    + exists e. split; [reflexivity|].
      exact (walk_throw _ _ _ _ _ r es eq_refl Ew).
Qed.

(** X2: On a directory tree as a file system holds it (the names of a
    directory are pairwise different, not empty and without separator)
    whose directories can all be read and whose entries [statSync] all
    reaches, the walk returns exactly the paths of the files of the tree:
    every path it returns leads to a file, and every file is returned. *)
Theorem walkSync_exact (stat : str -> option stat_failure) (dir : str)
        (r : bool) (es : list (str * node)) :
  well_formed (Dir r es) = true ->
  dirs_readable (Dir r es) = true ->
  reachable stat dir (Dir r es) = true ->
  exists out,
    walkSync stat dir (Dir r es) [] = Ok out /\
    forall f, In f out <-> listed dir (Dir r es) f.
Proof.
  intros Hwf Hr Hs. exists (tree_files dir (Dir r es)).
  pose proof (walk_tree_files stat (Dir r es) dir [] r es eq_refl Hr Hs) as E.
  cbn [app] in E. split; [exact E|]. intros f. split.
  - intros Hin.
    destruct (walk_listed stat (Dir r es) dir [] _ Hwf E) as [new [Hnew Hall]].
    cbn [app] in Hnew. subst new. rewrite Forall_forall in Hall. now apply Hall.
  - apply listed_in_tree_files.
Qed.

Lemma walkSync_exact_witness :
  exists out,
    walkSync no_stat_error ex_PLUGINS_DIR ex_plugins [] = Ok out /\
    forall f, In f out <-> listed ex_PLUGINS_DIR ex_plugins f.
Proof.
  apply (walkSync_exact no_stat_error ex_PLUGINS_DIR true
           [(lit "foo",
             Dir true [(lit "skills", Dir true [(lit "foo", ex_skill_dir)])])]);
    reflexivity.
Defined.

(** ** The catalog (lines 41-123) *)

Section CatalogFacts.

Variable PLUGINS_DIR : str.
Variable HOME : str.
Variable localeCompare : str -> str -> Z.
Variable describe : exn -> str.

(** The exceptions of the file system calls of the walk. *)
Lemma findSkills_errors (st : fs) (e : exn) :
  findSkills PLUGINS_DIR localeCompare st = Throw e ->
  e = ENOTDIR \/ e = EACCES \/ exists f, e = stat_exn f.
Proof.
  unfold findSkills, discover.
  destruct (plugins st) as [[r c | r es]|]; [| |discriminate].
  - intros H. left. now injection H.
  - destruct (walkSync (stat_error st) PLUGINS_DIR (Dir r es) [])
      as [out|x] eqn:Ew; [discriminate|].
    intros H. injection H as <-. right.
    destruct (walk_throw _ _ _ _ _ r es eq_refl Ew)
      as [[-> _]|[p [f [_ [_ ->]]]]]; eauto.
Qed.

(** X3: [findSkills] as a function of what stands at the scan root:
    nothing there gives the empty catalog; a file makes [readdirSync] fail
    with ENOTDIR; a directory tree whose directories can all be read and
    whose entries [statSync] all reaches gives the catalog with one entry
    for every marker file of the tree, equal names included, sorted by
    name; any other directory tree makes the call throw, EACCES for a
    directory that cannot be read or the exception of [statSync] at an
    entry. *)
Theorem findSkills_tree (st : fs) :
  match plugins st with
  | None => findSkills PLUGINS_DIR localeCompare st = Ok []
  | Some (File _ _) => findSkills PLUGINS_DIR localeCompare st = Throw ENOTDIR
  | Some (Dir r es) =>
      if dirs_readable (Dir r es)
         && reachable (stat_error st) PLUGINS_DIR (Dir r es)
      then
        findSkills PLUGINS_DIR localeCompare st
        = Ok (sort localeCompare
                (map (skillOf PLUGINS_DIR st)
                   (marker_files PLUGINS_DIR (Dir r es))))
      else
        exists e,
          findSkills PLUGINS_DIR localeCompare st = Throw e /\
          ((e = EACCES /\ dirs_readable (Dir r es) = false) \/
           (exists p f,
               In p (tree_paths PLUGINS_DIR (Dir r es)) /\
               stat_error st p = Some f /\ e = stat_exn f))
  end.
Proof.
  unfold findSkills, discover.
  destruct (plugins st) as [[r c | r es]|]; [reflexivity| |reflexivity].
  destruct (dirs_readable (Dir r es)
            && reachable (stat_error st) PLUGINS_DIR (Dir r es)) eqn:Hc.
  - apply andb_true_iff in Hc as [Hr Hs].
    now rewrite (walk_tree_files _ (Dir r es) PLUGINS_DIR [] r es eq_refl Hr Hs).
  - destruct (walkSync (stat_error st) PLUGINS_DIR (Dir r es) [])
      as [out|e] eqn:Ew.
    + destruct (walk_ok_inv _ _ _ _ _ r es eq_refl Ew) as [H1 H2].
      rewrite H1, H2 in Hc. discriminate.
    + exists e. split; [reflexivity|].
      exact (walk_throw _ _ _ _ _ r es eq_refl Ew).
Qed.

Lemma handleListSkills_throws (st : fs) (e : exn) :
  handleListSkills PLUGINS_DIR localeCompare st = Throw e ->
  findSkills PLUGINS_DIR localeCompare st = Throw e.
Proof.
  unfold handleListSkills.
  destruct (findSkills PLUGINS_DIR localeCompare st) as [skills|x];
    [|intros H; now injection H as ->].
  destruct (length skills =? 0); discriminate.
Qed.

Lemma handleInstallSkill_throws (skillName : str) (st : fs) (e : exn) :
  handleInstallSkill PLUGINS_DIR HOME localeCompare skillName st = Throw e ->
  findSkills PLUGINS_DIR localeCompare st = Throw e.
Proof.
  unfold handleInstallSkill.
  destruct (findSkills PLUGINS_DIR localeCompare st) as [skills|x];
    [|intros H; now injection H as ->].
  destruct (find _ skills); [|discriminate].
  destruct (existsSync _ _ _); [discriminate|].
  destruct (if negb _ then _ else _); [|discriminate].
  destruct (cpSync _ _ _ _ _) as [st2 [x|]]; discriminate.
Qed.

(** X4: The exceptions of a tool call (lines 214-234), for a
    [skill_name] that is a string when line 225 does not take it for
    false. A call throws in four cases only: the tool name is neither of
    the two, and the error names it; the install tool is called without
    [arguments], and the destructuring of line 224 throws a TypeError;
    [skill_name] is absent or the empty string; or [findSkills] throws,
    which neither handler catches: then the exception is one of the file
    system calls of the walk, ENOTDIR or EACCES of [readdirSync] or the
    exception of [statSync] at an entry. A failure of [mkdirSync] or
    [cpSync] is never thrown. *)
Theorem callTool_errors (req : request) (st : fs) (e : exn) :
  callTool PLUGINS_DIR HOME localeCompare describe req st = Throw e ->
  (e = Error (lit "Unknown tool: " ++ tool req) /\
   tool req <> lit "list_marketplace_skills" /\
   tool req <> lit "install_marketplace_skill") \/
  (e = TypeError /\ tool req = lit "install_marketplace_skill" /\
   arguments req = None) \/
  (e = MISSING_ARGUMENT /\ tool req = lit "install_marketplace_skill" /\
   (arguments req = Some None \/ arguments req = Some (Some []))) \/
  ((e = ENOTDIR \/ e = EACCES \/ exists f, e = stat_exn f) /\
   findSkills PLUGINS_DIR localeCompare st = Throw e).
Proof.
  unfold callTool.
  destruct (str_eqb (tool req) (lit "list_marketplace_skills")) eqn:El.
  - destruct (handleListSkills PLUGINS_DIR localeCompare st) as [text|x] eqn:Eh;
      [discriminate|].
    intros H. injection H as <-. right. right. right.
    apply handleListSkills_throws in Eh. split; [|exact Eh].
    eapply findSkills_errors, Eh.
  - destruct (str_eqb (tool req) (lit "install_marketplace_skill")) eqn:Ei.
    + apply str_eqb_eq in Ei.
      destruct (arguments req) as [[[|c s]|]|].
      * intros H. injection H as <-. right. right. left. auto.
      * cbn [is_empty].
        destruct (handleInstallSkill PLUGINS_DIR HOME localeCompare (c :: s) st)
          as [[o st']|x] eqn:Eh; [discriminate|].
        intros H. injection H as <-. right. right. right.
        apply handleInstallSkill_throws in Eh. split; [|exact Eh].
        eapply findSkills_errors, Eh.
      * intros H. injection H as <-. right. right. left. auto.
      * intros H. injection H as <-. right. left. auto.
    + intros H. injection H as <-. left.
      apply str_eqb_neq in El, Ei. auto.
Qed.

End CatalogFacts.

Lemma callTool_errors_witness :
  (ENOENT = Error (lit "Unknown tool: " ++ tool ex_request_list) /\
   tool ex_request_list <> lit "list_marketplace_skills" /\
   tool ex_request_list <> lit "install_marketplace_skill") \/
  (ENOENT = TypeError /\
   tool ex_request_list = lit "install_marketplace_skill" /\
   arguments ex_request_list = None) \/
  (ENOENT = MISSING_ARGUMENT /\
   tool ex_request_list = lit "install_marketplace_skill" /\
   (arguments ex_request_list = Some None \/
    arguments ex_request_list = Some (Some []))) \/
  ((ENOENT = ENOTDIR \/ ENOENT = EACCES \/ exists f, ENOENT = stat_exn f) /\
   findSkills ex_PLUGINS_DIR code_unit_compare ex_state_dangling
   = Throw ENOENT).
Proof.
  apply (callTool_errors ex_PLUGINS_DIR ex_HOME code_unit_compare ex_describe
           ex_request_list ex_state_dangling ENOENT).
  reflexivity.
Defined.

(** ** The description of a skill (lines 75-111) *)

Lemma search_sound (r : regex) (s : str) :
  forall prev m,
    search r prev s = Some m ->
    exists prev' s', rmatch r prev' s' [] (fun _ _ c => Some c) = Some m.
Proof.
  induction s as [|x s IH]; intros prev m; cbn [search].
  - destruct (rmatch r prev [] [] _) as [c|] eqn:E; [|discriminate].
    intros H. injection H as <-. eauto.
  - destruct (rmatch r prev (x :: s) [] _) as [c|] eqn:E.
    + intros H. injection H as <-. eauto.
    + apply IH.
Qed.

(** The second group of a match of the pattern of line 82 holds no line
    terminator. *)
Lemma description_value_dots (yaml : str) (m : caps) :
  exec re_description yaml = Some m ->
  exists v, get_cap 2 m = Some v /\ Forall (fun c => is_dot c = true) v.
Proof.
  unfold exec. intros H. apply search_sound in H as [prev [s H]].
  unfold re_description in H. cbn [rmatch] in H.
  destruct (at_bol true prev); [|discriminate].
  destruct (strip_prefix (lit "description:") prev s) as [[p0 s0]|];
    [|discriminate].
  apply star_greedy_sound in H as [w1 [s1 [p1 [_ [_ H]]]]].
  assert (G : forall c0 : caps,
             (c0 = [] \/ exists g, c0 = set_cap 1 g []) ->
             forall p s2,
             star_greedy is_space p s2
               (fun (_ : option ascii) (s'0 : str) =>
                  match s'0 with
                  | [] => None
                  | x :: s'1 =>
                      if is_dot x
                      then star_greedy is_dot (Some x) s'1
                             (fun (_ : option ascii) (s'' : str) =>
                                if at_eol true s''
                                then Some (set_cap 2
                                             (firstn (length s'0 - length s'') s'0)
                                             c0)
                                else None)
                      else None
                  end) = Some m ->
             exists v, get_cap 2 m = Some v /\
                       Forall (fun c => is_dot c = true) v).
  { intros c0 Hc0 p s2 Hm.
    apply star_greedy_sound in Hm as [w2 [s3 [p3 [_ [_ Hm]]]]].
    destruct s3 as [|x s3]; [discriminate|].
    destruct (is_dot x) eqn:Ex; [|discriminate].
    apply star_greedy_sound in Hm as [v [s4 [p4 [-> [Hv Hm]]]]].
    destruct (at_eol true s4); [|discriminate]. injection Hm as <-.
    exists (x :: v). split; [|now constructor].
    destruct Hc0 as [-> | [g ->]];
      exact (f_equal Some (firstn_app_length (x :: v) s4)). }
  destruct (strip_prefix (lit ">") p1 s1) as [[p2 s2]|] eqn:E2.
  - match type of H with
    | match ?a with Some res => Some res | None => ?b end = Some m =>
        destruct a as [res|] eqn:Ea
    end.
    + injection H as ->. eapply G; [|exact Ea]. right. eauto.
    + eapply G; [|exact H]. now left.
  - eapply G; [|exact H]. now left.
Qed.

Lemma dropWhile_In (p : ascii -> bool) (l : str) (c : ascii) :
  In c (dropWhile p l) -> In c l.
Proof.
  induction l as [|x l IH]; simpl; [tauto|].
  destruct (p x); [intros H; right; now apply IH | exact (fun H => H)].
Qed.

Lemma trim_In (l : str) (c : ascii) : In c (trim l) -> In c l.
Proof.
  unfold trim. intros H. apply in_rev in H. apply dropWhile_In in H.
  apply in_rev in H. now apply dropWhile_In in H.
Qed.

Lemma foldedLoop_In (lines : list str) :
  forall capturing acc x,
    In x (foldedLoop lines capturing acc) ->
    In x acc \/ exists l, In l lines /\ x = trim l.
Proof.
  induction lines as [|l lines IH]; intros capturing acc x; cbn [foldedLoop].
  - now left.
  - assert (K : forall b acc', (forall y, In y acc' -> In y acc \/ y = trim l) ->
                In x (foldedLoop lines b acc') ->
                In x acc \/ exists l0, In l0 (l :: lines) /\ x = trim l0).
    { intros b acc' Hacc H. destruct (IH _ _ _ H) as [H'|[l0 [Hl0 ->]]].
      - destruct (Hacc _ H') as [H''| ->]; [now left|].
        right. exists l. split; [now left | reflexivity].
      - right. exists l0. split; [now right | reflexivity]. }
    destruct (is_some (exec re_folded l)); [apply K; auto|].
    destruct capturing; [|apply K; auto].
    destruct (length (trim l) =? 0); [apply K; auto|].
    destruct (startsWith (lit "  ") l); [|now left].
    apply K. intros y Hy. apply in_app_or in Hy as [Hy|[<-|[]]]; auto.
Qed.

Lemma parseDescription_one_line (content d : str) :
  parseDescription content = Some d -> ~ In LF d.
Proof.
  unfold parseDescription.
  destruct (exec re_frontmatter content) as [m|]; [|discriminate].
  destruct (get_cap 1 m) as [yaml|]; [|discriminate].
  destruct (exec re_description yaml) as [dm|] eqn:Ed; [|discriminate].
  destruct (description_value_dots _ _ Ed) as [v [Hv Hdots]].
  destruct (match get_cap 1 dm with Some g => str_eqb g (lit ">") | None => false end).
  - intros H. injection H as <-. intros Hin.
    apply join_In in Hin as [Hin|[x [Hx Hc]]].
    + cbv in Hin. intuition discriminate.
    + apply foldedLoop_In in Hx as [[]|[l [Hl ->]]].
      apply trim_In in Hc. now apply split_on_parts_no_sep in Hl.
  - rewrite Hv. intros H. injection H as <-. intros Hin.
    apply trim_In in Hin. rewrite Forall_forall in Hdots.
    specialize (Hdots _ Hin). discriminate.
Qed.

Lemma readDescription_one_line (file : result str) :
  ~ In LF (readDescription file).
Proof.
  destruct file as [content|e]; cbn [readDescription].
  - destruct (parseDescription content) as [d|] eqn:E.
    + eapply parseDescription_one_line, E.
    + cbv. intuition discriminate.
  - cbv. intuition discriminate.
Qed.

Lemma dropWhile_no_lead (s : str) : no_lead (dropWhile is_space s).
Proof.
  induction s as [|c s IH]; simpl; [exact I|].
  destruct (is_space c) eqn:E; [exact IH | exact E].
Qed.

Lemma no_lead_dropWhile (s : str) : no_lead s -> dropWhile is_space s = s.
Proof. destruct s as [|c s]; simpl; [reflexivity|]. now intros ->. Qed.

Lemma dropWhile_snoc (l : str) (c : ascii) :
  is_space c = false ->
  dropWhile is_space (l ++ [c]) = dropWhile is_space l ++ [c].
Proof.
  intros Hc. induction l as [|x l IH]; simpl.
  - now rewrite Hc.
  - now destruct (is_space x).
Qed.

(** [trim] leaves no white space at either end, and changes no string
    that has none there. *)
Lemma trim_tight (s : str) : tight (trim s).
Proof.
  unfold tight, trim. split.
  - pose proof (dropWhile_no_lead s) as H.
    destruct (dropWhile is_space s) as [|c t]; [exact I|].
    cbn [no_lead] in H. cbn [rev]. rewrite dropWhile_snoc by exact H.
    rewrite rev_app_distr. exact H.
  - rewrite rev_involutive. apply dropWhile_no_lead.
Qed.

Lemma tight_trim (s : str) : tight s -> trim s = s.
Proof.
  intros [H1 H2]. unfold trim. rewrite (no_lead_dropWhile s H1).
  rewrite (no_lead_dropWhile (rev s) H2). apply rev_involutive.
Qed.

Lemma no_lead_app (a b : str) : a <> [] -> no_lead a -> no_lead (a ++ b).
Proof. destruct a; [contradiction | exact (fun _ H => H)]. Qed.

Lemma join_tight (sep : str) (l : list str) :
  Forall (fun x => x <> [] /\ tight x) l ->
  tight (join sep l) /\ (l <> [] -> join sep l <> []).
Proof.
  induction 1 as [|x l [Hx [Hx1 Hx2]] Hl [IHt IHn]]; [now repeat split|].
  destruct l as [|y l]; [now repeat split|].
  change (join sep (x :: y :: l)) with (x ++ sep ++ join sep (y :: l)).
  split; [split|].
  - now apply no_lead_app.
  - rewrite !rev_app_distr, <- app_assoc. destruct IHt as [_ IHt].
    apply no_lead_app; [|exact IHt].
    intros E. apply (f_equal (@rev ascii)) in E.
    rewrite rev_involutive in E. now apply IHn.
  - intros _ E. apply app_eq_nil in E as [E _]. contradiction.
Qed.

(** The lines the loop of lines 89-102 collects are not empty and carry
    no white space at their ends. *)
Lemma foldedLoop_tight (lines : list str) :
  forall capturing acc,
    Forall (fun x => x <> [] /\ tight x) acc ->
    Forall (fun x => x <> [] /\ tight x) (foldedLoop lines capturing acc).
Proof.
  induction lines as [|l lines IH]; intros capturing acc Hacc;
    cbn [foldedLoop]; [exact Hacc|].
  destruct (is_some (exec re_folded l)); [now apply IH|].
  destruct capturing; [|now apply IH].
  destruct (length (trim l) =? 0) eqn:E; [now apply IH|].
  destruct (startsWith (lit "  ") l); [|exact Hacc].
  apply IH. apply Forall_app. split; [exact Hacc|].
  constructor; [|constructor]. split; [|apply trim_tight].
  intros E'. rewrite E' in E. discriminate.
Qed.

Lemma parseDescription_tight (content d : str) :
  parseDescription content = Some d -> tight d.
Proof.
  unfold parseDescription.
  destruct (exec re_frontmatter content) as [m|]; [|discriminate].
  destruct (get_cap 1 m) as [yaml|]; [|discriminate].
  destruct (exec re_description yaml) as [dm|]; [|discriminate].
  destruct (match get_cap 1 dm with Some g => str_eqb g (lit ">") | None => false end).
  - intros H. injection H as <-.
    apply join_tight, foldedLoop_tight. constructor.
  - destruct (get_cap 2 dm); [|discriminate].
    intros H. injection H as <-. apply trim_tight.
Qed.

Lemma readDescription_tight (file : result str) :
  tight (readDescription file).
Proof.
  destruct file as [content|e]; cbn [readDescription].
  - destruct (parseDescription content) as [d|] eqn:E.
    + eapply parseDescription_tight, E.
    + split; cbv; reflexivity.
  - split; cbv; reflexivity.
Qed.

Section ListingFacts.

Variable PLUGINS_DIR : str.
Variable localeCompare : str -> str -> Z.

Lemma catalog_entry (st : fs) (catalog : list skill) (e : skill) :
  findSkills PLUGINS_DIR localeCompare st = Ok catalog ->
  In e catalog -> exists f, e = skillOf PLUGINS_DIR st f.
Proof.
  unfold findSkills, discover. destruct (plugins st) as [n|].
  - destruct (walkSync (stat_error st) PLUGINS_DIR n []) as [allFiles|x];
      [|discriminate].
    intros H. injection H as <-. intros He. apply sort_In in He.
    apply in_map_iff in He as [f [<- _]]. now exists f.
  - intros H. injection H as <-. intros [].
Qed.

(** X5: Whatever the marker files hold, every description of the catalog
    is a single line without white space at its ends: it holds no line
    feed, and [trim] leaves it as it is. *)
Theorem catalog_descriptions (st : fs) (catalog : list skill) :
  findSkills PLUGINS_DIR localeCompare st = Ok catalog ->
  Forall
    (fun e => ~ In LF (description e) /\ trim (description e) = description e)
    catalog.
Proof.
  intros Hc. apply Forall_forall. intros e He.
  destruct (catalog_entry st catalog e Hc He) as [f ->].
  cbn [description skillOf]. split.
  - apply readDescription_one_line.
  - apply tight_trim, readDescription_tight.
Qed.

Lemma listing_split (catalog : list skill) :
  catalog <> [] ->
  (forall e, In e catalog -> ~ In LF (name e) /\ ~ In LF (description e)) ->
  split_on LF
    (join [LF]
       ((lit "# Available Skills" ++ [LF]) :: flat_map listing_lines catalog))
  = lit "# Available Skills" :: [] :: flat_map listing_lines catalog.
Proof.
  intros Hne Hall.
  assert (Hl : flat_map listing_lines catalog <> []).
  { destruct catalog; [contradiction | discriminate]. }
  rewrite join_cons by exact Hl. rewrite <- app_assoc. cbn [app].
  rewrite split_on_app.
  rewrite split_on_no_sep by (cbv; intuition discriminate).
  cbn [app]. f_equal.
  change (LF :: join [LF] (flat_map listing_lines catalog))
    with ([] ++ LF :: join [LF] (flat_map listing_lines catalog)).
  rewrite split_on_app. cbn [split_on app]. f_equal.
  apply split_on_join; [exact Hl|].
  apply Forall_forall. intros l Hin.
  apply in_flat_map in Hin as [e [He Hin]].
  destruct (Hall e He) as [Hn Hd].
  destruct Hin as [<-|[<-|[]]]; intros Hlf.
  - apply in_app_or in Hlf as [Hlf|Hlf]; [cbv in Hlf; intuition discriminate|].
    apply in_app_or in Hlf as [Hlf|Hlf]; [now apply Hn|].
    cbv in Hlf; intuition discriminate.
  - apply in_app_or in Hlf as [Hlf|Hlf]; [cbv in Hlf; intuition discriminate|].
    now apply Hd.
Qed.

(** X6: The text of [handleListSkills], line by line (lines 125-138).
    When no name of the catalog holds a line feed, the text for a catalog
    that is not empty splits at the line feeds into the heading, one empty
    line, and for every entry, in the order of the catalog, the line
    [- **name**:] and the line of two spaces and the description; so the
    catalog can be read back from the text. For the empty catalog the text
    is the one line [No skills found in the plugins directory.] *)
Theorem listing_by_lines (st : fs) (catalog : list skill) :
  findSkills PLUGINS_DIR localeCompare st = Ok catalog ->
  Forall (fun e => ~ In LF (name e)) catalog ->
  exists text,
    handleListSkills PLUGINS_DIR localeCompare st = Ok text /\
    split_on LF text =
    match catalog with
    | [] => [lit "No skills found in the plugins directory."]
    | _ :: _ =>
        lit "# Available Skills" :: [] :: flat_map listing_lines catalog
    end.
Proof.
  intros Hc Hn. unfold handleListSkills. rewrite Hc.
  destruct catalog as [|e0 catalog].
  - eexists. split; [reflexivity|]. reflexivity.
  - cbn [length Nat.eqb]. eexists. split; [reflexivity|].
    apply (listing_split (e0 :: catalog)); [discriminate|].
    intros e He. rewrite Forall_forall in Hn. split; [now apply Hn|].
    destruct (catalog_entry st _ e Hc He) as [f ->].
    apply readDescription_one_line.
Qed.

End ListingFacts.

Lemma catalog_descriptions_witness :
  Forall
    (fun e => ~ In LF (description e) /\ trim (description e) = description e)
    ex_catalog_many.
Proof.
  apply (catalog_descriptions ex_PLUGINS_DIR code_unit_compare ex_state_many).
  vm_compute. reflexivity.
Defined.

Lemma listing_by_lines_witness :
  exists text,
    handleListSkills ex_PLUGINS_DIR code_unit_compare ex_state_many = Ok text /\
    split_on LF text =
    match ex_catalog_many with
    | [] => [lit "No skills found in the plugins directory."]
    | _ :: _ =>
        lit "# Available Skills" :: [] :: flat_map listing_lines ex_catalog_many
    end.
Proof.
  apply (listing_by_lines ex_PLUGINS_DIR code_unit_compare ex_state_many).
  - vm_compute. reflexivity.
  - vm_compute. repeat constructor; intros H; decompose sum H; discriminate.
Defined.

(** The listing of the three skills of [ex_state_many]. *)
Example listing_example :
  handleListSkills ex_PLUGINS_DIR code_unit_compare ex_state_many
  = Ok (text ["# Available Skills"; EmptyString;
              "- **alpha**:"; "  first";
              "- **alpha**:"; "  second";
              "- **zeta**:"; "  last"]%string).
Proof. vm_compute. reflexivity. Qed.

(** ** Names (lines 52-72) and the entry an install takes (line 142) *)

Lemma find_filter {A} (p : A -> bool) (l : list A) :
  find p l = hd_error (filter p l).
Proof.
  induction l as [|a l IH]; [reflexivity|]. simpl.
  now destruct (p a).
Qed.

(** X7: When several marker files derive the requested name, the entry
    [find] takes from the sorted catalog (line 142) is the one of the
    marker file the walk met first, for any comparator that takes a name
    for equal to itself: the sort is stable. *)
Theorem find_first_discovered
    (PLUGINS_DIR : str) (localeCompare : str -> str -> Z)
    (st : fs) (catalog : list skill) (skillName : str) :
  (forall a, localeCompare a a = 0%Z) ->
  findSkills PLUGINS_DIR localeCompare st = Ok catalog ->
  exists found,
    discover PLUGINS_DIR st = Ok found /\
    find (fun s => str_eqb (name s) skillName) catalog
    = find (fun s => str_eqb (name s) skillName) found.
Proof.
  intros Hrefl Hc. unfold findSkills in Hc.
  destruct (discover PLUGINS_DIR st) as [found|e]; [|discriminate].
  injection Hc as <-. exists found. split; [reflexivity|].
  rewrite !find_filter.
  now rewrite (sort_stable localeCompare Hrefl).
Qed.

Lemma find_first_discovered_witness :
  exists found,
    discover ex_PLUGINS_DIR ex_state_many = Ok found /\
    find (fun s => str_eqb (name s) (lit "alpha")) ex_catalog_many
    = find (fun s => str_eqb (name s) (lit "alpha")) found.
Proof.
  apply (find_first_discovered ex_PLUGINS_DIR code_unit_compare ex_state_many).
  - exact code_unit_compare_refl.
  - vm_compute. reflexivity.
Defined.

Lemma collapse_fixed (l : list str) :
  forall k,
    no_adjacent_dup l ->
    match l with [] => True | a :: _ => Some a <> k end ->
    collapse_from k l = l.
Proof.
  induction l as [|a l IH]; intros k Hn Hk; [reflexivity|].
  cbn [no_adjacent_dup] in Hn. destruct Hn as [Hab Hn]. cbn [collapse_from].
  assert (E : collapse_from (Some a) l = l).
  { apply IH; [exact Hn|]. destruct l as [|b l]; [exact I|]. congruence. }
  destruct k as [k|]; [|now rewrite E].
  destruct (str_eqb a k) eqn:Ea; [|now rewrite E].
  apply str_eqb_eq in Ea. subst k. now contradiction Hk.
Qed.

(** X8: The loop of lines 61-70 changes a list of parts exactly when two
    neighbours are identical, and running it on its own result changes
    nothing more. *)
Theorem dedupe_fixed (l : list str) :
  (dedupe l = l <-> no_adjacent_dup l) /\ dedupe (dedupe l) = dedupe l.
Proof.
  assert (F : forall l', no_adjacent_dup l' -> dedupe l' = l').
  { intros l' H. rewrite dedupe_collapse.
    apply collapse_fixed; [exact H|]. now destruct l'. }
  split; [split|].
  - intros <-. rewrite dedupe_collapse. apply collapse_from_no_adjacent_dup.
  - apply F.
  - apply F. rewrite dedupe_collapse. apply collapse_from_no_adjacent_dup.
Qed.

(** X9: The entry of a marker file by the directory that holds it. For a
    marker file [SKILL.md] in the directory reached from the scan root by
    the names [names] (at least one, each a name of a directory entry),
    the path of the entry is that directory and its name is made of
    [names]: the names [skills] left out, runs of identical names reduced
    to one, the rest joined with [-]. *)
Theorem name_of_directory (PLUGINS_DIR : str) (st : fs) (names : list str) :
  PLUGINS_DIR <> [] -> names <> [] ->
  Forall (fun f => f <> [] /\ ~ In SEP f) names ->
  let skillFile :=
    path_join (PLUGINS_DIR ++ SEP :: join [SEP] names) (lit "SKILL.md") in
  name (skillOf PLUGINS_DIR st skillFile)
  = join (lit "-")
      (collapse_from None
         (filter (fun p => negb (str_eqb p (lit "skills"))) names)) /\
  path (skillOf PLUGINS_DIR st skillFile)
  = PLUGINS_DIR ++ SEP :: join [SEP] names.
Proof.
  intros HP Hne Hnames skillFile. subst skillFile.
  assert (Hd : dirname (path_join (PLUGINS_DIR ++ SEP :: join [SEP] names)
                          (lit "SKILL.md"))
               = PLUGINS_DIR ++ SEP :: join [SEP] names).
  { apply dirname_join; [now destruct PLUGINS_DIR | discriminate |].
    cbv. intuition discriminate. }
  cbn [name path skillOf]. rewrite finalPartsOf_spec, Hd.
  split; [|reflexivity]. unfold name_segments.
  now rewrite relative_below.
Qed.

Lemma name_of_directory_witness :
  name (skillOf ex_PLUGINS_DIR ex_state
          (path_join (ex_PLUGINS_DIR ++ SEP :: join [SEP] ex_names_foo)
             (lit "SKILL.md")))
  = join (lit "-")
      (collapse_from None
         (filter (fun p => negb (str_eqb p (lit "skills"))) ex_names_foo)) /\
  path (skillOf ex_PLUGINS_DIR ex_state
          (path_join (ex_PLUGINS_DIR ++ SEP :: join [SEP] ex_names_foo)
             (lit "SKILL.md")))
  = ex_PLUGINS_DIR ++ SEP :: join [SEP] ex_names_foo.
Proof.
  apply (name_of_directory ex_PLUGINS_DIR ex_state ex_names_foo).
  - discriminate.
  - discriminate.
  - repeat constructor; try discriminate;
      intros H; vm_compute in H; decompose sum H; discriminate.
Defined.

(** [foo/skills/foo] gives the name [foo]. *)
Example name_of_directory_example :
  map (fun s => (name s, path s))
    match findSkills ex_PLUGINS_DIR code_unit_compare ex_state with
    | Ok catalog => catalog
    | Throw _ => []
    end
  = [(lit "foo", lit "/ext/plugins/foo/skills/foo")].
Proof. vm_compute. reflexivity. Qed.

(** ** What an install writes (lines 140-170) *)

Lemma find_entry_set_other (x y : str) (c : node) (es : list (str * node)) :
  x <> y -> find_entry y (set_entry x c es) = find_entry y es.
Proof.
  intros Hxy. induction es as [|[n d] es IH]; simpl.
  - apply str_eqb_neq in Hxy. now rewrite Hxy.
  - destruct (str_eqb n x) eqn:Ex; simpl.
    + apply str_eqb_eq in Ex. subst n. apply str_eqb_neq in Hxy.
      now rewrite Hxy.
    + destruct (str_eqb n y); [reflexivity | exact IH].
Qed.

Lemma mkdirp_frame (q : list str) (y : str) :
  forall t h,
    mkdirp q t = Ok h -> lookup_path h (q ++ [y]) = lookup_opt t (q ++ [y]).
Proof.
  induction q as [|s q IH]; intros t h.
  - destruct t as [[r c | r es]|]; cbn; [discriminate | |];
      intros H; now injection H as <-.
  - destruct t as [[r c | r es]|]; cbn [mkdirp]; [discriminate | |].
    + destruct (mkdirp q (find_entry s es)) as [c|e] eqn:E; [|discriminate].
      intros H. injection H as <-. cbn [app lookup_opt lookup_path].
      rewrite find_entry_set_entry, (IH _ _ E).
      now destruct (find_entry s es).
    + destruct (mkdirp q None) as [c|e] eqn:E; [|discriminate].
      intros H. injection H as <-. cbn [app lookup_opt lookup_path find_entry].
      rewrite str_eqb_refl. now rewrite (IH _ _ E).
Qed.

Lemma put_at_frame (q : list str) (x y : str) (new : node) :
  x <> y ->
  forall t h,
    put_at (q ++ [x]) new t = Ok h ->
    lookup_path h (q ++ [y]) = lookup_opt t (q ++ [y]).
Proof.
  intros Hxy. induction q as [|s q IH]; intros t h.
  - destruct t as [[r c | r es]|]; cbn; [discriminate | |];
      intros H; injection H as <-; cbn.
    + now rewrite find_entry_set_other.
    + apply str_eqb_neq in Hxy. now rewrite Hxy.
  - destruct t as [[r c | r es]|]; cbn [app put_at]; [discriminate | |].
    + destruct (put_at (q ++ [x]) new (find_entry s es)) as [c|e] eqn:E;
        [|discriminate].
      intros H. injection H as <-. cbn [lookup_opt lookup_path].
      rewrite find_entry_set_entry, (IH _ _ E).
      now destruct (find_entry s es).
    + destruct (put_at (q ++ [x]) new None) as [c|e] eqn:E; [|discriminate].
      intros H. injection H as <-. cbn [lookup_opt lookup_path find_entry].
      rewrite str_eqb_refl. now rewrite (IH _ _ E).
Qed.

Lemma cp_tree_true_readable (n : node) :
  forall o, cp_tree n = (true, o) -> all_readable n = true.
Proof.
  induction n as [r c | r es IH] using node_ind; intros o.
  - destruct r; simpl; intros H; now inversion H.
  - destruct r; simpl; [|intros H; now inversion H].
    match goal with
    | |- context [?f es] =>
        match f with (fix each (l : list (str * node)) {struct l} := _) =>
          set (each := f)
        end
    end.
    assert (Hes : forall out, each es = (true, out) ->
                  forallb (fun e => all_readable (snd e)) es = true).
    { induction es as [|[f child] es IHes]; intros out; [reflexivity|].
      inversion IH as [|? ? IHc IHrest]; subst. cbn [snd] in IHc.
      simpl. destruct (cp_tree child) as [[|] [c'|]] eqn:Ec;
        try (intros H; now inversion H).
      destruct (each es) as [ok out'] eqn:Ee.
      intros H. inversion H; subst.
      rewrite (IHc _ eq_refl). now apply (IHes IHrest out'). }
    destruct (each es) as [ok out] eqn:Ee.
    intros H. inversion H; subst. now apply (Hes out).
Qed.

Lemma all_readable_lookup (p : list str) :
  forall n m, all_readable n = true -> lookup_path n p = Some m ->
              all_readable m = true.
Proof.
  induction p as [|s p IH]; intros n m Hr; cbn [lookup_path].
  - intros H. now injection H as <-.
  - destruct n as [r c | r es]; [discriminate|].
    destruct (find_entry s es) as [c|] eqn:E; [|discriminate].
    apply find_entry_some in E. cbn [all_readable] in Hr.
    apply andb_true_iff in Hr as [_ Hr]. rewrite forallb_forall in Hr.
    apply IH. exact (Hr _ E).
Qed.

Lemma join_app (sep : str) (a b : list str) :
  a <> [] -> b <> [] -> join sep (a ++ b) = join sep a ++ sep ++ join sep b.
Proof.
  intros Ha Hb. induction a as [|x a IH]; [contradiction|].
  destruct a as [|x' a].
  - cbn [app]. now rewrite join_cons.
  - cbn [app] in *. rewrite join_cons by discriminate.
    rewrite IH by discriminate. rewrite (join_cons sep x (x' :: a)) by discriminate.
    now rewrite <- !app_assoc.
Qed.

(** The base name of a listed path is the last name on the way, and its
    directory is reached by the names before it. *)
Lemma listed_path_parts (root : str) (pre : list str) (x : str) :
  root <> [] ->
  Forall (fun f => f <> [] /\ ~ In SEP f) (pre ++ [x]) ->
  basename (root ++ SEP :: join [SEP] (pre ++ [x])) = x /\
  segments (dirname (root ++ SEP :: join [SEP] (pre ++ [x])))
  = segments root ++ pre.
Proof.
  intros Hroot Hall.
  assert (Hsep : Forall (fun w => ~ In SEP w) (pre ++ [x])).
  { eapply Forall_impl; [|exact Hall]. now intros f [_ H]. }
  assert (Hsplit : split_on SEP (root ++ SEP :: join [SEP] (pre ++ [x]))
                   = (split_on SEP root ++ pre) ++ [x]).
  { rewrite split_on_app, split_on_join; [now rewrite app_assoc | | exact Hsep].
    now destruct pre. }
  split.
  - unfold basename. rewrite Hsplit. apply last_last.
  - unfold dirname. rewrite Hsplit, removelast_last.
    destruct (split_on SEP root ++ pre) as [|z zs] eqn:Ez.
    { apply app_eq_nil in Ez as [Ez _]. now apply split_on_not_nil in Ez. }
    rewrite <- Ez.
    assert (Hj : join [SEP] (split_on SEP root ++ pre)
                 = root ++ match pre with [] => [] | _ => SEP :: join [SEP] pre end).
    { destruct pre as [|p0 pre].
      - now rewrite !app_nil_r, join_split_on.
      - rewrite join_app; [|apply split_on_not_nil|discriminate].
        now rewrite join_split_on. }
    rewrite Hj.
    assert (Hd : is_empty (root ++ match pre with
                                   | [] => []
                                   | _ => SEP :: join [SEP] pre end) = false).
    { now destruct root. }
    rewrite Hd. destruct pre as [|p0 pre].
    + now rewrite !app_nil_r.
    + rewrite segments_app. f_equal.
      apply Forall_app in Hall as [Hpre _].
      unfold segments. rewrite split_on_join.
      * apply forallb_filter_id. apply forallb_forall. intros f Hf.
        rewrite Forall_forall in Hpre. destruct (Hpre f Hf) as [Hf' _].
        now destruct f.
      * discriminate.
      * eapply Forall_impl; [|exact Hpre]. now intros f [_ H].
Qed.

Lemma resolve_below (root : str) (n : node) (names : list str) :
  names <> [] ->
  Forall (fun f => f <> [] /\ ~ In SEP f) names ->
  resolve root (Some n) (root ++ SEP :: join [SEP] names) = lookup_path n names.
Proof.
  intros Hne Hnames. unfold resolve. rewrite segments_app.
  assert (E : segments (join [SEP] names) = names).
  { unfold segments. rewrite split_on_join.
    - apply forallb_filter_id. apply forallb_forall. intros x Hx.
      rewrite Forall_forall in Hnames. destruct (Hnames x Hx) as [Hx' _].
      now destruct x.
    - exact Hne.
    - eapply Forall_impl; [|exact Hnames]. now intros x [_ H]. }
  now rewrite E, drop_common_app.
Qed.

Section InstallFrame.

Variable PLUGINS_DIR : str.
Variable HOME : str.
Variable localeCompare : str -> str -> Z.
Variable describe : exn -> str.

Local Abbreviation destBase := (getGeminiSkillsDir HOME).

Lemma mkdirSync_base_frame (st st1 : fs) (y : str) :
  mkdirSync HOME st destBase = Ok st1 ->
  lookup_path (home st1) (BASE ++ [y]) = lookup_path (home st) (BASE ++ [y]).
Proof.
  unfold mkdirSync. rewrite home_path_base.
  destruct (mkdirp BASE (Some (home st))) as [h|e] eqn:E; [|discriminate].
  intros H. injection H as <-. cbn [home].
  exact (mkdirp_frame BASE y _ _ E).
Qed.

Lemma cpSync_frame (st st2 : fs) (srcPath skillName y : str) (e : option exn) :
  skillName <> [] -> ~ In SEP skillName -> skillName <> y ->
  cpSync PLUGINS_DIR HOME st srcPath (path_join destBase skillName) = (st2, e) ->
  lookup_path (home st2) (BASE ++ [y]) = lookup_path (home st) (BASE ++ [y]).
Proof.
  intros Hne Hsep Hy. unfold cpSync.
  rewrite (home_path_dest HOME skillName Hsep).
  destruct skillName as [|c0 s0]; [contradiction|]. cbn [is_empty].
  destruct (resolve PLUGINS_DIR (plugins st) srcPath) as [n|];
    [|intros H; now inversion H].
  rewrite removelast_last.
  destruct (mkdirp BASE (Some (home st))) as [h|x] eqn:Em;
    [|intros H; now inversion H].
  pose proof (mkdirp_frame BASE y _ _ Em) as Fm. cbn [lookup_opt] in Fm.
  destruct (cp_tree n) as [ok [made|]].
  - match goal with
    | |- context [put_at ?a ?b ?c] => destruct (put_at a b c) as [h'|x] eqn:Ep
    end; intros H; inversion H; subst; cbn [home]; [|exact Fm].
    rewrite (put_at_frame BASE (c0 :: s0) y made Hy _ _ Ep). exact Fm.
  - intros H. inversion H; subst. exact Fm.
Qed.

(** A call for a name that is not empty leaves what stands under every
    other name of the installed-skills root as it was. *)
Lemma install_frame (st st' : fs) (skillName y : str) (o : outcome) :
  handleInstallSkill PLUGINS_DIR HOME localeCompare skillName st = Ok (o, st') ->
  skillName <> [] -> skillName <> y ->
  lookup_path (home st') (BASE ++ [y]) = lookup_path (home st) (BASE ++ [y]).
Proof.
  intros H Hne Hy. unfold handleInstallSkill in H.
  destruct (findSkills PLUGINS_DIR localeCompare st) as [catalog|e] eqn:Hcat;
    [|discriminate].
  destruct (find (fun s => str_eqb (name s) skillName) catalog)
    as [target|] eqn:Hfind; [|now injection H as _ <-].
  assert (Hsep : ~ In SEP skillName).
  { destruct (find_some _ _ Hfind) as [Hin Hn]. apply str_eqb_eq in Hn.
    rewrite <- Hn. eapply catalog_names; eassumption. }
  destruct (existsSync HOME st (path_join destBase skillName));
    [now injection H as _ <-|].
  destruct (if negb (existsSync HOME st destBase)
            then mkdirSync HOME st destBase else Ok st) as [st1|e] eqn:Hst1;
    [|now injection H as _ <-].
  assert (F1 : lookup_path (home st1) (BASE ++ [y])
               = lookup_path (home st) (BASE ++ [y])).
  { destruct (negb (existsSync HOME st destBase)).
    - eapply mkdirSync_base_frame, Hst1.
    - now injection Hst1 as <-. }
  destruct (cpSync PLUGINS_DIR HOME st1 (path target)
              (path_join destBase skillName)) as [st2 [e|]] eqn:Hcp;
    injection H as _ <-; rewrite <- F1;
    eapply cpSync_frame; eassumption.
Qed.

Lemma install_plugins (st st' : fs) (skillName : str) (o : outcome) :
  handleInstallSkill PLUGINS_DIR HOME localeCompare skillName st = Ok (o, st') ->
  plugins st' = plugins st /\ stat_error st' = stat_error st.
Proof.
  unfold handleInstallSkill.
  destruct (findSkills PLUGINS_DIR localeCompare st) as [catalog|e];
    [|discriminate].
  destruct (find (fun s => str_eqb (name s) skillName) catalog)
    as [target|]; [|intros H; injection H as _ <-; now split].
  destruct (existsSync HOME st (path_join destBase skillName));
    [intros H; injection H as _ <-; now split|].
  destruct (if negb (existsSync HOME st destBase)
            then mkdirSync HOME st destBase else Ok st) as [st1|e] eqn:Hst1;
    [|intros H; injection H as _ <-; now split].
  assert (Hp1 : plugins st1 = plugins st /\ stat_error st1 = stat_error st).
  { destruct (negb (existsSync HOME st destBase)).
    - split; [eapply mkdirSync_plugins, Hst1 | eapply mkdirSync_stat, Hst1].
    - injection Hst1 as <-. now split. }
  destruct Hp1 as [Hp1 Hs1].
  destruct (cpSync PLUGINS_DIR HOME st1 (path target)
              (path_join destBase skillName)) as [st2 [e|]] eqn:Hcp;
    intros H; injection H as _ <-; rewrite <- Hp1, <- Hs1;
    (split; [eapply cpSync_plugins, Hcp | eapply cpSync_stat, Hcp]).
Qed.

(** X10: What a tool call can change. A call that returns leaves the
    plugin tree as it was, so the catalog is the same afterwards; the
    listing tool changes nothing at all; and the install tool leaves what
    stands under every name of the installed-skills root other than the
    requested one as it was, whatever the outcome: an install never
    touches another installed skill. *)
Theorem callTool_frame (req : request) (st st' : fs) (text : str) :
  callTool PLUGINS_DIR HOME localeCompare describe req st = Ok (text, st') ->
  plugins st' = plugins st /\
  findSkills PLUGINS_DIR localeCompare st'
  = findSkills PLUGINS_DIR localeCompare st /\
  (tool req = lit "list_marketplace_skills" -> st' = st) /\
  forall y,
    arguments req <> Some (Some y) ->
    lookup_path (home st') (BASE ++ [y]) = lookup_path (home st) (BASE ++ [y]).
Proof.
  unfold callTool.
  destruct (str_eqb (tool req) (lit "list_marketplace_skills")) eqn:El.
  - destruct (handleListSkills PLUGINS_DIR localeCompare st) as [t|e];
      [|discriminate].
    intros H. injection H as _ <-. repeat split; reflexivity.
  - apply str_eqb_neq in El.
    destruct (str_eqb (tool req) (lit "install_marketplace_skill"));
      [|discriminate].
    destruct (arguments req) as [[s|]|]; try discriminate.
    destruct (is_empty s) eqn:Es; [discriminate|].
    destruct (handleInstallSkill PLUGINS_DIR HOME localeCompare s st)
      as [[o st1]|e] eqn:Eh; [|discriminate].
    intros H. injection H as _ <-.
    destruct (install_plugins _ _ _ _ Eh) as [Hp Hs].
    split; [exact Hp|]. split; [now apply findSkills_plugins|].
    split; [intros E; contradiction|].
    intros y Hy. eapply install_frame; [exact Eh | | congruence].
    intros ->. discriminate.
Qed.

Lemma install_keeps (st st' : fs) (skillName : str) (o : outcome) (n : node) :
  handleInstallSkill PLUGINS_DIR HOME localeCompare skillName st = Ok (o, st') ->
  lookup_path (home st) (BASE ++ [skillName]) = Some n ->
  st' = st.
Proof.
  intros H Hl. unfold handleInstallSkill in H.
  destruct (findSkills PLUGINS_DIR localeCompare st) as [catalog|e] eqn:Hcat;
    [|discriminate].
  destruct (find (fun s => str_eqb (name s) skillName) catalog)
    as [target|] eqn:Hfind; [|now injection H as _ <-].
  assert (Hsep : ~ In SEP skillName).
  { destruct (find_some _ _ Hfind) as [Hin Hn]. apply str_eqb_eq in Hn.
    rewrite <- Hn. eapply catalog_names; eassumption. }
  assert (Hex : existsSync HOME st (path_join destBase skillName) = true).
  { unfold existsSync. rewrite resolve_home, (home_path_dest HOME _ Hsep).
    destruct skillName as [|c s]; cbn [is_empty].
    - destruct (lookup_path (home st) BASE) as [[r c | r es]|] eqn:Eb.
      + rewrite lookup_path_app, Eb in Hl. discriminate.
      + now rewrite app_nil_r, Eb.
      + rewrite lookup_path_app, Eb in Hl. discriminate.
    - now rewrite Hl. }
  rewrite Hex in H. now injection H as _ <-.
Qed.

(** X11: An install never overwrites. Whatever stands under a name of the
    installed-skills root before a tool call that returns, a file or a
    directory, the requested skill or another one, stands there unchanged
    afterwards. *)
Theorem callTool_keeps_installed
    (req : request) (st st' : fs) (text y : str) (n : node) :
  callTool PLUGINS_DIR HOME localeCompare describe req st = Ok (text, st') ->
  lookup_path (home st) (BASE ++ [y]) = Some n ->
  lookup_path (home st') (BASE ++ [y]) = Some n.
Proof.
  unfold callTool.
  destruct (str_eqb (tool req) (lit "list_marketplace_skills")).
  - destruct (handleListSkills PLUGINS_DIR localeCompare st) as [t|e];
      [|discriminate].
    intros H. now injection H as _ <-.
  - destruct (str_eqb (tool req) (lit "install_marketplace_skill"));
      [|discriminate].
    destruct (arguments req) as [[s|]|]; try discriminate.
    destruct (is_empty s) eqn:Es; [discriminate|].
    destruct (handleInstallSkill PLUGINS_DIR HOME localeCompare s st)
      as [[o st1]|e] eqn:Eh; [|discriminate].
    intros H. injection H as _ <-. intros Hl.
    destruct (list_eq_dec ascii_dec s y) as [<-|Hy].
    + now rewrite (install_keeps _ _ _ _ _ Eh Hl).
    + rewrite <- Hl. eapply install_frame; [exact Eh | | exact Hy].
      intros ->. discriminate.
Qed.

(** In a well-formed tree the source directory of a catalog entry holds
    the marker file the description was read from. *)
Lemma entry_source (st : fs) (n : node) (catalog : list skill) (e : skill) :
  PLUGINS_DIR <> [] ->
  plugins st = Some n -> well_formed n = true ->
  findSkills PLUGINS_DIR localeCompare st = Ok catalog ->
  In e catalog ->
  exists d r c,
    resolve PLUGINS_DIR (plugins st) (path e) = Some d /\
    lookup_path d [lit "SKILL.md"] = Some (File r c) /\
    description e = readDescription (if r then Ok c else Throw EACCES).
Proof.
  intros HP Hp Hwf Hcat He. unfold findSkills, discover in Hcat.
  rewrite Hp in Hcat.
  destruct (walkSync (stat_error st) PLUGINS_DIR n []) as [allFiles|x] eqn:Hw;
    [|discriminate].
  injection Hcat as <-. apply sort_In in He.
  apply in_map_iff in He as [f [<- Hf]]. apply filter_In in Hf as [Hin Hb].
  destruct (walk_listed _ n PLUGINS_DIR [] allFiles Hwf Hw) as [new [-> Hnew]].
  rewrite Forall_forall in Hnew. cbn [app] in Hin.
  destruct (Hnew _ Hin) as [names [r [c [-> [Hne [Hnames Hl]]]]]].
  destruct (exists_last Hne) as [pre [x ->]].
  destruct (listed_path_parts PLUGINS_DIR pre x HP Hnames) as [Hbase Hdir].
  rewrite Hbase in Hb. apply str_eqb_eq in Hb. subst x.
  rewrite lookup_path_app in Hl.
  destruct (lookup_path n pre) as [d|] eqn:Ed; [|discriminate].
  exists d, r, c. cbn [path description skillOf]. split; [|split].
  - rewrite Hp. unfold resolve. now rewrite Hdir, drop_common_app.
  - exact Hl.
  - unfold readFileSync. rewrite Hp, resolve_below by assumption.
    rewrite lookup_path_app, Ed, Hl. now destruct r.
Qed.

(** X12: In a tree as a file system holds it, the [path] of every entry
    of the catalog is a directory of the tree that holds a file
    [SKILL.md], and the description of the entry is the one read from that
    file (the placeholder when the file cannot be read): the entry an
    install copies from is the directory of the marker file. *)
Theorem catalog_sources (st : fs) (n : node) (catalog : list skill) :
  PLUGINS_DIR <> [] ->
  plugins st = Some n -> well_formed n = true ->
  findSkills PLUGINS_DIR localeCompare st = Ok catalog ->
  Forall
    (fun e =>
       exists d r c,
         resolve PLUGINS_DIR (plugins st) (path e) = Some d /\
         lookup_path d [lit "SKILL.md"] = Some (File r c) /\
         description e = readDescription (if r then Ok c else Throw EACCES))
    catalog.
Proof.
  intros HP Hp Hwf Hcat. apply Forall_forall. intros e He.
  eapply entry_source; eassumption.
Qed.

Lemma cpSync_done_readable (st st2 : fs) (srcPath dest : str) :
  cpSync PLUGINS_DIR HOME st srcPath dest = (st2, None) ->
  exists src segs,
    resolve PLUGINS_DIR (plugins st) srcPath = Some src /\
    home_path HOME dest = Some segs /\
    lookup_path (home st2) segs = Some src /\
    all_readable src = true.
Proof.
  unfold cpSync.
  destruct (resolve PLUGINS_DIR (plugins st) srcPath) as [n|];
    [|intros H; now inversion H].
  destruct (home_path HOME dest) as [segs|]; [|intros H; now inversion H].
  destruct (mkdirp (removelast segs) (Some (home st))) as [h|x];
    [|intros H; now inversion H].
  destruct (cp_tree n) as [ok [made|]] eqn:Ecp; [|intros H; now inversion H].
  destruct (put_at segs made (Some h)) as [h'|x] eqn:Eput;
    [|intros H; now inversion H].
  destruct ok; intros H; inversion H; subst. cbn [home].
  pose proof (cp_tree_true_readable _ _ Ecp) as Hr.
  apply cp_tree_complete in Ecp. injection Ecp as ->.
  exists n, segs. repeat split; try assumption.
  eapply lookup_put_at, Eput.
Qed.

Lemma installed_inv (st st' : fs) (skillName n dest : str) :
  handleInstallSkill PLUGINS_DIR HOME localeCompare skillName st
  = Ok (Installed n dest, st') ->
  exists catalog target src segs,
    findSkills PLUGINS_DIR localeCompare st = Ok catalog /\
    find (fun s => str_eqb (name s) skillName) catalog = Some target /\
    resolve PLUGINS_DIR (plugins st) (path target) = Some src /\
    home_path HOME dest = Some segs /\
    lookup_path (home st') segs = Some src /\
    all_readable src = true.
Proof.
  unfold handleInstallSkill.
  destruct (findSkills PLUGINS_DIR localeCompare st) as [catalog|e] eqn:Hcat;
    [|discriminate].
  destruct (find (fun s => str_eqb (name s) skillName) catalog)
    as [target|] eqn:Hfind; [|discriminate].
  destruct (existsSync HOME st (path_join (getGeminiSkillsDir HOME) skillName));
    [discriminate|].
  destruct (if negb (existsSync HOME st (getGeminiSkillsDir HOME))
            then mkdirSync HOME st (getGeminiSkillsDir HOME) else Ok st)
    as [st1|e] eqn:Hst1; [|discriminate].
  assert (Hp1 : plugins st1 = plugins st).
  { destruct (negb (existsSync HOME st (getGeminiSkillsDir HOME))).
    - eapply mkdirSync_plugins, Hst1.
    - now injection Hst1 as <-. }
  destruct (cpSync PLUGINS_DIR HOME st1 (path target)
              (path_join (getGeminiSkillsDir HOME) skillName))
    as [st2 [e|]] eqn:Hcp; [discriminate|].
  intros H. injection H as <- <- <-.
  destruct (cpSync_done_readable st1 _ _ _ Hcp)
    as [src [segs [Hsrc [Hdest [Hl Hr]]]]].
  exists catalog, target, src, segs. rewrite <- Hp1. auto 10.
Qed.

(** X13: After [Installed] in a tree as a file system holds it, the
    destination is a skill directory: it holds a readable file [SKILL.md],
    and the description the catalog gave for the skill is the one read
    from the content of that file. *)
Theorem installed_marker (st st' : fs) (tree : node) (skillName n dest : str) :
  PLUGINS_DIR <> [] ->
  plugins st = Some tree -> well_formed tree = true ->
  handleInstallSkill PLUGINS_DIR HOME localeCompare skillName st
  = Ok (Installed n dest, st') ->
  exists catalog target segs c,
    findSkills PLUGINS_DIR localeCompare st = Ok catalog /\
    find (fun s => str_eqb (name s) skillName) catalog = Some target /\
    home_path HOME dest = Some segs /\
    lookup_path (home st') (segs ++ [lit "SKILL.md"]) = Some (File true c) /\
    description target = readDescription (Ok c).
Proof.
  intros HP Hp Hwf H.
  destruct (installed_inv _ _ _ _ _ H)
    as [catalog [target [src [segs [Hcat [Hfind [Hsrc [Hdest [Hl Hr]]]]]]]]].
  destruct (find_some _ _ Hfind) as [Hin _].
  destruct (entry_source st tree catalog target HP Hp Hwf Hcat Hin)
    as [d [r [c [Hd [Hm Hdesc]]]]].
  rewrite Hsrc in Hd. injection Hd as <-.
  pose proof (all_readable_lookup _ _ _ Hr Hm) as Hrc. cbn in Hrc. subst r.
  exists catalog, target, segs, c. repeat split; try assumption.
  now rewrite lookup_path_app, Hl.
Qed.

End InstallFrame.

Lemma callTool_frame_witness :
  plugins ex_state_installed = plugins ex_state /\
  findSkills ex_PLUGINS_DIR code_unit_compare ex_state_installed
  = findSkills ex_PLUGINS_DIR code_unit_compare ex_state /\
  (tool ex_request_foo = lit "list_marketplace_skills" ->
   ex_state_installed = ex_state) /\
  forall y,
    arguments ex_request_foo <> Some (Some y) ->
    lookup_path (home ex_state_installed) (BASE ++ [y])
    = lookup_path (home ex_state) (BASE ++ [y]).
Proof.
  apply (callTool_frame ex_PLUGINS_DIR ex_HOME code_unit_compare ex_describe
           ex_request_foo ex_state ex_state_installed
           (lit "Successfully installed 'foo' to /home/user/.gemini/skills/foo.")).
  vm_compute. reflexivity.
Defined.

Lemma callTool_keeps_installed_witness :
  lookup_path (home ex_state_installed) (BASE ++ [lit "foo"])
  = Some ex_skill_dir.
Proof.
  apply (callTool_keeps_installed ex_PLUGINS_DIR ex_HOME code_unit_compare
           ex_describe ex_request_foo ex_state_installed ex_state_installed
           (lit "Skill 'foo' is already installed at /home/user/.gemini/skills/foo.")
           (lit "foo") ex_skill_dir).
  - vm_compute. reflexivity.
  - reflexivity.
Defined.

Lemma catalog_sources_witness :
  Forall
    (fun e =>
       exists d r c,
         resolve ex_PLUGINS_DIR (plugins ex_state) (path e) = Some d /\
         lookup_path d [lit "SKILL.md"] = Some (File r c) /\
         description e = readDescription (if r then Ok c else Throw EACCES))
    [ {| name := lit "foo";
         path := lit "/ext/plugins/foo/skills/foo";
         description := lit "Hello world" |} ].
Proof.
  apply (catalog_sources ex_PLUGINS_DIR code_unit_compare ex_state ex_plugins).
  - discriminate.
  - reflexivity.
  - reflexivity.
  - vm_compute. reflexivity.
Defined.

Lemma installed_marker_witness :
  exists catalog target segs c,
    findSkills ex_PLUGINS_DIR code_unit_compare ex_state = Ok catalog /\
    find (fun s => str_eqb (name s) (lit "foo")) catalog = Some target /\
    home_path ex_HOME (lit "/home/user/.gemini/skills/foo") = Some segs /\
    lookup_path (home ex_state_installed) (segs ++ [lit "SKILL.md"])
    = Some (File true c) /\
    description target = readDescription (Ok c).
Proof.
  apply (installed_marker ex_PLUGINS_DIR ex_HOME code_unit_compare
           ex_state ex_state_installed ex_plugins (lit "foo") (lit "foo")
           (lit "/home/user/.gemini/skills/foo")).
  - discriminate.
  - reflexivity.
  - reflexivity.
  - vm_compute. reflexivity.
Defined.

(** ** The texts returned and the tools advertised (lines 145-168, 185-234) *)

(** X14: The five texts [handleInstallSkill] returns tell the five
    outcomes apart, whatever the skill name, the destination and the text
    of the exception are: two outcomes with the same text come from the
    same [return] statement. *)
Theorem message_kinds (describe : exn -> str) (o1 o2 : outcome) :
  message describe o1 = message describe o2 ->
  outcome_line o1 = outcome_line o2.
Proof.
  destruct o1, o2; try reflexivity; intros H;
    apply (f_equal (firstn 7)) in H; cbv in H; discriminate.
Qed.

Lemma message_kinds_witness :
  outcome_line (NotFound (lit "foo")) = outcome_line (NotFound (lit "foo")).
Proof.
  apply (message_kinds ex_describe (NotFound (lit "foo")) (NotFound (lit "foo"))).
  reflexivity.
Defined.

Section ToolFacts.

Variable PLUGINS_DIR : str.
Variable HOME : str.
Variable localeCompare : str -> str -> Z.
Variable describe : exn -> str.

Local Abbreviation call := (callTool PLUGINS_DIR HOME localeCompare describe).

Lemma findSkills_no_error (st : fs) (msg : str) :
  findSkills PLUGINS_DIR localeCompare st <> Throw (Error msg).
Proof.
  intros H. apply findSkills_errors in H as [H|[H|[f H]]];
    try discriminate.
  destruct f; discriminate.
Qed.

Lemma known_tool (req : request) (st : fs) :
  In (tool req) (map tool_name listTools) ->
  call req st <> Throw (Error (lit "Unknown tool: " ++ tool req)).
Proof.
  intros Hin. unfold listTools in Hin. cbn [map In tool_name] in Hin.
  unfold callTool. destruct Hin as [E|[E|[]]]; rewrite <- E.
  - rewrite str_eqb_refl.
    destruct (handleListSkills PLUGINS_DIR localeCompare st) as [t|e] eqn:Eh;
      [discriminate|].
    apply handleListSkills_throws in Eh. intros H. injection H as ->.
    now apply findSkills_no_error in Eh.
  - change (str_eqb (lit "install_marketplace_skill")
              (lit "list_marketplace_skills")) with false.
    rewrite str_eqb_refl. cbv iota.
    destruct (arguments req) as [[s|]|]; try discriminate.
    destruct (is_empty s); [discriminate|].
    destruct (handleInstallSkill PLUGINS_DIR HOME localeCompare s st)
      as [[o st']|e] eqn:Eh; [discriminate|].
    apply handleInstallSkill_throws in Eh. intros H. injection H as ->.
    now apply findSkills_no_error in Eh.
Qed.

Lemma unknown_tool (req : request) (st : fs) :
  ~ In (tool req) (map tool_name listTools) ->
  call req st = Throw (Error (lit "Unknown tool: " ++ tool req)).
Proof.
  intros Hn. unfold callTool.
  destruct (str_eqb (tool req) (lit "list_marketplace_skills")) eqn:El.
  - apply str_eqb_eq in El. exfalso. apply Hn. rewrite El. now left.
  - destruct (str_eqb (tool req) (lit "install_marketplace_skill")) eqn:Ei;
      [|reflexivity].
    apply str_eqb_eq in Ei. exfalso. apply Hn. rewrite Ei. right. now left.
Qed.

(** X15: The tools the handler of [ListToolsRequestSchema] advertises are
    the tools the handler of [CallToolRequestSchema] serves: a call is
    answered with [Unknown tool] exactly when its name is not in the list.
    And the argument a tool of the list requires is the one whose absence
    makes the call fail: a call without [skill_name] throws the
    missing-argument error exactly for the tool whose schema requires
    it. *)
Theorem advertised_tools (st : fs) :
  (forall req,
      In (tool req) (map tool_name listTools) <->
      call req st <> Throw (Error (lit "Unknown tool: " ++ tool req))) /\
  (forall t,
      In t listTools ->
      (In (lit "skill_name") (tool_required t) <->
       call {| tool := tool_name t; arguments := Some None |} st
       = Throw MISSING_ARGUMENT)).
Proof.
  split.
  - intros req. split; [apply known_tool|].
    intros H.
    destruct (in_dec (list_eq_dec ascii_dec) (tool req)
                (map tool_name listTools)) as [Hin|Hn]; [exact Hin|].
    exfalso. apply H. now apply unknown_tool.
  - intros t [<-|[<-|[]]]; cbn [tool_required tool_name].
    + split; [intros []|]. unfold callTool. cbn [tool].
      rewrite str_eqb_refl.
      destruct (handleListSkills PLUGINS_DIR localeCompare st) as [x|e] eqn:Eh;
        [discriminate|].
      apply handleListSkills_throws in Eh. intros H. injection H as ->.
      now apply findSkills_no_error in Eh.
    + split; [reflexivity|]. intros _. now left.
Qed.

End ToolFacts.
